(** * ip_diffim: image subtraction (src/src/ImageSubtract.cc)

    A shallow embedding of the functions of [ImageSubtract.cc] and the
    properties of its specification that were checked against it:

    - [generateDeltaFunctionKernelSet]            (kernel basis)
    - [convolveAndSubtract], [addFunctionToImage] (difference operator)
    - [getCollectionOfFootprintsForPsfMatching]   (footprint selector)
    - [computePsfMatchingKernelForFootprint]      (kernel solver)
    - [calculateMaskedImageStatistics]            (statistics engine)

    The templates are embedded at one pixel type [D] (the [double]
    instantiation), kept abstract behind the classes [Scalar] and
    [Floating]; IEEE binary64 ([PrimFloat]) is the instance used to run the
    model.  The libraries the file calls (afw, detection, GSL) are
    interfaces: classes whose operations the model only calls. *)

From Stdlib Require Import ZArith Lia Floats Reals Lra String Uint63.
From stdpp Require Import base tactics option list.

Local Open Scope Z_scope.

(* ===================================================================== *)
(** * Machine integers *)
(* ===================================================================== *)

Definition UINT_MODULUS : Z := 2 ^ 32.
Definition INT_MAX : Z := 2 ^ 31 - 1.

(** Conversion to [unsigned int]: reduction modulo 2^32. *)
Definition to_unsigned (z : Z) : Z := z mod UINT_MODULUS.

(** Conversion to [int] ([static_cast<int>]): the two's complement reading
    of the low 32 bits. *)
Definition to_int (z : Z) : Z := (z + 2 ^ 31) mod UINT_MODULUS - 2 ^ 31.

(* ===================================================================== *)
(** * Scalars *)
(* ===================================================================== *)

(** The arithmetic of the pixel type [ImageT] and of [double]. *)
Class Scalar (D : Type) := {
  of_Z : Z -> D;              (* an integer, or a literal such as 1.0 *)
  fadd : D -> D -> D;
  fsub : D -> D -> D;
  fmul : D -> D -> D;
  fdiv : D -> D -> D;
}.

(** What [<cmath>] and [<limits>] add to it. *)
Class Floating (D : Type) := {
  fsqrt : D -> D;
  quiet_NaN : D;
  fisnan : D -> bool;
  fltb : D -> D -> bool;      (* a < b *)
  fleb : D -> D -> bool;      (* a <= b *)
}.

(* ===================================================================== *)
(** * Exceptions and outcomes *)
(* ===================================================================== *)

(** The classes of [lsst::pex::exceptions] that the file names:
    [Exception], the class every [LSST_EXCEPT] of the file throws, and
    [DomainError], the class the docstrings of the two basis generators
    announce. *)
Inductive ExceptionClass := pex_Exception | pex_DomainError.

(** [LSST_EXCEPT(type, msg)]: the class, the message, and the argument
    fed to the message when it is a [boost::format]. *)
Record Exception (D : Type) := LSST_EXCEPT {
  exception_class : ExceptionClass;
  what : string;
  format_arg : option D;
}.
Arguments LSST_EXCEPT {D} _ _ _.
Arguments exception_class {D} _.
Arguments what {D} _.
Arguments format_arg {D} _.

(** A call returns, throws, or leaves defined behaviour (an access outside
    an array, a dereferenced end iterator). *)
Inductive outcome (D A : Type) : Type :=
| Done (a : A)
| Throw (e : Exception D)
| Fault.
Arguments Done {D A} _.
Arguments Throw {D A} _.
Arguments Fault {D A}.

Definition bind {D A B} (m : outcome D A) (k : A -> outcome D B) : outcome D B :=
  match m with
  | Done a => k a
  | Throw e => Throw e
  | Fault => Fault
  end.

(** [try { body } catch (exceptions::Exception& e) { handler }] *)
Definition try_catch {D A} (body : outcome D A) (handler : Exception D -> outcome D A)
  : outcome D A :=
  match body with
  | Throw e => handler e
  | other => other
  end.

(** A call that returns or throws. *)
Definition raising {D A} (r : Exception D + A) : outcome D A :=
  match r with
  | inl e => Throw e
  | inr a => Done a
  end.

(** An array read that must be in range. *)
Definition checked {D A} (o : option A) : outcome D A :=
  match o with
  | Some a => Done a
  | None => Fault
  end.

Declare Scope outcome_scope.
Delimit Scope outcome_scope with outcome.
Notation "x <- m ;; k" := (bind m (fun x => k))
  (at level 100, m at next level, right associativity) : outcome_scope.

(* ===================================================================== *)
(** * Images and kernels *)
(* ===================================================================== *)

Record PointI := mkPointI { getX : Z; getY : Z }.

Record BBox := mkBBox { llc : PointI; urc : PointI }.

(** One pixel of a [MaskedImage]: the three planes. *)
Record Pixel (D : Type) := mkPixel {
  image : D;
  variance : D;
  mask : Z;
}.
Arguments mkPixel {D} _ _ _.
Arguments image {D} _.
Arguments variance {D} _.
Arguments mask {D} _.

(** A [MaskedImage<ImageT>]: its dimensions and the pixel found at a
    column and row.  [pixel_at] is total: a locator stepped outside the
    image reads whatever the memory holds there. *)
Record MaskedImage (D : Type) := mkMaskedImage {
  getWidth : Z;
  getHeight : Z;
  pixel_at : Z -> Z -> Pixel D;
}.
Arguments mkMaskedImage {D} _ _ _.
Arguments getWidth {D} _.
Arguments getHeight {D} _.
Arguments pixel_at {D} _ _ _.

(** The rows of an image given as lists ([fill] outside them). *)
Definition image_of_rows {D} (fill : Pixel D) (w h : Z) (rows : list (list (Pixel D)))
  : MaskedImage D :=
  mkMaskedImage w h
    (fun x y =>
       if (0 <=? x) && (0 <=? y)
       then default fill (row ← rows !! Z.to_nat y; row !! Z.to_nat x)
       else fill).

(** What the solver asks of a [math::Kernel]. *)
Class KernelLike (K : Type) := {
  kernelWidth : K -> Z;       (* getWidth  *)
  kernelHeight : K -> Z;      (* getHeight *)
  getCtrX : K -> Z;
  getCtrY : K -> Z;
}.

(** Modelled from the spec: the [math::DeltaFunctionKernel] built by
    [DeltaFunctionKernel(width, height, PointI(col,row))] (the class is
    declared in the afw library): unit weight at the given pixel and zero
    elsewhere, with its anchor at that pixel. *)
Record DeltaFunctionKernel := mkDeltaFunctionKernel {
  dfk_width : Z;
  dfk_height : Z;
  dfk_pixel : PointI;
}.

Definition dfk_weight (k : DeltaFunctionKernel) (x y : Z) : Z :=
  if (x =? getX (dfk_pixel k)) && (y =? getY (dfk_pixel k)) then 1 else 0.

Definition dfk_anchor (k : DeltaFunctionKernel) : PointI := dfk_pixel k.

(** [math::LinearCombinationKernel(kernelList, kernelParameters)]. *)
Record LinearCombinationKernel (K D : Type) := mkLinearCombinationKernel {
  getKernelList : list K;
  getKernelParameters : list D;
}.
Arguments mkLinearCombinationKernel {K D} _ _.
Arguments getKernelList {K D} _.
Arguments getKernelParameters {K D} _.

(** Modelled from the spec: a linear combination holds one scalar
    coefficient per basis element (the constructor is afw's). *)
Definition lck_well_formed {K D} (k : LinearCombinationKernel K D) : Prop :=
  length (getKernelParameters k) = length (getKernelList k).

(* ===================================================================== *)
(** * Kernel basis: generateDeltaFunctionKernelSet *)
(* ===================================================================== *)

Section KernelBasis.
  Context {D : Type}.

(** The inner loop, [for (int col = 0; col < signedWidth; ++col)]. *)
Definition delta_row (width height : Z) (signedWidth : Z) (row : Z)
  : list DeltaFunctionKernel :=
  (fun col => mkDeltaFunctionKernel width height (mkPointI col row))
    <$> seqZ 0 signedWidth.

Definition generateDeltaFunctionKernelSet (width height : Z)
  : outcome D (list DeltaFunctionKernel) :=
  if (width <? 1) || (height <? 1)
  then Throw (LSST_EXCEPT pex_Exception "nRows and nCols must be positive" None)
  else
    let signedWidth := to_int width in
    let signedHeight := to_int height in
    Done (mjoin (delta_row width height signedWidth <$> seqZ 0 signedHeight)).

End KernelBasis.

(* ===================================================================== *)
(** * Statistics engine: calculateMaskedImageStatistics *)
(* ===================================================================== *)

Section Statistics.
  Context {D : Type} `{Scalar D} `{Floating D}.

(** The running sums of one scan: [xSum], [x2Sum] and the [int] counter. *)
Record Sums := mkSums {
  xSum : D;
  x2Sum : D;
  nGood : Z;
}.

(** The three outputs ([nGoodPixels], [mean], [variance]). *)
Record Statistics := mkStatistics {
  nGoodPixels : Z;
  residualMean : D;
  residualVariance : D;
}.

(** The body of the pixel loop; [unmasked] is the test of the overload. *)
Definition accumulate (unmasked : Z -> bool) (s : Sums) (ptr : Pixel D) : Sums :=
  if unmasked (mask ptr)
  then mkSums (fadd (xSum s) (fdiv (image ptr) (fsqrt (variance ptr))))
              (fadd (x2Sum s) (fdiv (fmul (image ptr) (image ptr)) (variance ptr)))
              (to_int (nGood s + 1))
  else s.

(** [for (ptr = row_begin(y); ptr != row_end(y); ++ptr)] *)
Definition scan_row (unmasked : Z -> bool) (inputImage : MaskedImage D) (s : Sums) (y : nat)
  : Sums :=
  foldl (fun s (x : nat) => accumulate unmasked s (pixel_at inputImage (Z.of_nat x) (Z.of_nat y)))
        s (seq 0 (Z.to_nat (getWidth inputImage))).

(** [for (int y = 0; y != inputImage.getHeight(); ++y)] *)
Definition scan_image (unmasked : Z -> bool) (inputImage : MaskedImage D) : Sums :=
  foldl (scan_row unmasked inputImage) (mkSums (of_Z 0) (of_Z 0) 0)
        (seq 0 (Z.to_nat (getHeight inputImage))).

(** The mean and the variance computed from the sums.  [nGoodPixels] is an
    [int], so [nGoodPixels / (nGoodPixels - 1)] is the integer quotient. *)
Definition finish (s : Sums) : Statistics :=
  let n := nGood s in
  let mean := if 0 <? n then fdiv (xSum s) (of_Z n) else quiet_NaN in
  let variance :=
    if 1 <? n
    then fmul (fsub (fdiv (x2Sum s) (of_Z n)) (fmul mean mean)) (of_Z (Z.quot n (n - 1)))
    else quiet_NaN in
  mkStatistics n mean variance.

(** The overload with a [badPixelMask]: [(ptr.mask() & badPixelMask) == 0]. *)
Definition calculateMaskedImageStatistics_badPixelMask
    (inputImage : MaskedImage D) (badPixelMask : Z) : Statistics :=
  finish (scan_image (fun m => Z.land m badPixelMask =? 0) inputImage).

(** The overload without one: [ptr.mask() == 0]. *)
Definition calculateMaskedImageStatistics (inputImage : MaskedImage D) : Statistics :=
  finish (scan_image (fun m => m =? 0) inputImage).

(** The pixels of an image in scan order, and those a test selects. *)
Definition pixels (inputImage : MaskedImage D) : list (Pixel D) :=
  mjoin ((fun y : nat =>
            (fun x : nat => pixel_at inputImage (Z.of_nat x) (Z.of_nat y))
              <$> seq 0 (Z.to_nat (getWidth inputImage)))
           <$> seq 0 (Z.to_nat (getHeight inputImage))).

Definition selected (unmasked : Z -> bool) (inputImage : MaskedImage D) : list (Pixel D) :=
  filter (fun p => unmasked (mask p) = true) (pixels inputImage).

(** The variance the specification describes: the sample variance of the
    normalized residuals, scaled by count/(count-1) as a number. *)
Definition unbiased_variance (sum2 : D) (count : Z) (mean : D) : D :=
  fmul (fsub (fdiv sum2 (of_Z count)) (fmul mean mean))
       (fdiv (of_Z count) (of_Z (count - 1))).

End Statistics.

(* ===================================================================== *)
(** * Difference operator: convolveAndSubtract *)
(* ===================================================================== *)

(** The image library (afw), as this file calls it.  [convolve] and
    [convolveLinear] give the pixels they write into the output image. *)
Class Afw (D K : Type) := {
  getMaskPlane : MaskedImage D -> string -> Z;
  convolve : MaskedImage D -> K -> bool -> Z -> Z -> Z -> Pixel D;
  convolveLinear : MaskedImage D -> LinearCombinationKernel K D -> Z -> Z -> Z -> Pixel D;
  positionToIndex : Z -> D;
}.

Section DifferenceOperator.
  Context {D K : Type} `{Scalar D} `{Afw D K}.

(** [image::MaskedImage<ImageT> out(in.getDimensions()); math::convolve(out, in, ...)] *)
Definition convolved (imageToConvolve : MaskedImage D) (kernel : K) (edgeMaskBit : Z)
  : MaskedImage D :=
  mkMaskedImage (getWidth imageToConvolve) (getHeight imageToConvolve)
                (convolve imageToConvolve kernel false edgeMaskBit).

Definition convolvedLinear (imageToConvolve : MaskedImage D)
    (kernel : LinearCombinationKernel K D) (edgeMaskBit : Z) : MaskedImage D :=
  mkMaskedImage (getWidth imageToConvolve) (getHeight imageToConvolve)
                (convolveLinear imageToConvolve kernel edgeMaskBit).

(** The compound assignments of [MaskedImage]; the claims below only read
    the intensity plane, on which they act pixel by pixel. *)
Definition plus_scalar (a : MaskedImage D) (c : D) : MaskedImage D :=
  mkMaskedImage (getWidth a) (getHeight a)
    (fun x y => let p := pixel_at a x y in mkPixel (fadd (image p) c) (variance p) (mask p)).

Definition minus_image (a b : MaskedImage D) : MaskedImage D :=
  mkMaskedImage (getWidth a) (getHeight a)
    (fun x y =>
       let p := pixel_at a x y in
       let q := pixel_at b x y in
       mkPixel (fsub (image p) (image q)) (fadd (variance p) (variance q))
               (Z.lor (mask p) (mask q))).

Definition times_scalar (a : MaskedImage D) (c : D) : MaskedImage D :=
  mkMaskedImage (getWidth a) (getHeight a)
    (fun x y =>
       let p := pixel_at a x y in
       mkPixel (fmul (image p) c) (fmul (variance p) (fmul c c)) (mask p)).

(** [*imCol += value] on the intensity plane. *)
Definition add_at (a : MaskedImage D) (col row : Z) (value : D) : MaskedImage D :=
  mkMaskedImage (getWidth a) (getHeight a)
    (fun x y =>
       let p := pixel_at a x y in
       if (x =? col) && (y =? row)
       then mkPixel (fadd (image p) value) (variance p) (mask p)
       else p).

(** [addFunctionToImage]: the first pair of loops has an empty body; the
    second walks rows and columns with a pixel accessor. *)
Definition addFunctionToImage (img : MaskedImage D) (function : D -> D -> D)
  : MaskedImage D :=
  let numCols := to_unsigned (getWidth img) in
  let numRows := to_unsigned (getHeight img) in
  foldl (fun im (row : nat) =>
           let rowPos := positionToIndex (Z.of_nat row) in
           foldl (fun im (col : nat) =>
                    let colPos := positionToIndex (Z.of_nat col) in
                    add_at im (Z.of_nat col) (Z.of_nat row) (function colPos rowPos))
                 im (seq 0 (Z.to_nat numCols)))
        img (seq 0 (Z.to_nat numRows)).

(** [math::Kernel], scalar background. *)
Definition convolveAndSubtract (imageToConvolve imageToNotConvolve : MaskedImage D)
    (convolutionKernel : K) (background : D) : MaskedImage D :=
  let edgeMaskBit := getMaskPlane imageToConvolve "EDGE" in
  let convolvedMaskedImage := convolved imageToConvolve convolutionKernel edgeMaskBit in
  let convolvedMaskedImage := plus_scalar convolvedMaskedImage background in
  let convolvedMaskedImage := minus_image convolvedMaskedImage imageToNotConvolve in
  times_scalar convolvedMaskedImage (of_Z (-1)).

(** [math::LinearCombinationKernel], scalar background. *)
Definition convolveAndSubtract_linear (imageToConvolve imageToNotConvolve : MaskedImage D)
    (convolutionKernel : LinearCombinationKernel K D) (background : D) : MaskedImage D :=
  let edgeMaskBit := getMaskPlane imageToConvolve "EDGE" in
  let convolvedMaskedImage := convolvedLinear imageToConvolve convolutionKernel edgeMaskBit in
  let convolvedMaskedImage := plus_scalar convolvedMaskedImage background in
  let convolvedMaskedImage := minus_image convolvedMaskedImage imageToNotConvolve in
  times_scalar convolvedMaskedImage (of_Z (-1)).

(** [math::Kernel], background function. *)
Definition convolveAndSubtract_function (imageToConvolve imageToNotConvolve : MaskedImage D)
    (convolutionKernel : K) (backgroundFunction : D -> D -> D) : MaskedImage D :=
  let edgeMaskBit := getMaskPlane imageToConvolve "EDGE" in
  let convolvedMaskedImage := convolved imageToConvolve convolutionKernel edgeMaskBit in
  let convolvedMaskedImage := addFunctionToImage convolvedMaskedImage backgroundFunction in
  let convolvedMaskedImage := minus_image convolvedMaskedImage imageToNotConvolve in
  times_scalar convolvedMaskedImage (of_Z (-1)).

(** [math::LinearCombinationKernel], background function. *)
Definition convolveAndSubtract_linear_function
    (imageToConvolve imageToNotConvolve : MaskedImage D)
    (convolutionKernel : LinearCombinationKernel K D) (backgroundFunction : D -> D -> D)
  : MaskedImage D :=
  let edgeMaskBit := getMaskPlane imageToConvolve "EDGE" in
  let convolvedMaskedImage := convolvedLinear imageToConvolve convolutionKernel edgeMaskBit in
  let convolvedMaskedImage := addFunctionToImage convolvedMaskedImage backgroundFunction in
  let convolvedMaskedImage := minus_image convolvedMaskedImage imageToNotConvolve in
  times_scalar convolvedMaskedImage (of_Z (-1)).

End DifferenceOperator.

(* ===================================================================== *)
(** * Footprint selector: getCollectionOfFootprintsForPsfMatching *)
(* ===================================================================== *)

(** The entries of the [Policy] the functions read ([getInt], [getDouble]). *)
Record Policy (D : Type) := mkPolicy {
  footprintDiffimNpixMin : Z;
  footprintDiffimGrow : Z;
  minimumCleanFootprints : Z;
  footprintDetectionThreshold : D;
  detectionThresholdScaling : D;
  minimumDetectionThreshold : D;
  kernelCols : Z;
  kernelRows : Z;
}.
Arguments mkPolicy {D} _ _ _ _ _ _ _ _.
Arguments footprintDiffimNpixMin {D} _.
Arguments footprintDiffimGrow {D} _.
Arguments minimumCleanFootprints {D} _.
Arguments footprintDetectionThreshold {D} _.
Arguments detectionThresholdScaling {D} _.
Arguments minimumDetectionThreshold {D} _.
Arguments kernelCols {D} _.
Arguments kernelRows {D} _.

(** The detection library and the footprint functor, as the selector calls
    them: [getFootprints img t] is
    [DetectionSet(img, Threshold(t, VALUE)).getFootprints()],
    [findSetBits img fp] is the [FindSetBits] functor reset, applied to
    [fp] and read with [getBits], and [subImage parent bbox] is the
    [MaskedImage(parent, bbox)] constructor, which may throw. *)
Class Detection (D Footprint : Type) := {
  getFootprints : MaskedImage D -> D -> list Footprint;
  getNpix : Footprint -> Z;
  growFootprint : Footprint -> Z -> Footprint;
  getBBox : Footprint -> BBox;
  findSetBits : MaskedImage D -> Footprint -> Z;
  subImage : MaskedImage D -> BBox -> Exception D + MaskedImage D;
}.

Section FootprintSelector.
  Context {D Footprint : Type} `{Scalar D} `{Floating D} `{Detection D Footprint}.
  Variables (imageToConvolve imageToNotConvolve : MaskedImage D) (policy : Policy D).

(** The body of the loop over [footprintListIn]: [None] stands for
    [continue], [Some fpGrow] for reaching the [push_back]. *)
Definition examine (i : Footprint) : outcome D (option Footprint) :=
  let footprintDiffimNpixMin := to_unsigned (footprintDiffimNpixMin policy) in
  let footprintDiffimGrow := to_unsigned (footprintDiffimGrow policy) in
  if to_unsigned (getNpix i) <? footprintDiffimNpixMin then Done None
  else
    let fpGrow := growFootprint i footprintDiffimGrow in
    if 0 <? findSetBits imageToConvolve fpGrow then Done None
    else if 0 <? findSetBits imageToNotConvolve fpGrow then Done None
    else
      let fpBBox := getBBox fpGrow in
      try_catch
        (bind (raising (subImage imageToConvolve fpBBox)) (fun subImageToConvolve =>
         bind (raising (subImage imageToNotConvolve fpBBox)) (fun subImageToNotConvolve =>
         Done (Some fpGrow))))
        (fun e => Done None).

(** One pass over the detected footprints, carrying [footprintListOut] and
    [nCleanFootprints]. *)
Fixpoint scan_footprints (footprintListIn : list Footprint)
    (acc : list Footprint * Z) : outcome D (list Footprint * Z) :=
  match footprintListIn with
  | [] => Done acc
  | i :: rest =>
      bind (examine i) (fun r =>
        match r with
        | None => scan_footprints rest acc
        | Some fpGrow => scan_footprints rest (acc.1 ++ [fpGrow], to_int (acc.2 + 1))
        end)
  end.

(** The test of the [while]. *)
Definition keep_searching (nCleanFootprints : Z) (threshold : D) : bool :=
  (nCleanFootprints <? minimumCleanFootprints policy)
  && fltb (minimumDetectionThreshold policy) threshold.

(** The [while] loop; [fuel] bounds the number of passes, and [None] is
    its exhaustion. *)
Fixpoint selector_loop (fuel : nat) (threshold : D)
    (footprintListOut : list Footprint) (nCleanFootprints : Z)
  : option (outcome D (list Footprint)) :=
  if keep_searching nCleanFootprints threshold
  then
    match fuel with
    | O => None
    | S fuel' =>
        match scan_footprints (getFootprints imageToConvolve threshold) ([], 0) with
        | Done (out, n) =>
            selector_loop fuel' (fmul threshold (detectionThresholdScaling policy)) out n
        | Throw e => Some (Throw e)
        | Fault => Some Fault
        end
    end
  else Some (Done footprintListOut).

Definition getCollectionOfFootprintsForPsfMatching (fuel : nat)
  : option (outcome D (list Footprint)) :=
  selector_loop fuel (footprintDetectionThreshold policy) [] 0.

(** The footprints a pass accepts, described without the exceptions: a
    footprint is clean when it is large enough, no mask bit is set under
    its grown version in either image, and both sub-images can be cut. *)
Definition extractable (bbox : BBox) : bool :=
  match subImage imageToConvolve bbox, subImage imageToNotConvolve bbox with
  | inr _, inr _ => true
  | _, _ => false
  end.

Definition clean (i : Footprint) : bool :=
  let fpGrow := growFootprint i (to_unsigned (footprintDiffimGrow policy)) in
  negb (to_unsigned (getNpix i) <? to_unsigned (footprintDiffimNpixMin policy))
  && negb (0 <? findSetBits imageToConvolve fpGrow)
  && negb (0 <? findSetBits imageToNotConvolve fpGrow)
  && extractable (getBBox fpGrow).

Definition accepted (footprintListIn : list Footprint) : list Footprint :=
  (fun i => growFootprint i (to_unsigned (footprintDiffimGrow policy)))
    <$> filter (fun i => clean i = true) footprintListIn.

(** The counter after a pass that started from [n]. *)
Definition counted (n : Z) (l : list Footprint) : Z :=
  foldl (fun n _ => to_int (n + 1)) n l.

(** The threshold after [k] passes. *)
Definition threshold_after (k : nat) : D :=
  Nat.iter k (fun t => fmul t (detectionThresholdScaling policy))
           (footprintDetectionThreshold policy).

(** [footprintListOut] and [nCleanFootprints] when the [while] tests its
    condition for the [k]-th time (from 0): empty and 0 at first, then
    what the pass before accepted. *)
Definition list_before (k : nat) : list Footprint :=
  match k with
  | O => []
  | S j => accepted (getFootprints imageToConvolve (threshold_after j))
  end.

Definition count_before (k : nat) : Z := counted 0 (list_before k).

End FootprintSelector.

(* ===================================================================== *)
(** * Kernel solver: computePsfMatchingKernelForFootprint *)
(* ===================================================================== *)

(** A [gsl_vector] is a list of scalars, a [gsl_matrix] a list of rows. *)
Abbreviation gsl_vector D := (list D) (only parsing).
Abbreviation gsl_matrix D := (list (list D)) (only parsing).

(** The GSL routines the solver calls on the balanced matrix.
    [gsl_linalg_balance_columns A] gives the balanced [A] and the scalings
    [D]; [gsl_linalg_SV_decomp_mod A] gives [A] overwritten with U, the
    matrix [Q], the singular values [Sv] and the work vector [xt];
    [gsl_blas_dgemv trans alpha A x beta y] gives the updated [y]. *)
Class Gsl (D : Type) := {
  GSL_DBL_EPSILON : D;
  gsl_linalg_balance_columns : gsl_matrix D -> gsl_matrix D * gsl_vector D;
  gsl_linalg_SV_decomp_mod :
    gsl_matrix D -> gsl_matrix D * gsl_matrix D * gsl_vector D * gsl_vector D;
  gsl_blas_dgemv :
    bool -> D -> gsl_matrix D -> gsl_vector D -> D -> gsl_vector D -> gsl_vector D;
}.

(** An [xy_locator]: the image it walks and where it stands. *)
Record xy_locator (D : Type) := mk_xy_locator {
  loc_image : MaskedImage D;
  loc_x : Z;
  loc_y : Z;
}.
Arguments mk_xy_locator {D} _ _ _.
Arguments loc_image {D} _.
Arguments loc_x {D} _.
Arguments loc_y {D} _.

(** The four bounds of the pixel loops. *)
Record Window := mkWindow {
  startCol : Z;
  startRow : Z;
  endCol : Z;
  endRow : Z;
}.

(** The outputs of the solver. *)
Record FitResult (K D : Type) := mkFitResult {
  kernelPtr : LinearCombinationKernel K D;
  kernelErrorPtr : LinearCombinationKernel K D;
  background : D;
  backgroundError : D;
}.
Arguments mkFitResult {K D} _ _ _ _.
Arguments kernelPtr {K D} _.
Arguments kernelErrorPtr {K D} _.
Arguments background {K D} _.
Arguments backgroundError {K D} _.

Section KernelSolver.
  Context {D K : Type} `{Scalar D} `{Floating D} `{KernelLike K} `{Afw D K} `{Gsl D}.

(** ** Containers *)

Definition lookupZ {A} (l : list A) (i : Z) : option A :=
  if 0 <=? i then l !! Z.to_nat i else None.

Definition gsl_vector_get (v : gsl_vector D) (i : Z) : option D := lookupZ v i.

Definition gsl_matrix_get (m : gsl_matrix D) (i j : Z) : option D :=
  row ← lookupZ m i; lookupZ row j.

(** [*gsl_vector_ptr(v, i) += a] and [*gsl_matrix_ptr(m, i, j) += a] *)
Definition vector_add (v : gsl_vector D) (i : nat) (a : D) : gsl_vector D :=
  alter (fun x => fadd x a) i v.

Definition matrix_add (m : gsl_matrix D) (i j : nat) (a : D) : gsl_matrix D :=
  alter (alter (fun x => fadd x a) j) i m.

(** [gsl_matrix_set(m, i, j, a)] *)
Definition matrix_set (m : gsl_matrix D) (i j : nat) (a : D) : gsl_matrix D :=
  alter (fun row => <[j := a]> row) i m.

(** An entry read inside the loops, whose indices are below the sizes. *)
Definition entry (m : gsl_matrix D) (i j : nat) : D :=
  default (of_Z 0) (row ← m !! i; row !! j).

Definition gsl_vector_zero (n : nat) : gsl_vector D := replicate n (of_Z 0).
Definition gsl_matrix_zero (n : nat) : gsl_matrix D := replicate n (replicate n (of_Z 0)).

(** ** Locators *)

Definition xy_at (img : MaskedImage D) (x y : Z) : xy_locator D := mk_xy_locator img x y.

Definition deref (l : xy_locator D) : Pixel D := pixel_at (loc_image l) (loc_x l) (loc_y l).

(** [++l.x()] and [++l.y()] *)
Definition next_x (l : xy_locator D) : xy_locator D :=
  mk_xy_locator (loc_image l) (loc_x l + 1) (loc_y l).

Definition next_y (l : xy_locator D) : xy_locator D :=
  mk_xy_locator (loc_image l) (loc_x l) (loc_y l + 1).

Record Locators := mkLocators {
  imageToConvolveLocator : xy_locator D;
  imageToNotConvolveLocator : xy_locator D;
  varianceLocator : xy_locator D;
  convolvedLocatorList : list (xy_locator D);
}.

(** "Step each accessor in column" and "Step each accessor in row". *)
Definition step_column (l : Locators) : Locators :=
  mkLocators (next_x (imageToConvolveLocator l)) (next_x (imageToNotConvolveLocator l))
             (next_x (varianceLocator l)) (next_x <$> convolvedLocatorList l).

Definition step_row (l : Locators) : Locators :=
  mkLocators (next_y (imageToConvolveLocator l)) (next_y (imageToNotConvolveLocator l))
             (next_y (varianceLocator l)) (next_y <$> convolvedLocatorList l).

(** ** The accumulation window *)

Definition accumulation_window (kiter : K) (citer : MaskedImage D) : Window :=
  mkWindow
    (to_unsigned (getCtrX kiter))
    (to_unsigned (getCtrY kiter))
    (to_unsigned (getWidth citer - (kernelWidth kiter - getCtrX kiter) + 1))
    (to_unsigned (getHeight citer - (kernelHeight kiter - getCtrY kiter) + 1)).

(** ** The pixel scan *)

(** [for (kidxj = kidxi; kiterj != kiterE; ++kiterj, ++kidxj)] *)
Fixpoint accumulate_j (cdImagei iVariance : D) (kidxi kidxj : nat)
    (kiterj : list (xy_locator D)) (M : gsl_matrix D) : gsl_matrix D :=
  match kiterj with
  | [] => M
  | loc :: kiterj' =>
      let cdImagej := image (deref loc) in
      accumulate_j cdImagei iVariance kidxi (S kidxj) kiterj'
        (matrix_add M kidxi kidxj (fmul (fmul cdImagei cdImagej) iVariance))
  end.

(** [for (kidxi = 0; kiteri != kiterE; ++kiteri, ++kidxi)] *)
Fixpoint accumulate_i (ncImage iVariance : D) (nParameters kidxi : nat)
    (kiteri : list (xy_locator D)) (MB : gsl_matrix D * gsl_vector D)
  : gsl_matrix D * gsl_vector D :=
  match kiteri with
  | [] => MB
  | loc :: kiteri' =>
      let cdImagei := image (deref loc) in
      let M := accumulate_j cdImagei iVariance kidxi kidxi kiteri MB.1 in
      let B := vector_add MB.2 kidxi (fmul (fmul ncImage cdImagei) iVariance) in
      let M := matrix_add M kidxi (nParameters - 1) (fmul cdImagei iVariance) in
      accumulate_i ncImage iVariance nParameters (S kidxi) kiteri' (M, B)
  end.

(** The body of the column loop up to the stepping of the locators. *)
Definition accumulate_pixel (nParameters : nat) (l : Locators)
    (MB : gsl_matrix D * gsl_vector D) : gsl_matrix D * gsl_vector D :=
  let ncImage := image (deref (imageToNotConvolveLocator l)) in
  let iVariance := fdiv (of_Z 1) (variance (deref (varianceLocator l))) in
  let MB := accumulate_i ncImage iVariance nParameters 0 (convolvedLocatorList l) MB in
  let B := vector_add MB.2 (nParameters - 1) (fmul ncImage iVariance) in
  let M := matrix_add MB.1 (nParameters - 1) (nParameters - 1) (fmul (of_Z 1) iVariance) in
  (M, B).

Definition scan_pixel (nParameters : nat)
    (st : Locators * (gsl_matrix D * gsl_vector D))
  : Locators * (gsl_matrix D * gsl_vector D) :=
  (step_column st.1, accumulate_pixel nParameters st.1 st.2).

(** [for (col = startCol; col < endCol; ++col)], then the row step. *)
Definition scan_line (nParameters : nat) (w : Window)
    (st : Locators * (gsl_matrix D * gsl_vector D))
  : Locators * (gsl_matrix D * gsl_vector D) :=
  let st := Nat.iter (Z.to_nat (endCol w - startCol w)) (scan_pixel nParameters) st in
  (step_row st.1, st.2).

(** [for (row = startRow; row < endRow; ++row)] *)
Definition scan (nParameters : nat) (w : Window) (l : Locators)
  : gsl_matrix D * gsl_vector D :=
  (Nat.iter (Z.to_nat (endRow w - startRow w)) (scan_line nParameters w)
            (l, (gsl_matrix_zero nParameters, gsl_vector_zero nParameters))).2.

(** "Fill in rest of M" *)
Definition mirror (nParameters : nat) (M : gsl_matrix D) : gsl_matrix D :=
  foldl (fun M kidxi =>
           foldl (fun M kidxj => matrix_set M kidxj kidxi (entry M kidxi kidxj))
                 M (seq (S kidxi) (nParameters - S kidxi)))
        M (seq 0 nParameters).

(** The locators at [(startCol, startRow)] and the scan they drive. *)
Definition normal_equations (imageToConvolve imageToNotConvolve varianceImage : MaskedImage D)
    (convolvedImageList : list (MaskedImage D)) (w : Window)
  : gsl_matrix D * gsl_vector D :=
  let nParameters := S (length convolvedImageList) in
  let x := to_int (startCol w) in
  let y := to_int (startRow w) in
  let l := mkLocators (xy_at imageToConvolve x y) (xy_at imageToNotConvolve x y)
                      (xy_at varianceImage x y)
                      ((fun citer => xy_at citer x y) <$> convolvedImageList) in
  let MB := scan nParameters w l in
  (mirror nParameters MB.1, MB.2).

(** ** The solve *)

(** [gsl_vector_scale(&column.vector, alpha)] on column [j]. *)
Definition scale_column (m : gsl_matrix D) (j : nat) (alpha : D) : gsl_matrix D :=
  alter (fun x => fmul x alpha) j <$> m.

(** The loop over the singular values: small ones are zeroed, the others
    inverted, and the columns of [QSI] scaled. *)
Definition scale_by_singular_values (p : nat) (Sv : gsl_vector D) (QSI : gsl_matrix D)
  : gsl_matrix D * nat :=
  let alpha0 := default (of_Z 0) (Sv !! 0%nat) in
  foldl (fun (st : gsl_matrix D * nat) j =>
           let alpha := default (of_Z 0) (Sv !! j) in
           if fleb alpha (fmul GSL_DBL_EPSILON alpha0)
           then (scale_column st.1 j (of_Z 0), st.2)
           else (scale_column st.1 j (fdiv (of_Z 1) alpha), S st.2))
        (QSI, 0%nat) (seq 0 p).

(** GSL routines write their result into a vector the caller allocated:
    the vector keeps its size, and the entries the result does not reach
    keep their content. *)
Definition written_into (v result : gsl_vector D) : gsl_vector D :=
  take (length v) (result ++ drop (length result) v).

(** [gsl_vector_div(X, D)] *)
Definition gsl_vector_div (X Dv : gsl_vector D) : gsl_vector D :=
  written_into X (zip_with fdiv X Dv).

(** From [gsl_matrix_memcpy (A, M)] to [gsl_vector_div (X, D)]: the
    solution [X].  Nothing here writes [Cov]. *)
Definition solve (nParameters : nat) (M : gsl_matrix D) (B : gsl_vector D) : gsl_vector D :=
  let A := M in
  let '(A, Dv) := gsl_linalg_balance_columns A in
  let '(A, Q, Sv, xt) := gsl_linalg_SV_decomp_mod A in
  let xt := gsl_blas_dgemv true (of_Z 1) A B (of_Z 0) xt in
  let QSI := Q in
  let '(QSI, rank) := scale_by_singular_values nParameters Sv QSI in
  let X := gsl_vector_zero nParameters in
  let X := written_into X (gsl_blas_dgemv false (of_Z 1) QSI xt (of_Z 0) X) in
  gsl_vector_div X Dv.

(** ** Translation into kernels *)

Definition nan_solution : Exception D :=
  LSST_EXCEPT pex_Exception "Unable to determine kernel solution (nan)" None.

Definition nan_uncertainty : Exception D :=
  LSST_EXCEPT pex_Exception "Unable to determine kernel uncertainty (nan)" None.

Definition negative_variance (c : D) : Exception D :=
  LSST_EXCEPT pex_Exception
    "Unable to determine kernel uncertainty, negative variance (%.3e)" (Some c).

(** [v[idx] = a] on a [std::vector]. *)
Definition store (v : list D) (idx : Z) (a : D) : outcome D (list D) :=
  if (0 <=? idx) && (idx <? Z.of_nat (length v))
  then Done (<[Z.to_nat idx := a]> v)
  else Fault.

(** The body of the double loop at index [idx]. *)
Definition translate_entry (X : gsl_vector D) (Cov : gsl_matrix D) (idx : Z)
    (kv : list D * list D) : outcome D (list D * list D) :=
  bind (checked (gsl_vector_get X idx)) (fun x =>
  if fisnan x then Throw nan_solution else
  bind (checked (gsl_matrix_get Cov idx idx)) (fun c =>
  if fisnan c then Throw nan_uncertainty else
  if fltb c (of_Z 0) then Throw (negative_variance c) else
  bind (store kv.1 idx x) (fun kValues =>
  bind (store kv.2 idx (fsqrt c)) (fun kErrValues =>
  Done (kValues, kErrValues))))).

(** [for (col = 0; col < kCols; col++, idx++)] *)
Fixpoint translate_cols (cols : nat) (X : gsl_vector D) (Cov : gsl_matrix D)
    (st : Z * (list D * list D)) : outcome D (Z * (list D * list D)) :=
  match cols with
  | O => Done st
  | S cols' =>
      bind (translate_entry X Cov st.1 st.2) (fun kv =>
      translate_cols cols' X Cov (to_unsigned (st.1 + 1), kv))
  end.

(** [for (row = 0, idx = 0; row < kRows; row++)] *)
Fixpoint translate_rows (rows cols : nat) (X : gsl_vector D) (Cov : gsl_matrix D)
    (st : Z * (list D * list D)) : outcome D (Z * (list D * list D)) :=
  match rows with
  | O => Done st
  | S rows' =>
      bind (translate_cols cols X Cov st) (fun st' =>
      translate_rows rows' cols X Cov st')
  end.

(** "Translate from GSL vectors into LSST classes", to the end. *)
Definition translate (policy : Policy D) (kernelInBasisList : list K) (nParameters : Z)
    (X : gsl_vector D) (Cov : gsl_matrix D) : outcome D (FitResult K D) :=
  let kCols := to_unsigned (kernelCols policy) in
  let kRows := to_unsigned (kernelRows policy) in
  let size := Z.to_nat (to_unsigned (kCols * kRows)) in
  let kValues := replicate size (of_Z 0) in
  let kErrValues := replicate size (of_Z 0) in
  bind (translate_rows (Z.to_nat kRows) (Z.to_nat kCols) X Cov (0, (kValues, kErrValues)))
    (fun st =>
  let kernelPtr := mkLinearCombinationKernel kernelInBasisList st.2.1 in
  let kernelErrorPtr := mkLinearCombinationKernel kernelInBasisList st.2.2 in
  bind (checked (gsl_matrix_get Cov (nParameters - 1) (nParameters - 1))) (fun c =>
  if fisnan c then Throw nan_uncertainty else
  if fltb c (of_Z 0) then Throw (negative_variance c) else
  bind (checked (gsl_vector_get X (nParameters - 1))) (fun x =>
  Done (mkFitResult kernelPtr kernelErrorPtr x (fsqrt c))))).

(** ** The solver

    [Cov] is the block [gsl_matrix_alloc (nParameters, nParameters)]
    returned: the allocation does not initialise it. *)
Definition computePsfMatchingKernelForFootprint
    (imageToConvolve imageToNotConvolve varianceImage : MaskedImage D)
    (kernelInBasisList : list K) (policy : Policy D) (Cov : gsl_matrix D)
  : outcome D (FitResult K D) :=
  let edgeMaskBit := getMaskPlane imageToConvolve "EDGE" in
  let nKernelParameters := length kernelInBasisList in
  let nParameters := S nKernelParameters in
  let convolvedImageList :=
    (fun kiter => convolved imageToConvolve kiter edgeMaskBit) <$> kernelInBasisList in
  match kernelInBasisList, convolvedImageList with
  | kiter :: _, citer :: _ =>
      let w := accumulation_window kiter citer in
      let MB := normal_equations imageToConvolve imageToNotConvolve varianceImage
                                 convolvedImageList w in
      let X := solve nParameters MB.1 MB.2 in
      translate policy kernelInBasisList (Z.of_nat nParameters) X Cov
  | _, _ => Fault
  end.

End KernelSolver.

(* ===================================================================== *)
(** * The properties, as definitions *)
(* ===================================================================== *)

(** ** Kernel basis *)

(** What the specification says of [generateDeltaFunctionKernelSet] on
    positive dimensions: [width*height] kernels, the one at index
    [row*width+col] with its unit weight and its anchor at [(col,row)],
    every position taken once. *)
Definition returns_delta_basis (D : Type) (width height : Z) : Prop :=
  exists kernelBasisList : list DeltaFunctionKernel,
    generateDeltaFunctionKernelSet (D := D) width height = Done kernelBasisList
    /\ Z.of_nat (length kernelBasisList) = width * height
    /\ (forall col row, 0 <= col < width -> 0 <= row < height ->
          exists k, kernelBasisList !! Z.to_nat (row * width + col) = Some k
            /\ dfk_width k = width /\ dfk_height k = height
            /\ (forall x y, dfk_weight k x y = if (x =? col) && (y =? row) then 1 else 0)
            /\ dfk_anchor k = mkPointI col row)
    /\ NoDup (dfk_anchor <$> kernelBasisList)
    /\ (forall k, k ∈ kernelBasisList ->
          0 <= getX (dfk_anchor k) < width /\ 0 <= getY (dfk_anchor k) < height).

(** ** Difference operator *)

(** Exact arithmetic negates a difference by swapping its operands.  (In
    IEEE arithmetic the two sides agree as numbers; they differ in the
    sign of a zero result.) *)
Definition exact_negation (D : Type) `{Scalar D} : Prop :=
  forall a b : D, fmul (fsub a b) (of_Z (-1)) = fsub b a.

(** A pixel whose intensity received [v]. *)
Definition with_added {D} `{Scalar D} (p : Pixel D) (v : D) : Pixel D :=
  mkPixel (fadd (image p) v) (variance p) (mask p).

(** ** Kernel solver: the translation *)

(** What the checks of the double loop make of one index. *)
Inductive verdict (D : Type) : Type :=
| Pass (x c : D)
| Reject (e : Exception D)
| OutOfRange.
Arguments Pass {D} _ _.
Arguments Reject {D} _.
Arguments OutOfRange {D}.

Section TranslateSpecification.
  Context {D : Type} `{Scalar D} `{Floating D}.

(** A matrix with [n] rows of [n] entries. *)
Definition square (n : nat) (m : gsl_matrix D) : Prop :=
  length m = n /\ Forall (fun row => length row = n) m.

Definition inspect (X : gsl_vector D) (Cov : gsl_matrix D) (idx : Z) : verdict D :=
  match gsl_vector_get X idx with
  | None => OutOfRange
  | Some x =>
      if fisnan x then Reject nan_solution
      else match gsl_matrix_get Cov idx idx with
           | None => OutOfRange
           | Some c =>
               if fisnan c then Reject nan_uncertainty
               else if fltb c (of_Z 0) then Reject (negative_variance c)
               else Pass x c
           end
  end.

(** Every index from [idx] up to [i] passes the checks. *)
Definition passes_from (X : gsl_vector D) (Cov : gsl_matrix D) (idx i : Z) : Prop :=
  forall j, idx <= j < i -> exists x c, inspect X Cov j = Pass x c.

(** The error raised for a covariance entry [c] that fails its checks. *)
Definition uncertainty_error (c : D) : Exception D :=
  if fisnan c then nan_uncertainty else negative_variance c.

(** The number of turns of the double loop. *)
Definition coefficient_count (policy : Policy D) : Z :=
  to_unsigned (kernelCols policy) * to_unsigned (kernelRows policy).

(** The parameters whose covariance entry is checked, in the order of the
    checks (the kernel entries, then the background), and the first of
    them whose entry is not-a-number or negative. *)
Definition rejected (Cov : gsl_matrix D) (idx : Z) : bool :=
  match gsl_matrix_get Cov idx idx with
  | Some c => fisnan c || fltb c (of_Z 0)
  | None => false
  end.

Definition failing_parameter (policy : Policy D) (nParameters : Z) (Cov : gsl_matrix D)
  : option Z :=
  snd <$> list_find (fun idx => rejected Cov idx = true)
                    (seqZ 0 (coefficient_count policy) ++ [nParameters - 1]).

End TranslateSpecification.

Section SolverSpecification.
  Context {D K : Type} `{Scalar D} `{Floating D} `{KernelLike K} `{Afw D K} `{Gsl D}.

(** The solution the solver hands to the translation. *)
Definition solution_of (imageToConvolve imageToNotConvolve varianceImage : MaskedImage D)
    (kernelInBasisList : list K) : gsl_vector D :=
  let edgeMaskBit := getMaskPlane imageToConvolve "EDGE" in
  let convolvedImageList :=
    (fun kiter => convolved imageToConvolve kiter edgeMaskBit) <$> kernelInBasisList in
  match kernelInBasisList, convolvedImageList with
  | kiter :: _, citer :: _ =>
      let MB := normal_equations imageToConvolve imageToNotConvolve varianceImage
                                 convolvedImageList (accumulation_window kiter citer) in
      solve (S (length kernelInBasisList)) MB.1 MB.2
  | _, _ => []
  end.

End SolverSpecification.

(** ** Kernel solver: the accumulation window and the pixel scan *)

Section WindowSpecification.
  Context {D K : Type} `{KernelLike K}.

(** The window the specification describes: on each axis the first index
    is the anchor and the last is [size - 1 - (extent - anchor)]. *)
Definition window_as_specified (k : K) (img : MaskedImage D) (w : Window) : Prop :=
  startCol w = getCtrX k /\ startRow w = getCtrY k
  /\ endCol w - 1 = getWidth img - 1 - (kernelWidth k - getCtrX k)
  /\ endRow w - 1 = getHeight img - 1 - (kernelHeight k - getCtrY k).

(** The window of the code: the last index is [size - (extent - anchor)],
    which leaves [extent - anchor - 1] pixels out on the high side. *)
Definition window_as_computed (k : K) (img : MaskedImage D) (w : Window) : Prop :=
  startCol w = getCtrX k /\ startRow w = getCtrY k
  /\ endCol w - 1 = getWidth img - (kernelWidth k - getCtrX k)
  /\ endRow w - 1 = getHeight img - (kernelHeight k - getCtrY k).

(** The stencil of [k] anchored at [(col,row)] lies inside the image: the
    convolution with [k] is defined there. *)
Definition stencil_fits (k : K) (img : MaskedImage D) (col row : Z) : Prop :=
  0 <= col - getCtrX k /\ col - getCtrX k + kernelWidth k <= getWidth img
  /\ 0 <= row - getCtrY k /\ row - getCtrY k + kernelHeight k <= getHeight img.

(** [k'] has the extent and the anchor of [k]. *)
Definition same_shape (k k' : K) : Prop :=
  kernelWidth k' = kernelWidth k /\ kernelHeight k' = kernelHeight k
  /\ getCtrX k' = getCtrX k /\ getCtrY k' = getCtrY k.

End WindowSpecification.

Section ScanSpecification.
  Context {D : Type} `{Scalar D}.

(** The pixels of the window, row by row. *)
Definition window_pixels (w : Window) : list (Z * Z) :=
  row ← seqZ (startRow w) (endRow w - startRow w);
  col ← seqZ (startCol w) (endCol w - startCol w);
  [(col, row)].

(** Where the locators stand at each turn of the loops: they start at
    [(startCol, startRow)], go one column right at every turn of the
    column loop and one row down at every turn of the row loop. *)
Definition visited_pixels (w : Window) : list (Z * Z) :=
  row ← seqZ 0 (endRow w - startRow w);
  col ← seqZ 0 (endCol w - startCol w);
  [(to_int (startCol w) + row * (endCol w - startCol w) + col, to_int (startRow w) + row)].

(** A sum over pixels, in their order. *)
Definition sum_over (positions : list (Z * Z)) (term : Z -> Z -> D) : D :=
  foldl (fun acc (p : Z * Z) => fadd acc (term p.1 p.2)) (of_Z 0) positions.

Definition vector_entry (v : gsl_vector D) (i : nat) : D := default (of_Z 0) (v !! i).

(** What one pixel adds to [M[a][b]] ([a <= b]) and to [B[a]]: with [T]
    the intensity of [imageToNotConvolve], [w] the inverse variance of
    [varianceImage] and [C i] the intensity of the [i]-th convolved image,
    [C a * C b * w] for two kernel indices, [C a * w] for a kernel index
    and the background, [1 * w] for the background alone; [T * C a * w]
    and [T * w]. *)
Definition matrix_term (varianceImage : MaskedImage D)
    (convolvedImageList : list (MaskedImage D)) (x y : Z) (a b : nat) : D :=
  let n := length convolvedImageList in
  let wgt := fdiv (of_Z 1) (variance (pixel_at varianceImage x y)) in
  let C (i : nat) :=
    match convolvedImageList !! i with
    | Some citer => image (pixel_at citer x y)
    | None => of_Z 0
    end in
  if (b <? n)%nat then fmul (fmul (C a) (C b)) wgt
  else if (a <? n)%nat then fmul (C a) wgt
  else fmul (of_Z 1) wgt.

Definition vector_term (imageToNotConvolve varianceImage : MaskedImage D)
    (convolvedImageList : list (MaskedImage D)) (x y : Z) (a : nat) : D :=
  let n := length convolvedImageList in
  let T := image (pixel_at imageToNotConvolve x y) in
  let wgt := fdiv (of_Z 1) (variance (pixel_at varianceImage x y)) in
  let C (i : nat) :=
    match convolvedImageList !! i with
    | Some citer => image (pixel_at citer x y)
    | None => of_Z 0
    end in
  if (a <? n)%nat then fmul (fmul T (C a)) wgt else fmul T wgt.

(** The symmetric normal equations whose entries are sums over the given
    pixels. *)
Definition equations_over (positions : list (Z * Z))
    (imageToNotConvolve varianceImage : MaskedImage D)
    (convolvedImageList : list (MaskedImage D)) : gsl_matrix D * gsl_vector D :=
  let nParameters := S (length convolvedImageList) in
  ((fun i : nat =>
      (fun j : nat =>
         sum_over positions
           (fun x y => matrix_term varianceImage convolvedImageList x y
                                   (i `min` j)%nat (i `max` j)%nat))
        <$> seq 0 nParameters)
     <$> seq 0 nParameters,
   (fun i : nat =>
      sum_over positions
        (fun x y => vector_term imageToNotConvolve varianceImage convolvedImageList x y i))
     <$> seq 0 nParameters).

(** The normal equations the specification describes: the sums range over
    the window. *)
Definition specified_normal_equations (imageToNotConvolve varianceImage : MaskedImage D)
    (convolvedImageList : list (MaskedImage D)) (w : Window)
  : gsl_matrix D * gsl_vector D :=
  equations_over (window_pixels w) imageToNotConvolve varianceImage convolvedImageList.

(** The intensity under the [a]-th locator of a list. *)
Definition convolved_value (kiter : list (xy_locator D)) (a : nat) : D :=
  match kiter !! a with
  | Some loc => image (deref loc)
  | None => of_Z 0
  end.

(** The locators of the scan, all at [(x,y)]. *)
Definition locators_at (imageToConvolve imageToNotConvolve varianceImage : MaskedImage D)
    (convolvedImageList : list (MaskedImage D)) (x y : Z) : Locators :=
  mkLocators (xy_at imageToConvolve x y) (xy_at imageToNotConvolve x y)
             (xy_at varianceImage x y)
             ((fun citer => xy_at citer x y) <$> convolvedImageList).

(** A turn of the column loop with every locator at the given pixel. *)
Definition visit (imageToConvolve imageToNotConvolve varianceImage : MaskedImage D)
    (convolvedImageList : list (MaskedImage D)) (nParameters : nat)
    (MB : gsl_matrix D * gsl_vector D) (p : Z * Z) : gsl_matrix D * gsl_vector D :=
  accumulate_pixel nParameters
    (locators_at imageToConvolve imageToNotConvolve varianceImage convolvedImageList p.1 p.2)
    MB.

End ScanSpecification.

(* ===================================================================== *)
(** * Tactics *)
(* ===================================================================== *)

(** Case analysis on every integer comparison of the goal. *)
Ltac case_compare :=
  repeat match goal with
    | |- context [?a =? ?b] => destruct (Z.eqb_spec a b)
    | |- context [?a <? ?b] => destruct (Z.ltb_spec a b)
    | |- context [?a <=? ?b] => destruct (Z.leb_spec a b)
    end;
  simpl; try lia; try done.

(** Evaluate the integers under [IZR]. *)
Ltac eval_IZR :=
  repeat match goal with
    | |- context [IZR ?z] =>
        let z' := eval vm_compute in z in
        progress change (IZR z) with (IZR z')
    end.

(* ===================================================================== *)
(** * Instances used to run the model *)
(* ===================================================================== *)

(** ** IEEE binary64 *)

Definition float_of_Z (z : Z) : float :=
  match z with
  | Z0 => PrimFloat.zero
  | Zpos _ => PrimFloat.of_uint63 (Uint63.of_Z z)
  | Zneg p => PrimFloat.opp (PrimFloat.of_uint63 (Uint63.of_Z (Zpos p)))
  end.

#[global] Instance binary64_Scalar : Scalar float := {|
  of_Z := float_of_Z;
  fadd := PrimFloat.add;
  fsub := PrimFloat.sub;
  fmul := PrimFloat.mul;
  fdiv := PrimFloat.div;
|}.

#[global] Instance binary64_Floating : Floating float := {|
  fsqrt := PrimFloat.sqrt;
  quiet_NaN := PrimFloat.nan;
  fisnan := PrimFloat.is_nan;
  fltb := PrimFloat.ltb;
  fleb := PrimFloat.leb;
|}.

(** ** Exact arithmetic: the real numbers *)

#[global] Instance real_Scalar : Scalar R := {|
  of_Z := IZR;
  fadd := Rplus;
  fsub := Rminus;
  fmul := Rmult;
  fdiv := Rdiv;
|}.

(** ** A kernel with one unit pixel and an explicit centre *)

Record Stencil := mkStencil {
  st_width : Z;
  st_height : Z;
  st_ctr : PointI;
  st_pixel : PointI;
}.

#[global] Instance Stencil_KernelLike : KernelLike Stencil := {|
  kernelWidth := st_width;
  kernelHeight := st_height;
  getCtrX := fun k => getX (st_ctr k);
  getCtrY := fun k => getY (st_ctr k);
|}.

(** Convolution with a [Stencil] moves the image by the offset of the
    unit pixel from the centre. *)
Definition shift {D} (img : MaskedImage D) (k : Stencil) (x y : Z) : Pixel D :=
  pixel_at img (x - getX (st_ctr k) + getX (st_pixel k))
               (y - getY (st_ctr k) + getY (st_pixel k)).

Section StencilConvolution.
  Context {D : Type} `{Scalar D}.

(** Convolution with a linear combination: the weighted sum of the
    shifted images. *)
Definition shift_linear (img : MaskedImage D) (k : LinearCombinationKernel Stencil D)
    (x y : Z) : Pixel D :=
  foldl (fun (p : Pixel D) (kc : Stencil * D) =>
           let q := shift img kc.1 x y in
           mkPixel (fadd (image p) (fmul kc.2 (image q)))
                   (fadd (variance p) (fmul (fmul kc.2 kc.2) (variance q)))
                   (Z.lor (mask p) (mask q)))
        (mkPixel (of_Z 0) (of_Z 0) 0)
        (zip (getKernelList k) (getKernelParameters k)).

#[global] Instance Stencil_Afw : Afw D Stencil := {|
  getMaskPlane := fun _ name =>
    if String.eqb name "EDGE" then 4 else if String.eqb name "BAD" then 0 else -1;
  convolve := fun img k _ _ => shift img k;
  convolveLinear := fun img k _ => shift_linear img k;
  positionToIndex := of_Z;
|}.

End StencilConvolution.

(** ** Linear algebra for diagonal systems

    Enough of GSL to run the solver on normal equations whose matrix is
    diagonal: no balancing ([D] all ones), and the singular value
    decomposition of a diagonal matrix with non-negative entries (U and Q
    the identity, S the diagonal). *)

Definition identity_matrix (n : nat) : list (list float) :=
  (fun i => (fun j => if Nat.eqb i j then 1%float else 0%float) <$> seq 0 n) <$> seq 0 n.

Definition diagonal (m : list (list float)) : list float :=
  imap (fun i row => default 0%float (row !! i)) m.

Definition dot (u v : list float) : float :=
  foldl PrimFloat.add 0%float (zip_with PrimFloat.mul u v).

Definition transpose (n : nat) (m : list (list float)) : list (list float) :=
  (fun j => (fun row => default 0%float (row !! j)) <$> m) <$> seq 0 n.

Definition dgemv (trans : bool) (alpha : float) (A : list (list float)) (x : list float)
    (beta : float) (y : list float) : list float :=
  let A := if trans then transpose (length y) A else A in
  zip_with (fun row yi => PrimFloat.add (PrimFloat.mul alpha (dot row x))
                                        (PrimFloat.mul beta yi)) A y.

#[global] Instance diagonal_Gsl : Gsl float := {|
  GSL_DBL_EPSILON := 0x1p-52%float;
  gsl_linalg_balance_columns := fun A => (A, replicate (length A) 1%float);
  gsl_linalg_SV_decomp_mod := fun A =>
    (identity_matrix (length A), identity_matrix (length A), diagonal A,
     replicate (length A) 0%float);
  gsl_blas_dgemv := dgemv;
|}.

(** ** A detector over listed sources *)

(** A footprint: its pixel count, its bounding box and the mask bits set
    under it (in either image). *)
Record Source := mkSource {
  src_npix : Z;
  src_bbox : BBox;
  src_bits : Z;
  src_peak : Z;
}.

Section ListedSources.
  Context {D : Type} `{Scalar D} `{Floating D}.
  Variable sources : list Source.

Definition grow_bbox (b : BBox) (n : Z) : BBox :=
  mkBBox (mkPointI (getX (llc b) - n) (getY (llc b) - n))
         (mkPointI (getX (urc b) + n) (getY (urc b) + n)).

Definition inside (img : MaskedImage D) (b : BBox) : bool :=
  (0 <=? getX (llc b)) && (0 <=? getY (llc b))
  && (getX (urc b) <? getWidth img) && (getY (urc b) <? getHeight img).

Definition listed_Detection : Detection D Source := {|
  getFootprints := fun _ threshold =>
    filter (fun s => fltb threshold (of_Z (src_peak s)) = true) sources;
  getNpix := src_npix;
  growFootprint := fun s n =>
    mkSource (src_npix s) (grow_bbox (src_bbox s) n) (src_bits s) (src_peak s);
  getBBox := src_bbox;
  findSetBits := fun _ s => src_bits s;
  subImage := fun img b =>
    if inside img b
    then inr (mkMaskedImage (getX (urc b) - getX (llc b) + 1)
                            (getY (urc b) - getY (llc b) + 1)
                            (fun x y => pixel_at img (x + getX (llc b)) (y + getY (llc b))))
    else inl (LSST_EXCEPT pex_Exception "BBox not contained in image" None);
|}.

End ListedSources.

(* ===================================================================== *)
(** * Inputs used in the examples *)
(* ===================================================================== *)

(** A pixel of unit variance. *)
Definition px (v : float) (m : Z) : Pixel float := mkPixel v 1%float m.

(** One row of three unmasked pixels with intensities 0, 0, 3. *)
Definition three_pixels : MaskedImage float :=
  image_of_rows (px 0 0) 3 1 [[px 0 0; px 0 0; px 3 0]].

(** One row of two pixels, the second with mask bit 0 set. *)
Definition one_flagged : MaskedImage float :=
  image_of_rows (px 0 0) 2 1 [[px 1 0; px 5 1]].

(** A 2 by 2 image over the reals with intensity [10*y + x + offset]. *)
Definition ramp (offset : R) : MaskedImage R :=
  mkMaskedImage 2 2 (fun x y => mkPixel (IZR (10 * y + x) + offset)%R 1%R 0).

(** The 1 by 1 kernel: one unit pixel at its centre. *)
Definition unit_stencil : Stencil := mkStencil 1 1 (mkPointI 0 0) (mkPointI 0 0).

(** Three sources on a 20 by 20 image: a bright one in the middle, a
    bright one in the corner (its grown box leaves the image), and a
    faint one. *)
Definition field : MaskedImage float :=
  mkMaskedImage 20 20 (fun _ _ => px 0 0).

Definition sky : list Source :=
  [ mkSource 9 (mkBBox (mkPointI 8 8) (mkPointI 10 10)) 0 100;
    mkSource 9 (mkBBox (mkPointI 0 0) (mkPointI 2 2)) 0 100;
    mkSource 9 (mkBBox (mkPointI 14 4) (mkPointI 16 6)) 0 5 ].

(** At least 5 pixels, grown by 1, three clean footprints wanted, the
    threshold going 8, 4, 2 with the floor at 3. *)
Definition search_policy : Policy float :=
  mkPolicy 5 1 3 8%float 0.5%float 3%float 1 1.

(** A template and a science image of one row of two pixels, the second
    being the first plus 2 (so the fit is: coefficient 1, background 2),
    with a unit variance map. *)
Definition pair_template : MaskedImage float :=
  image_of_rows (px 0 0) 2 1 [[px 1 0; px (-1) 0]].

Definition pair_science : MaskedImage float :=
  image_of_rows (px 0 0) 2 1 [[px 3 0; px 1 0]].

Definition pair_variance : MaskedImage float :=
  image_of_rows (px 0 0) 2 1 [[px 0 0; px 0 0]].

(** A policy asking for a 1 by 1 kernel. *)
Definition unit_policy : Policy float :=
  mkPolicy 5 1 3 8%float 0.5%float 3%float 1 1.

(** Two contents of the block allocated for [Cov]. *)
Definition block_a : list (list float) := [[4; 7]; [7; 9]]%float.
Definition block_b : list (list float) := [[16; 0]; [0; 25]]%float.

(** A solution for one kernel and a background. *)
Definition solution : list float := [1; 2]%float.

(** A solution and a covariance block for two kernels and a background. *)
Definition solution3 : list float := [1; 2; 3]%float.
Definition block3 : list (list float) := [[1; 0; 0]; [0; 4; 0]; [0; 0; 9]]%float.

(** A 5 by 5 kernel with its unit pixel at its centre (2,2). *)
Definition five_stencil : Stencil := mkStencil 5 5 (mkPointI 2 2) (mkPointI 2 2).

(** A 100 by 100 image. *)
Definition wide : MaskedImage float := mkMaskedImage 100 100 (fun _ _ => px 0 0).

(** 6 by 6 images: a template of ones (also used as the variance map) and
    a science image of intensity [10*y + x]. *)
Definition ones6 : MaskedImage float := mkMaskedImage 6 6 (fun _ _ => px 1 0).

Definition ramp6 : MaskedImage float :=
  mkMaskedImage 6 6 (fun x y => px (float_of_Z (10 * y + x)) 0).

(** Two 3 by 1 kernels centred at (1,0), with the unit pixel left and
    right of the centre, and a template of one row on which the two
    convolved images and the constant are orthogonal over the window
    (columns 1..4): the normal matrix is diagonal.  The science image is
    2 * (first convolved image) + 3 * (second convolved image) + 1 there. *)
Definition left_stencil : Stencil := mkStencil 3 1 (mkPointI 1 0) (mkPointI 0 0).
Definition right_stencil : Stencil := mkStencil 3 1 (mkPointI 1 0) (mkPointI 2 0).

Definition six_template : MaskedImage float :=
  image_of_rows (px 0 0) 6 1 [[px 1 0; px (-1) 0; px 1 0; px (-1) 0; px (-1) 0; px 1 0]].

Definition six_science : MaskedImage float :=
  image_of_rows (px 0 0) 6 1 [[px 0 0; px 6 0; px (-4) 0; px 0 0; px 2 0; px 0 0]].

Definition six_variance : MaskedImage float :=
  image_of_rows (px 0 0) 6 1 [[px 0 0; px 0 0; px 0 0; px 0 0; px 0 0; px 0 0]].

(** A policy asking for a 2 by 1 kernel. *)
Definition two_policy : Policy float :=
  mkPolicy 5 1 3 8%float 0.5%float 3%float 2 1.

(** Blocks whose diagonal entry of kernel parameter 0, or 1, is
    not-a-number, or negative. *)
Definition nan_kernel0 : list (list float) :=
  [[PrimFloat.nan; 0; 0]; [0; 1; 0]; [0; 0; 1]]%float.
Definition nan_kernel1 : list (list float) :=
  [[1; 0; 0]; [0; PrimFloat.nan; 0]; [0; 0; 1]]%float.
Definition negative_kernel0 : list (list float) :=
  [[-1; 0; 0]; [0; 1; 0]; [0; 0; 1]]%float.
Definition negative_kernel1 : list (list float) :=
  [[1; 0; 0]; [0; -1; 0]; [0; 0; 1]]%float.

(* ===================================================================== *)
(** * Kernel basis: generateAlardLuptonKernelSet *)
(* ===================================================================== *)

Section AlardLupton.
  Context {D K : Type}.

(** The second [throw] is not guarded: the two statements after it are
    never reached. *)
Definition generateAlardLuptonKernelSet (nRows nCols : Z) (sigGauss degGauss : list D)
  : outcome D (list K) :=
  if (nCols <? 1) || (nRows <? 1)
  then Throw (LSST_EXCEPT pex_Exception "nRows and nCols must be positive" None)
  else
    bind (Throw (LSST_EXCEPT pex_Exception "Not implemented" None)) (fun _ : unit =>
    let kernelBasisList := [] in
    Done kernelBasisList).

End AlardLupton.

(* ===================================================================== *)
(** * Statistics engine: DifferenceImageStatistics *)
(* ===================================================================== *)

(** [fabs] of [<cmath>]. *)
Class Magnitude (D : Type) := {
  fabs : D -> D;
}.

#[global] Instance binary64_Magnitude : Magnitude float := {|
  fabs := PrimFloat.abs;
|}.

(** The entries of the [Policy] that [evaluateQuality] reads. *)
Record QualityPolicy (D : Type) := mkQualityPolicy {
  maximumFootprintResidualMean : D;
  maximumFootprintResidualStd : D;
}.
Arguments mkQualityPolicy {D} _ _.
Arguments maximumFootprintResidualMean {D} _.
Arguments maximumFootprintResidualStd {D} _.

(** The two members of the class. *)
Record DifferenceImageStatistics (D : Type) := mkDifferenceImageStatistics {
  _residualMean : D;
  _residualStd : D;
}.
Arguments mkDifferenceImageStatistics {D} _ _.
Arguments _residualMean {D} _.
Arguments _residualStd {D} _.

Section QualityStatistics.
  Context {D : Type} `{Scalar D} `{Floating D} `{Magnitude D}.

(** Modelled from the spec: the accessors [getResidualMean] and
    [getResidualStd] (declared with the class, in ImageSubtract.h) give
    the mean and the standard deviation the statistics hold. *)
Definition getResidualMean (this : DifferenceImageStatistics D) : D := _residualMean this.
Definition getResidualStd (this : DifferenceImageStatistics D) : D := _residualStd this.

(** [DifferenceImageStatistics()] *)
Definition DifferenceImageStatistics_default : DifferenceImageStatistics D :=
  mkDifferenceImageStatistics (of_Z 0) (of_Z 0).

(** [DifferenceImageStatistics(differenceMaskedImage)]: the overload of
    [calculateMaskedImageStatistics] without a mask is the one called. *)
Definition DifferenceImageStatistics_of (differenceMaskedImage : MaskedImage D)
  : DifferenceImageStatistics D :=
  let s := calculateMaskedImageStatistics differenceMaskedImage in
  let mean := residualMean s in
  let variance := residualVariance s in
  mkDifferenceImageStatistics mean (fsqrt variance).

(** [a > b] is [b < a]. *)
Definition evaluateQuality (this : DifferenceImageStatistics D) (policy : QualityPolicy D)
  : bool :=
  let maxResidualMean := maximumFootprintResidualMean policy in
  let maxResidualStd := maximumFootprintResidualStd policy in
  if fltb maxResidualMean (fabs (getResidualMean this)) then false
  else if fltb maxResidualStd (fabs (getResidualStd this)) then false
  else true.

End QualityStatistics.

(* ===================================================================== *)
(** * Further properties, as definitions *)
(* ===================================================================== *)

(** Two doubles that are the same number: equal as [==] has it (which
    does not tell the two zeros apart), or both not-a-number. *)
Definition same_number (x y : float) : Prop :=
  PrimFloat.eqb x y = true \/ (PrimFloat.is_nan x = true /\ PrimFloat.is_nan y = true).

(** The double -1, and two values of the specification of the doubles
    that are the same number. *)
Definition minus_one_SF : spec_float := S754_finite true 4503599627370496 (-52).

Definition same_spec (a b : spec_float) : Prop :=
  SFeqb a b = true \/ (a = S754_nan /\ b = S754_nan).

Section StatisticsSpecification.
  Context {D : Type} `{Scalar D} `{Floating D}.

(** The statistics of a list of pixels as the code computes them: the two
    sums in the order of the list, their count, and the variance scaled
    by the integer quotient [count / (count - 1)], which is 2 for two
    pixels and 1 for more. *)
Definition statistics_over (sel : list (Pixel D)) : Statistics :=
  let n := Z.of_nat (length sel) in
  let xSum :=
    foldl (fun acc (p : Pixel D) => fadd acc (fdiv (image p) (fsqrt (variance p))))
          (of_Z 0) sel in
  let x2Sum :=
    foldl (fun acc (p : Pixel D) => fadd acc (fdiv (fmul (image p) (image p)) (variance p)))
          (of_Z 0) sel in
  let mean := fdiv xSum (of_Z n) in
  mkStatistics n
    (if 0 <? n then mean else quiet_NaN)
    (if 1 <? n
     then fmul (fsub (fdiv x2Sum (of_Z n)) (fmul mean mean)) (of_Z (if n =? 2 then 2 else 1))
     else quiet_NaN).

End StatisticsSpecification.

Section SelectorSpecification.
  Context {D Footprint : Type} `{Scalar D} `{Floating D} `{Detection D Footprint}.
  Variables (imageToConvolve imageToNotConvolve : MaskedImage D) (policy : Policy D).

(** [f] is the grown version of the detection [i], and [i] went through
    every test of the pass. *)
Definition grown_from_clean (f i : Footprint) : Prop :=
  f = growFootprint i (to_unsigned (footprintDiffimGrow policy))
  /\ to_unsigned (footprintDiffimNpixMin policy) <= to_unsigned (getNpix i)
  /\ findSetBits imageToConvolve f <= 0
  /\ findSetBits imageToNotConvolve f <= 0
  /\ (exists a, subImage imageToConvolve (getBBox f) = inr a)
  /\ (exists b, subImage imageToNotConvolve (getBBox f) = inr b).

End SelectorSpecification.

Section ScanAgreement.
  Context {D : Type}.

(** Two images with the same intensities, and two with the same variances. *)
Definition same_intensity (a b : MaskedImage D) : Prop :=
  forall x y, image (pixel_at a x y) = image (pixel_at b x y).

Definition same_variance (a b : MaskedImage D) : Prop :=
  forall x y, variance (pixel_at a x y) = variance (pixel_at b x y).

End ScanAgreement.

(* ===================================================================== *)
(** * Further inputs *)
(* ===================================================================== *)

(** One row of two pixels, both flagged. *)
Definition all_flagged : MaskedImage float :=
  image_of_rows (px 0 0) 2 1 [[px 7 1; px 5 2]].

(** Thresholds of the quality test. *)
Definition quality_policy : QualityPolicy float := mkQualityPolicy 1%float 2%float.

(** [search_policy] with a scaling of 1: the threshold stays at 8. *)
Definition still_policy : Policy float :=
  mkPolicy 5 1 3 8%float 1%float 3%float 1 1.


(** A 3 by 3 image and a 1 by 3 one. *)
Definition ones3 : MaskedImage float := mkMaskedImage 3 3 (fun _ _ => px 1 0).
Definition thin : MaskedImage float := mkMaskedImage 1 3 (fun _ _ => px 1 0).

(** [ones6] with every mask bit set and another variance plane. *)
Definition flagged6 : MaskedImage float :=
  mkMaskedImage 6 6 (fun _ _ => mkPixel 1%float 9%float 255).

(** A solution whose background entry is not-a-number. *)
Definition nan_background : list float := [1; PrimFloat.nan]%float.

(* ===================================================================== *)
(** * Machine integers: facts *)
(* ===================================================================== *)

Lemma to_int_small z : 0 <= z <= INT_MAX -> to_int z = z.
Proof.
  unfold to_int, INT_MAX, UINT_MODULUS. intros Hz.
  rewrite Z.mod_small by lia. lia.
Qed.

Lemma to_unsigned_small z : 0 <= z < UINT_MODULUS -> to_unsigned z = z.
Proof. unfold to_unsigned. intros Hz. apply Z.mod_small. lia. Qed.

Lemma to_unsigned_range z : 0 <= to_unsigned z < UINT_MODULUS.
Proof. unfold to_unsigned, UINT_MODULUS. apply Z.mod_pos_bound. lia. Qed.

(* ===================================================================== *)
(** * Kernel basis: properties *)
(* ===================================================================== *)

Section KernelBasisFacts.
  Context {D : Type}.

Lemma delta_row_length width height sw row :
  length (delta_row width height sw row) = Z.to_nat sw.
Proof. unfold delta_row. rewrite length_fmap, length_seqZ. done. Qed.

Lemma delta_row_lookup width height sw row (i : nat) k :
  delta_row width height sw row !! i = Some k <->
  Z.of_nat i < sw /\ k = mkDeltaFunctionKernel width height (mkPointI (Z.of_nat i) row).
Proof.
  unfold delta_row. rewrite list_lookup_fmap, fmap_Some. split.
  - intros (col & Hcol & ->). apply lookup_seqZ in Hcol as [-> Hlt]. done.
  - intros [Hlt ->]. exists (Z.of_nat i). split; [|done].
    apply lookup_seqZ. done.
Qed.

(** Where each kernel of the returned list stands. *)
Lemma delta_set_lookup width height (i : nat) k :
  0 <= width ->
  mjoin (delta_row width height width <$> seqZ 0 height) !! i = Some k <->
  exists col row, 0 <= col < width /\ 0 <= row < height
    /\ i = Z.to_nat (row * width + col)
    /\ k = mkDeltaFunctionKernel width height (mkPointI col row).
Proof.
  intros Hw.
  rewrite (join_lookup_Some_same_length (Z.to_nat width)); last first.
  { apply Forall_fmap, Forall_forall. intros r _. simpl. apply delta_row_length. }
  split.
  - intros (j & l & i' & Hj & Hi' & ->).
    rewrite list_lookup_fmap, fmap_Some in Hj. destruct Hj as (row & Hrow & ->).
    apply lookup_seqZ in Hrow as [-> Hj].
    apply delta_row_lookup in Hi' as [Hi' ->].
    exists (Z.of_nat i'), (Z.of_nat j). split_and!; try lia. done.
  - intros (col & row & Hc & Hr & -> & ->).
    exists (Z.to_nat row), (delta_row width height width row), (Z.to_nat col).
    split_and!.
    + rewrite list_lookup_fmap, fmap_Some. exists row. split; [|done].
      apply lookup_seqZ. lia.
    + apply delta_row_lookup. split; [lia|]. do 2 f_equal. lia.
    + lia.
Qed.

Lemma delta_set_length width height :
  0 <= width -> 0 <= height ->
  Z.of_nat (length (mjoin (delta_row width height width <$> seqZ 0 height)))
  = width * height.
Proof.
  intros Hw Hh. rewrite length_join, <- list_fmap_compose.
  rewrite (sum_list_fmap_same (Z.to_nat width)).
  - rewrite length_seqZ. nia.
  - apply Forall_forall. intros r _. simpl. apply delta_row_length.
Qed.

Lemma delta_set_NoDup width height :
  0 <= width ->
  NoDup (dfk_anchor <$> mjoin (delta_row width height width <$> seqZ 0 height)).
Proof.
  intros Hw. apply NoDup_alt. intros i j p Hi Hj.
  rewrite list_lookup_fmap, fmap_Some in Hi, Hj.
  destruct Hi as (k1 & Hi & ->). destruct Hj as (k2 & Hj & Heq).
  apply delta_set_lookup in Hi as (c1 & r1 & Hc1 & Hr1 & -> & ->); [|done].
  apply delta_set_lookup in Hj as (c2 & r2 & Hc2 & Hr2 & -> & ->); [|done].
  unfold dfk_anchor in Heq. simpl in Heq. congruence.
Qed.

End KernelBasisFacts.

Lemma to_int_high z : 2 ^ 31 <= z < UINT_MODULUS -> to_int z = z - UINT_MODULUS.
Proof.
  unfold to_int, UINT_MODULUS. intros Hz.
  rewrite <- (Z.mod_unique (z + 2 ^ 31) (2 ^ 32) 1 (z - 2 ^ 31)) by lia. lia.
Qed.

Lemma join_of_empty_rows {A B} (l : list A) (f : A -> list B) :
  (forall a, f a = []) -> mjoin (f <$> l) = [].
Proof.
  intros Hf. induction l as [|a l IH]; [done|].
  rewrite fmap_cons. simpl. rewrite Hf, IH. done.
Qed.

(** C6: for all dimensions from 1 to 2^31 - 1,
    [generateDeltaFunctionKernelSet] returns exactly [width*height]
    kernels, the kernel at index [row*width+col] being the delta-function
    kernel of those dimensions with unit weight at [(col,row)], zero
    elsewhere, and anchor [(col,row)], every position being taken exactly
    once, as the claim says.  The code leaves the claim, and its own
    docstring, in two places: for [width < 1] or [height < 1] what it
    throws is an [exceptions::Exception] with the message "nRows and
    nCols must be positive", not the [DomainError] announced; and for a
    width from [2^31] on the cast to [int] is negative and the empty list
    is returned where [width*height] kernels are announced. *)
Theorem delta_function_basis (D : Type) (width height : Z) :
  (1 <= width <= INT_MAX -> 1 <= height <= INT_MAX ->
     returns_delta_basis D width height)
  /\ (width < 1 \/ height < 1 ->
      exists e,
        generateDeltaFunctionKernelSet (D := D) width height = Throw e
        /\ e = LSST_EXCEPT pex_Exception "nRows and nCols must be positive" None
        /\ exception_class e <> pex_DomainError)
  /\ (2 ^ 31 <= width < UINT_MODULUS -> 1 <= height ->
      generateDeltaFunctionKernelSet (D := D) width height = Done []
      /\ ~ returns_delta_basis D width height).
Proof.
  split_and!.
  - intros Hw Hh. unfold returns_delta_basis, generateDeltaFunctionKernelSet.
    destruct (width <? 1) eqn:Ew; [lia|]. destruct (height <? 1) eqn:Eh; [lia|].
    simpl. rewrite !to_int_small by lia.
    eexists. split; [reflexivity|]. split_and!.
    + apply delta_set_length; lia.
    + intros col row Hc Hr. eexists. split.
      { apply delta_set_lookup; [lia|]. exists col, row. done. }
      split_and!; done.
    + apply delta_set_NoDup. lia.
    + intros k Hk. apply list_elem_of_lookup in Hk as [i Hi].
      apply delta_set_lookup in Hi as (col & row & Hc & Hr & _ & ->); [|lia].
      done.
  - intros Hsmall. unfold generateDeltaFunctionKernelSet.
    destruct ((width <? 1) || (height <? 1)) eqn:E.
    + eexists. split; [reflexivity|]. split; [reflexivity|]. simpl. discriminate.
    + apply orb_false_iff in E. lia.
  - intros Hw Hh.
    assert (generateDeltaFunctionKernelSet (D := D) width height = Done []) as Hrun.
    { unfold generateDeltaFunctionKernelSet.
      assert ((width <? 1) || (height <? 1) = false) as ->.
      { apply orb_false_iff. split; apply Z.ltb_ge; lia. }
      f_equal. apply join_of_empty_rows. intros row. unfold delta_row.
      rewrite seqZ_nil; [done|]. rewrite to_int_high by done. lia. }
    split; [exact Hrun|].
    intros (l & Hl & Hlen & _). rewrite Hrun in Hl. injection Hl as <-.
    simpl in Hlen. unfold UINT_MODULUS in *. lia.
Qed.

(** A 2 by 3 basis: six kernels, the one at index 1*2+1 = 3 at (1,1);
    a width of 0: the exception thrown; a width of 2^31: the empty list. *)
Lemma delta_function_basis_witness :
  returns_delta_basis float 2 3
  /\ (exists e,
        generateDeltaFunctionKernelSet (D := float) 0 3 = Throw e
        /\ e = LSST_EXCEPT pex_Exception "nRows and nCols must be positive" None
        /\ exception_class e <> pex_DomainError)
  /\ generateDeltaFunctionKernelSet (D := float) (2 ^ 31) 1 = Done []
  /\ ~ returns_delta_basis float (2 ^ 31) 1.
Proof.
  split_and!.
  - apply (delta_function_basis float 2 3); unfold INT_MAX; lia.
  - apply (delta_function_basis float 0 3). lia.
  - apply (delta_function_basis float (2 ^ 31) 1); unfold UINT_MODULUS; lia.
  - apply (delta_function_basis float (2 ^ 31) 1); unfold UINT_MODULUS; lia.
Defined.

(* ===================================================================== *)
(** * IEEE doubles: negating a difference *)
(* ===================================================================== *)

Lemma Prim2SF_minus_one : Prim2SF (-1)%float = minus_one_SF.
Proof. vm_compute. reflexivity. Qed.

Lemma SFeqb_refl (x : spec_float) : SFeqb x x = true \/ x = S754_nan.
Proof.
  destruct x as [s|s| |s m e]; unfold SFeqb; simpl; auto.
  - destruct s; auto.
  - left. destruct s; rewrite Z.compare_refl, Pos.compare_cont_refl; reflexivity.
Qed.

Lemma round_aux_sign (m e : Z) (l : location) :
  binary_round_aux prec emax true m e l = SFopp (binary_round_aux prec emax false m e l).
Proof.
  unfold binary_round_aux.
  destruct (shr_fexp prec emax m e l) as [mrs' e'].
  destruct (shr_fexp prec emax _ e' loc_Exact) as [mrs'' e''].
  destruct (shr_m mrs''); [reflexivity| |reflexivity].
  destruct (e'' <=? emax - prec); reflexivity.
Qed.

Lemma round_sign (m : positive) (e : Z) :
  binary_round prec emax true m e = SFopp (binary_round prec emax false m e).
Proof.
  unfold binary_round. destruct (shl_align _ _ _) as [mz ez]. apply round_aux_sign.
Qed.

Lemma normalize_opp (z e : Z) :
  same_spec (SFopp (binary_normalize prec emax z e false))
            (binary_normalize prec emax (- z) e false).
Proof.
  destruct z as [|p|p]; simpl.
  - left. reflexivity.
  - rewrite round_sign.
    destruct (SFeqb_refl (SFopp (binary_round prec emax false p e))) as [H|H].
    + left. exact H.
    + right. split; exact H.
  - rewrite round_sign.
    destruct (binary_round prec emax false p e) as [s|s| |s m e']; simpl.
    + left. reflexivity.
    + left. unfold SFeqb. simpl. destruct s; reflexivity.
    + right. split; reflexivity.
    + left. rewrite negb_involutive.
      destruct (SFeqb_refl (S754_finite s m e')) as [H|H]; [exact H|discriminate].
Qed.

Lemma SFsub_swap (x y : spec_float) :
  same_spec (SFopp (SF64sub x y)) (SF64sub y x).
Proof.
  unfold SF64sub.
  destruct x as [sx|sx| |sx mx ex], y as [sy|sy| |sy my ey];
    try (right; split; reflexivity);
    try (left; destruct sx, sy; reflexivity);
    try (left; destruct sx; reflexivity);
    try (left; destruct sy; reflexivity).
  - left. simpl. rewrite negb_involutive.
    destruct (SFeqb_refl (S754_finite sy my ey)) as [H|H]; [exact H|discriminate].
  - simpl. destruct sx, sy; simpl; first [right; split; reflexivity | left; reflexivity].
  - left. simpl.
    destruct (SFeqb_refl (S754_finite (negb sx) mx ex)) as [H|H]; [exact H|discriminate].
  - unfold SFsub. cbv zeta. rewrite (Z.min_comm ey ex).
    set (a := cond_Zopp sx _). set (b := cond_Zopp sy _).
    replace (b - a) with (- (a - b)) by lia.
    apply normalize_opp.
Qed.

(** Multiplying by -1 changes the sign and nothing else. *)
Lemma iter_xO_digits (n : nat) (m : positive) :
  Z.pos (digits2_pos (Nat.iter n xO m)) = Z.pos (digits2_pos m) + Z.of_nat n.
Proof.
  induction n as [|n IH]; [simpl; lia|].
  rewrite Nat.iter_succ. cbn [digits2_pos]. rewrite Pos2Z.inj_succ, IH. lia.
Qed.

Lemma iter_shr_1 (n : nat) (m : positive) :
  Nat.iter n shr_1 (Build_shr_record (Z.pos (Nat.iter n xO m)) false false)
  = Build_shr_record (Z.pos m) false false.
Proof.
  induction n as [|n IH]; [reflexivity|].
  rewrite Nat.iter_succ_r. rewrite Nat.iter_succ. simpl. apply IH.
Qed.

Lemma mul_two_52 (m : positive) :
  (m * 4503599627370496)%positive = Nat.iter 52 xO m.
Proof. rewrite Pos.mul_comm. reflexivity. Qed.

Lemma iter_pos_52 {A} (f : A -> A) (x : A) : SpecFloat.iter_pos f 52 x = Nat.iter 52 f x.
Proof. reflexivity. Qed.

Lemma SFmul_minus_one (w : spec_float) :
  SpecFloat.valid_binary prec emax w = true -> SF64mul w minus_one_SF = SFopp w.
Proof.
  intros Hvalid. destruct w as [s|s| |s m e]; simpl.
  - destruct s; reflexivity.
  - destruct s; reflexivity.
  - reflexivity.
  - simpl in Hvalid. unfold bounded, canonical_mantissa in Hvalid.
    apply andb_true_iff in Hvalid as [Hcanon Hbound].
    apply Z.eqb_eq in Hcanon.
    unfold SF64mul, SFmul, minus_one_SF, binary_round_aux.
    rewrite mul_two_52.
    assert (shr_fexp prec emax (Z.pos (Nat.iter 52 xO m)) (e + -52) loc_Exact
            = (Build_shr_record (Z.pos m) false false, e)) as ->.
    { unfold shr_fexp, Zdigits2. rewrite (iter_xO_digits 52).
      replace (Z.pos (digits2_pos m) + Z.of_nat 52 + (e + -52))
        with (Z.pos (digits2_pos m) + e) by lia.
      rewrite Hcanon. replace (e - (e + -52)) with 52 by lia.
      unfold shr, shr_record_of_loc. rewrite iter_pos_52, (iter_shr_1 52).
      f_equal. lia. }
    cbn [shr_m loc_of_shr_record round_nearest_even].
    assert (shr_fexp prec emax (Z.pos m) e loc_Exact
            = (Build_shr_record (Z.pos m) false false, e)) as ->.
    { unfold shr_fexp, Zdigits2. rewrite Hcanon, Z.sub_diag. reflexivity. }
    cbn [shr_m]. rewrite Hbound. destruct s; reflexivity.
Qed.

Lemma negated_difference (u v : float) :
  same_number (PrimFloat.mul (PrimFloat.sub u v) (-1)%float) (PrimFloat.sub v u).
Proof.
  unfold same_number, PrimFloat.is_nan.
  rewrite !FloatAxioms.eqb_spec, FloatAxioms.mul_spec, !FloatAxioms.sub_spec,
    Prim2SF_minus_one.
  rewrite SFmul_minus_one by (rewrite <- FloatAxioms.sub_spec; apply Prim2SF_valid).
  destruct (SFsub_swap (Prim2SF u) (Prim2SF v)) as [H|[Ha Hb]].
  - left. exact H.
  - right. rewrite Ha, Hb. split; reflexivity.
Qed.

(* ===================================================================== *)
(** * Kernel solver: what the pixel scan computes *)
(* ===================================================================== *)

Section MatrixFacts.
  Context {D : Type} `{Scalar D} `{Floating D}.
  Implicit Types (M : gsl_matrix D) (B : gsl_vector D).

Lemma square_lookup (p : nat) M (i : nat) :
  square p M -> (i < p)%nat -> exists row, M !! i = Some row /\ length row = p.
Proof.
  intros [Hlen Hrows] Hi.
  destruct (lookup_lt_is_Some_2 M i) as [row Hrow]; [lia|].
  exists row. split; [done|]. by eapply Forall_lookup_1 in Hrows.
Qed.

Lemma square_zero (p : nat) : square p (gsl_matrix_zero p).
Proof.
  split; unfold gsl_matrix_zero.
  - apply length_replicate.
  - apply Forall_replicate, length_replicate.
Qed.

Lemma entry_zero (p a b : nat) : entry (gsl_matrix_zero p) a b = of_Z 0.
Proof.
  unfold entry, gsl_matrix_zero.
  destruct (replicate p (replicate p (of_Z 0)) !! a) as [row|] eqn:Ea; simpl; [|done].
  apply lookup_replicate in Ea as [-> _].
  destruct (replicate p (of_Z 0) !! b) as [x|] eqn:Eb; simpl; [|done].
  apply lookup_replicate in Eb as [-> _]. done.
Qed.

Lemma vector_entry_zero (p a : nat) : vector_entry (gsl_vector_zero p) a = of_Z 0.
Proof.
  unfold vector_entry, gsl_vector_zero.
  destruct (replicate p (of_Z 0) !! a) as [x|] eqn:Ea; simpl; [|done].
  apply lookup_replicate in Ea as [-> _]. done.
Qed.

(** [*gsl_matrix_ptr(M, i, j) += v] changes the entry [(i,j)] and no other. *)
Lemma matrix_add_square (p : nat) M (i j : nat) v :
  square p M -> square p (matrix_add M i j v).
Proof.
  intros [Hlen Hrows]. split; unfold matrix_add.
  - by rewrite length_alter.
  - apply Forall_alter; [done|]. intros row _ Hrow. by rewrite length_alter.
Qed.

Lemma matrix_add_entry (p : nat) M (i j : nat) v (a b : nat) :
  square p M -> (i < p)%nat -> (j < p)%nat ->
  entry (matrix_add M i j v) a b
  = if decide (a = i /\ b = j) then fadd (entry M a b) v else entry M a b.
Proof.
  intros Hsq Hi Hj. unfold entry, matrix_add.
  destruct (square_lookup p M i Hsq Hi) as (row & Hrow & Hlen).
  rewrite list_lookup_alter.
  destruct (decide (i = a)) as [->|Hia].
  - rewrite Hrow. simpl. rewrite list_lookup_alter.
    destruct (decide (j = b)) as [->|Hjb].
    + rewrite decide_True by done.
      destruct (lookup_lt_is_Some_2 row b) as [x ->]; [lia|]. done.
    + rewrite decide_False by (intros [_ ?]; congruence). done.
  - rewrite decide_False by (intros [? _]; congruence). done.
Qed.

Lemma matrix_set_square (p : nat) M (i j : nat) v :
  square p M -> square p (matrix_set M i j v).
Proof.
  intros [Hlen Hrows]. split; unfold matrix_set.
  - by rewrite length_alter.
  - apply Forall_alter; [done|]. intros row _ Hrow. by rewrite length_insert.
Qed.

Lemma matrix_set_entry (p : nat) M (i j : nat) v (a b : nat) :
  square p M -> (i < p)%nat -> (j < p)%nat ->
  entry (matrix_set M i j v) a b = if decide (a = i /\ b = j) then v else entry M a b.
Proof.
  intros Hsq Hi Hj. unfold entry, matrix_set.
  destruct (square_lookup p M i Hsq Hi) as (row & Hrow & Hlen).
  rewrite list_lookup_alter.
  destruct (decide (i = a)) as [->|Hia].
  - rewrite Hrow. simpl. rewrite list_lookup_insert.
    destruct (decide (j = b /\ (j < length row)%nat)) as [[-> _]|Hjb].
    + rewrite decide_True by done. done.
    + rewrite decide_False by (intros [_ ->]; apply Hjb; split; [done|lia]). done.
  - rewrite decide_False by (intros [? _]; congruence). done.
Qed.

Lemma vector_add_length B (i : nat) v : length (vector_add B i v) = length B.
Proof. unfold vector_add. apply length_alter. Qed.

Lemma vector_add_entry B (i : nat) v (a : nat) :
  (i < length B)%nat ->
  vector_entry (vector_add B i v) a
  = if decide (a = i) then fadd (vector_entry B a) v else vector_entry B a.
Proof.
  intros Hi. unfold vector_entry, vector_add. rewrite list_lookup_alter.
  destruct (decide (i = a)) as [->|Hia].
  - rewrite decide_True by done.
    destruct (lookup_lt_is_Some_2 B a) as [x ->]; [lia|]. done.
  - rewrite decide_False by congruence. done.
Qed.

(** A square matrix and a vector are the tables of their entries. *)
Lemma square_tabulate (p : nat) M :
  square p M -> M = (fun i => (fun j => entry M i j) <$> seq 0 p) <$> seq 0 p.
Proof.
  intros Hsq. apply list_eq. intros i.
  rewrite list_lookup_fmap.
  destruct (decide (i < p)%nat) as [Hi|Hi].
  - rewrite lookup_seq_lt by done. simpl.
    destruct (square_lookup p M i Hsq Hi) as (row & Hrow & Hlen).
    rewrite Hrow. f_equal. apply list_eq. intros j.
    rewrite list_lookup_fmap.
    destruct (decide (j < p)%nat) as [Hj|Hj].
    + rewrite lookup_seq_lt by done. simpl. unfold entry. rewrite Hrow. simpl.
      destruct (lookup_lt_is_Some_2 row j) as [x ->]; [lia|]. done.
    + rewrite lookup_seq_ge by lia. simpl. apply lookup_ge_None. lia.
  - rewrite lookup_seq_ge by lia. simpl. apply lookup_ge_None.
    destruct Hsq as [-> _]. lia.
Qed.

Lemma vector_tabulate (p : nat) B :
  length B = p -> B = (fun i => vector_entry B i) <$> seq 0 p.
Proof.
  intros Hlen. apply list_eq. intros i. rewrite list_lookup_fmap.
  destruct (decide (i < p)%nat) as [Hi|Hi].
  - rewrite lookup_seq_lt by done. simpl. unfold vector_entry.
    destruct (lookup_lt_is_Some_2 B i) as [x ->]; [lia|]. done.
  - rewrite lookup_seq_ge by lia. simpl. apply lookup_ge_None. lia.
Qed.

End MatrixFacts.

Section PixelFacts.
  Context {D : Type} `{Scalar D} `{Floating D}.
  Variables (n : nat) (kiter : list (xy_locator D)).
  Hypothesis kiter_length : length kiter = n.
  Implicit Types (M : gsl_matrix D) (B : gsl_vector D).

(** The inner loop over [kidxj]: row [kidxi], columns [kidxj .. n-1]. *)
Lemma accumulate_j_entries (cdImagei iVariance : D) (kidxi : nat) (k : nat) :
  forall (kidxj : nat) M,
    k = (n - kidxj)%nat -> (kidxj <= n)%nat -> (kidxi <= n)%nat -> square (S n) M ->
    square (S n) (accumulate_j cdImagei iVariance kidxi kidxj (drop kidxj kiter) M)
    /\ forall a b,
         entry (accumulate_j cdImagei iVariance kidxi kidxj (drop kidxj kiter) M) a b
         = if decide (a = kidxi /\ (kidxj <= b < n)%nat)
           then fadd (entry M a b)
                     (fmul (fmul cdImagei (convolved_value kiter b)) iVariance)
           else entry M a b.
Proof using kiter_length.
  induction k as [|k IH]; intros kidxj M Hk Hj Hi Hsq.
  - rewrite drop_ge by lia. simpl. split; [done|].
    intros a b. rewrite decide_False by lia. done.
  - destruct (lookup_lt_is_Some_2 kiter kidxj) as [loc Hloc]; [lia|].
    rewrite (drop_S _ _ _ Hloc). simpl.
    set (M1 := matrix_add M kidxi kidxj _).
    assert (square (S n) M1) as Hsq1 by (apply matrix_add_square; done).
    destruct (IH (S kidxj) M1 ltac:(lia) ltac:(lia) Hi Hsq1) as [Hsq2 Hent].
    split; [done|]. intros a b. rewrite Hent. unfold M1.
    rewrite (matrix_add_entry (S n)) by (done || lia).
    unfold convolved_value at 2.
    destruct (decide (a = kidxi /\ b = kidxj)) as [[-> ->]|Hne].
    + rewrite decide_False by lia. rewrite decide_True by lia.
      rewrite Hloc. done.
    + destruct (decide (a = kidxi /\ (S kidxj <= b < n)%nat)) as [[-> Hb]|Hne2].
      * rewrite decide_True by lia. done.
      * rewrite decide_False by lia. done.
Qed.

Lemma accumulate_i_cons (ncImage iVariance : D) (nParameters kidxi : nat)
    (loc : xy_locator D) (rest : list (xy_locator D)) M B :
  accumulate_i ncImage iVariance nParameters kidxi (loc :: rest) (M, B)
  = accumulate_i ncImage iVariance nParameters (S kidxi) rest
      (matrix_add (accumulate_j (image (deref loc)) iVariance kidxi kidxi (loc :: rest) M)
                  kidxi (nParameters - 1) (fmul (image (deref loc)) iVariance),
       vector_add B kidxi (fmul (fmul ncImage (image (deref loc))) iVariance)).
Proof. done. Qed.

(** The term the loop over [kidxi] adds to [M[a][b]], [a < n], [a <= b]. *)
Lemma accumulate_i_entries (ncImage iVariance : D) (k : nat) :
  forall (kidxi : nat) M B,
    k = (n - kidxi)%nat -> (kidxi <= n)%nat -> square (S n) M -> length B = S n ->
    let MB := accumulate_i ncImage iVariance (S n) kidxi (drop kidxi kiter) (M, B) in
    square (S n) MB.1 /\ length MB.2 = S n
    /\ (forall a b,
          entry MB.1 a b
          = if decide ((kidxi <= a < n)%nat /\ (a <= b <= n)%nat)
            then fadd (entry M a b)
                      (if (b <? n)%nat
                       then fmul (fmul (convolved_value kiter a) (convolved_value kiter b))
                                 iVariance
                       else fmul (convolved_value kiter a) iVariance)
            else entry M a b)
    /\ (forall a,
          vector_entry MB.2 a
          = if decide (kidxi <= a < n)%nat
            then fadd (vector_entry B a)
                      (fmul (fmul ncImage (convolved_value kiter a)) iVariance)
            else vector_entry B a).
Proof using kiter_length.
  induction k as [|k IH]; intros kidxi M B Hk Hi Hsq HB.
  - rewrite drop_ge by lia. simpl. split_and!; try done.
    + intros a b. rewrite decide_False by lia. done.
    + intros a. rewrite decide_False by lia. done.
  - destruct (lookup_lt_is_Some_2 kiter kidxi) as [loc Hloc]; [lia|].
    pose proof (accumulate_j_entries (image (deref loc)) iVariance kidxi (n - kidxi)
                  kidxi M eq_refl ltac:(lia) ltac:(lia) Hsq) as [Hsq1 Hent1].
    rewrite (drop_S _ _ _ Hloc) in *. rewrite accumulate_i_cons.
    replace (S n - 1)%nat with n by lia.
    set (M1 := accumulate_j _ _ _ _ _ M) in *.
    set (B1 := vector_add B kidxi _).
    set (M2 := matrix_add M1 kidxi n _).
    assert (square (S n) M2) as Hsq2 by (apply matrix_add_square; done).
    assert (length B1 = S n) as HB1 by (unfold B1; rewrite vector_add_length; done).
    destruct (IH (S kidxi) M2 B1 ltac:(lia) ltac:(lia) Hsq2 HB1)
      as (Hsq3 & HB3 & Hent & Hvec).
    split_and!; try done.
    + intros a b. rewrite Hent. unfold M2.
      rewrite (matrix_add_entry (S n)) by (done || lia).
      rewrite Hent1.
      assert (convolved_value kiter kidxi = image (deref loc)) as Hcd
        by (unfold convolved_value; rewrite Hloc; done).
      destruct (decide (a = kidxi)) as [->|Hne].
      * rewrite (decide_False (P := (S kidxi <= kidxi < n)%nat /\ _)) by lia.
        rewrite Hcd.
        destruct (decide (b = n)) as [->|Hbn].
        -- rewrite decide_True by done.
           rewrite (decide_False (P := kidxi = kidxi /\ (kidxi <= n < n)%nat)) by lia.
           rewrite decide_True by lia.
           destruct (Nat.ltb_spec n n); [lia|]. done.
        -- rewrite decide_False by (intros [_ ?]; lia).
           destruct (decide (kidxi <= b < n)%nat) as [Hb|Hb].
           ++ rewrite decide_True by done. rewrite decide_True by lia.
              destruct (Nat.ltb_spec b n); [|lia]. done.
           ++ rewrite decide_False by (intros [_ ?]; lia).
              rewrite decide_False by lia. done.
      * rewrite (decide_False (P := a = kidxi /\ b = n)) by (intros [? _]; lia).
        rewrite (decide_False (P := a = kidxi /\ _)) by (intros [? _]; lia).
        destruct (decide ((S kidxi <= a < n)%nat /\ (a <= b <= n)%nat)) as [Hab|Hab].
        -- rewrite decide_True by lia. done.
        -- rewrite decide_False by lia. done.
    + intros a. rewrite Hvec. unfold B1.
      rewrite vector_add_entry by lia.
      assert (convolved_value kiter kidxi = image (deref loc)) as Hcd
        by (unfold convolved_value; rewrite Hloc; done).
      destruct (decide (a = kidxi)) as [->|Hne].
      * rewrite decide_False by lia. rewrite decide_True by lia. rewrite Hcd. done.
      * destruct (decide (S kidxi <= a < n)%nat) as [Ha|Ha].
        -- rewrite decide_True by lia. done.
        -- rewrite decide_False by lia. done.
Qed.

End PixelFacts.

Section ScanFacts.
  Context {D : Type} `{Scalar D} `{Floating D}.
  Variables (imageToConvolve imageToNotConvolve varianceImage : MaskedImage D).
  Variable convolvedImageList : list (MaskedImage D).
  Implicit Types (M : gsl_matrix D) (B : gsl_vector D).

Lemma convolved_value_at (x y : Z) (a : nat) :
  convolved_value
    (convolvedLocatorList
       (locators_at imageToConvolve imageToNotConvolve varianceImage convolvedImageList x y)) a
  = match convolvedImageList !! a with
    | Some citer => image (pixel_at citer x y)
    | None => of_Z 0
    end.
Proof.
  unfold convolved_value, locators_at. simpl. rewrite list_lookup_fmap.
  destruct (convolvedImageList !! a); done.
Qed.

(** What one turn of the column loop adds, with every locator at [(x,y)]. *)
Lemma accumulate_pixel_entries (x y : Z) M B :
  let n := length convolvedImageList in
  square (S n) M -> length B = S n ->
  let MB := accumulate_pixel (S n)
              (locators_at imageToConvolve imageToNotConvolve varianceImage
                           convolvedImageList x y) (M, B) in
  square (S n) MB.1 /\ length MB.2 = S n
  /\ (forall a b,
        entry MB.1 a b
        = if decide (a <= b <= n)%nat
          then fadd (entry M a b) (matrix_term varianceImage convolvedImageList x y a b)
          else entry M a b)
  /\ (forall a,
        vector_entry MB.2 a
        = if decide (a <= n)%nat
          then fadd (vector_entry B a)
                    (vector_term imageToNotConvolve varianceImage convolvedImageList x y a)
          else vector_entry B a).
Proof.
  intros n Hsq HB MB. unfold MB, accumulate_pixel.
  set (L := locators_at _ _ _ _ x y).
  assert (length (convolvedLocatorList L) = n) as Hlen
    by (unfold L, locators_at; simpl; rewrite length_fmap; done).
  pose proof (accumulate_i_entries n (convolvedLocatorList L) Hlen
                (image (deref (imageToNotConvolveLocator L)))
                (fdiv (of_Z 1) (variance (deref (varianceLocator L))))
                n 0%nat M B ltac:(lia) ltac:(lia) Hsq HB) as Hloop.
  rewrite drop_0 in Hloop. cbv zeta in Hloop.
  destruct Hloop as (Hsq1 & HB1 & Hent & Hvec).
  replace (S n - 1)%nat with n by lia. cbv zeta. cbn [fst snd].
  split_and!.
  - by apply matrix_add_square.
  - rewrite vector_add_length. done.
  - intros a b. rewrite (matrix_add_entry (S n)) by (done || lia).
    rewrite Hent. unfold matrix_term. fold n. unfold L. rewrite !convolved_value_at.
    destruct (decide (a = n /\ b = n)) as [[-> ->]|Hnn].
    + rewrite decide_False by lia. rewrite decide_True by lia.
      destruct (Nat.ltb_spec n n); [lia|]. done.
    + destruct (decide (a <= b <= n)%nat) as [Hab|Hab].
      * rewrite decide_True by lia.
        destruct (Nat.ltb_spec b n); [done|].
        destruct (Nat.ltb_spec a n); [done|lia].
      * rewrite decide_False by lia. done.
  - intros a. rewrite vector_add_entry by lia.
    rewrite Hvec. unfold vector_term. fold n. unfold L. rewrite !convolved_value_at.
    destruct (decide (a = n)) as [->|Han].
    + rewrite decide_False by lia. rewrite decide_True by lia.
      destruct (Nat.ltb_spec n n); [lia|]. done.
    + destruct (decide (a <= n)%nat) as [Ha|Ha].
      * rewrite decide_True by lia. destruct (Nat.ltb_spec a n); [done|lia].
      * rewrite decide_False by lia. done.
Qed.

End ScanFacts.

Lemma foldl_bind {A B C} (f : A -> C -> A) (g : B -> list C) (a : A) (l : list B) :
  foldl f a (l ≫= g) = foldl (fun a x => foldl f a (g x)) a l.
Proof.
  revert a. induction l as [|x l IH]; intros a; [done|].
  rewrite bind_cons, foldl_app. apply IH.
Qed.

Lemma fmap_as_bind {A B} (f : A -> B) (l : list A) : f <$> l = l ≫= (fun x => [f x]).
Proof. induction l as [|x l IH]; [done|]. rewrite fmap_cons, bind_cons, IH. done. Qed.

Section WalkFacts.
  Context {D : Type} `{Scalar D} `{Floating D}.
  Variables (imageToConvolve imageToNotConvolve varianceImage : MaskedImage D).
  Variable convolvedImageList : list (MaskedImage D).
  Implicit Types (M : gsl_matrix D) (B : gsl_vector D).

Lemma step_column_at (x y : Z) :
  step_column (locators_at imageToConvolve imageToNotConvolve varianceImage
                           convolvedImageList x y)
  = locators_at imageToConvolve imageToNotConvolve varianceImage convolvedImageList (x + 1) y.
Proof.
  unfold step_column, locators_at. simpl. f_equal.
  rewrite <- list_fmap_compose. done.
Qed.

Lemma step_row_at (x y : Z) :
  step_row (locators_at imageToConvolve imageToNotConvolve varianceImage
                        convolvedImageList x y)
  = locators_at imageToConvolve imageToNotConvolve varianceImage convolvedImageList x (y + 1).
Proof.
  unfold step_row, locators_at. simpl. f_equal.
  rewrite <- list_fmap_compose. done.
Qed.

(** The column loop: [c] pixels to the right of [(x,y)], and the locators
    left [c] columns further. *)
Lemma column_loop (nParameters c : nat) (x y : Z) MB :
  Nat.iter c (scan_pixel nParameters)
    (locators_at imageToConvolve imageToNotConvolve varianceImage convolvedImageList x y, MB)
  = (locators_at imageToConvolve imageToNotConvolve varianceImage convolvedImageList
       (x + Z.of_nat c) y,
     foldl (visit imageToConvolve imageToNotConvolve varianceImage convolvedImageList nParameters) MB ((fun col => (x + col, y)) <$> seqZ 0 (Z.of_nat c))).
Proof.
  induction c as [|c IH].
  - simpl. rewrite Z.add_0_r. done.
  - rewrite Nat.iter_succ, IH. unfold scan_pixel at 1. cbn [fst snd].
    rewrite step_column_at, seqZ_S, fmap_app, foldl_app. simpl.
    f_equal. f_equal. lia.
Qed.

(** The row loop: every row starts where the row before stopped. *)
Lemma row_loop (nParameters r : nat) (w : Window) (x y : Z) MB :
  let cols := Z.of_nat (Z.to_nat (endCol w - startCol w)) in
  Nat.iter r (scan_line nParameters w)
    (locators_at imageToConvolve imageToNotConvolve varianceImage convolvedImageList x y, MB)
  = (locators_at imageToConvolve imageToNotConvolve varianceImage convolvedImageList
       (x + Z.of_nat r * cols) (y + Z.of_nat r),
     foldl (visit imageToConvolve imageToNotConvolve varianceImage convolvedImageList nParameters) MB
       (row ← seqZ 0 (Z.of_nat r);
        col ← seqZ 0 cols;
        [(x + row * cols + col, y + row)])).
Proof.
  intros cols. induction r as [|r IH].
  - simpl. rewrite Z.add_0_r, Z.add_0_r. done.
  - rewrite Nat.iter_succ, IH. unfold scan_line at 1. cbn [fst snd].
    rewrite column_loop. cbn [fst snd]. rewrite step_row_at.
    rewrite seqZ_S, bind_app, foldl_app. f_equal.
    + f_equal; lia.
    + f_equal. simpl. rewrite app_nil_r. rewrite fmap_as_bind.
      apply list_bind_ext; [|done].
      intros col. do 2 f_equal; lia.
Qed.

End WalkFacts.

Section SumFacts.
  Context {D : Type} `{Scalar D} `{Floating D}.
  Variables (imageToConvolve imageToNotConvolve varianceImage : MaskedImage D).
  Variable convolvedImageList : list (MaskedImage D).
  Implicit Types (M : gsl_matrix D) (B : gsl_vector D).

(** The scan of a list of pixels adds one term per pixel to every entry
    on or above the diagonal, in the order of the list. *)
Lemma visit_entries (positions : list (Z * Z)) :
  let n := length convolvedImageList in
  forall M B,
    square (S n) M -> length B = S n ->
    let MB := foldl (visit imageToConvolve imageToNotConvolve varianceImage
                           convolvedImageList (S n)) (M, B) positions in
    square (S n) MB.1 /\ length MB.2 = S n
    /\ (forall a b,
          entry MB.1 a b
          = if decide (a <= b <= n)%nat
            then foldl (fun acc (p : Z * Z) =>
                          fadd acc (matrix_term varianceImage convolvedImageList p.1 p.2 a b))
                       (entry M a b) positions
            else entry M a b)
    /\ (forall a,
          vector_entry MB.2 a
          = if decide (a <= n)%nat
            then foldl (fun acc (p : Z * Z) =>
                          fadd acc (vector_term imageToNotConvolve varianceImage
                                                convolvedImageList p.1 p.2 a))
                       (vector_entry B a) positions
            else vector_entry B a).
Proof.
  intros n. induction positions as [|[x y] positions IH]; intros M B Hsq HB.
  - simpl. split_and!; try done.
    + intros a b. destruct (decide _); done.
    + intros a. destruct (decide _); done.
  - cbn [foldl].
    pose proof (accumulate_pixel_entries imageToConvolve imageToNotConvolve varianceImage
                  convolvedImageList x y M B Hsq HB) as Hpix.
    cbv zeta in Hpix. fold n in Hpix.
    destruct (accumulate_pixel (S n) _ (M, B)) as [M1 B1] eqn:E1.
    cbn [fst snd] in Hpix. destruct Hpix as (Hsq1 & HB1 & Hent1 & Hvec1).
    destruct (IH M1 B1 Hsq1 HB1) as (Hsq2 & HB2 & Hent2 & Hvec2).
    assert (visit imageToConvolve imageToNotConvolve varianceImage convolvedImageList
                  (S n) (M, B) (x, y) = (M1, B1)) as -> by exact E1.
    cbv zeta. split_and!; try done.
    + intros a b. rewrite Hent2, Hent1. destruct (decide _); done.
    + intros a. rewrite Hvec2, Hvec1. destruct (decide _); done.
Qed.

(** "Fill in rest of M": one turn of the loop over [kidxi] copies the
    row [kidxi], right of the diagonal, into the column [kidxi]. *)
Lemma mirror_column (p i k : nat) :
  forall M, square p M -> (S i + k <= p)%nat ->
    let M' := foldl (fun M kidxj => matrix_set M kidxj i (entry M i kidxj))
                    M (seq (S i) k) in
    square p M'
    /\ forall a b,
         entry M' a b
         = if decide (b = i /\ (S i <= a < S i + k)%nat) then entry M i a else entry M a b.
Proof.
  induction k as [|k IH]; intros M Hsq Hk.
  - simpl. split; [done|]. intros a b. rewrite decide_False by lia. done.
  - rewrite seq_S, foldl_app. cbn [foldl].
    destruct (IH M Hsq ltac:(lia)) as [Hsq1 Hent1].
    set (M1 := foldl _ M (seq (S i) k)) in *.
    cbv zeta. split; [by apply matrix_set_square|].
    intros a b. rewrite (matrix_set_entry p) by (done || lia).
    rewrite !Hent1.
    rewrite (decide_False (P := (S i + k)%nat = i /\ _)) by lia.
    destruct (decide (a = (S i + k)%nat /\ b = i)) as [[-> ->]|Hne].
    + rewrite decide_True by lia. done.
    + destruct (decide (b = i /\ (S i <= a < S i + k)%nat)) as [Hab|Hab].
      * rewrite decide_True by lia. done.
      * rewrite decide_False by lia. done.
Qed.

Lemma mirror_rows (p m : nat) :
  forall M, square p M -> (m <= p)%nat ->
    let M' := foldl (fun M kidxi =>
                       foldl (fun M kidxj => matrix_set M kidxj kidxi (entry M kidxi kidxj))
                             M (seq (S kidxi) (p - S kidxi)))
                    M (seq 0 m) in
    square p M'
    /\ forall a b,
         entry M' a b
         = if decide ((b < a < p)%nat /\ (b < m)%nat) then entry M b a else entry M a b.
Proof.
  induction m as [|m IH]; intros M Hsq Hm.
  - simpl. split; [done|]. intros a b. rewrite decide_False by lia. done.
  - rewrite seq_S, foldl_app. cbn [foldl].
    destruct (IH M Hsq ltac:(lia)) as [Hsq1 Hent1].
    set (M1 := foldl _ M (seq 0 m)) in *.
    destruct (mirror_column p m (p - S m) M1 Hsq1 ltac:(lia)) as [Hsq2 Hent2].
    cbv zeta. simpl. split; [done|].
    intros a b. rewrite Hent2.
    destruct (decide (b = m /\ (S m <= a < S m + (p - S m))%nat)) as [[-> Ha]|Hne];
      rewrite Hent1.
    + rewrite decide_False by lia. rewrite decide_True by lia. done.
    + destruct (decide ((b < a < p)%nat /\ (b < m)%nat)) as [Hab|Hab].
      * rewrite decide_True by lia. done.
      * rewrite decide_False by lia. done.
Qed.

(** After the copy the matrix is symmetric, with the entries on and above
    the diagonal as they were. *)
Lemma mirror_entries (p : nat) M :
  square p M ->
  square p (mirror p M)
  /\ forall a b, (a < p)%nat -> (b < p)%nat ->
       entry (mirror p M) a b = entry M (a `min` b)%nat (a `max` b)%nat.
Proof.
  intros Hsq. destruct (mirror_rows p p M Hsq ltac:(lia)) as [Hsq1 Hent].
  split; [done|]. intros a b Ha Hb. unfold mirror. rewrite Hent.
  destruct (decide ((b < a < p)%nat /\ (b < p)%nat)) as [Hab|Hab].
  - rewrite Nat.min_r, Nat.max_l by lia. done.
  - rewrite Nat.min_l, Nat.max_r by lia. done.
Qed.

(** The list of the pixels under the locators, with the loop counts as
    the code converts them. *)
Lemma visited_pixels_counts (w : Window) :
  (row ← seqZ 0 (Z.of_nat (Z.to_nat (endRow w - startRow w)));
   col ← seqZ 0 (Z.of_nat (Z.to_nat (endCol w - startCol w)));
   [(to_int (startCol w) + row * Z.of_nat (Z.to_nat (endCol w - startCol w)) + col,
     to_int (startRow w) + row)])
  = visited_pixels w.
Proof.
  assert (forall len, seqZ 0 (Z.of_nat (Z.to_nat len)) = seqZ 0 len) as Hcount
    by (intros len; unfold seqZ; rewrite Nat2Z.id; done).
  unfold visited_pixels. apply list_bind_ext; [|apply Hcount].
  intros row.
  destruct (decide (0 <= endCol w - startCol w)) as [Hc|Hc].
  - rewrite Z2Nat.id by done. done.
  - unfold seqZ. replace (Z.to_nat (endCol w - startCol w)) with 0%nat by lia. done.
Qed.

(** The normal equations of the solver: every entry is the sum, over the
    pixels the locators visit, of the products the specification names. *)
Lemma normal_equations_visited (w : Window) :
  normal_equations imageToConvolve imageToNotConvolve varianceImage convolvedImageList w
  = equations_over (visited_pixels w) imageToNotConvolve varianceImage convolvedImageList.
Proof.
  unfold normal_equations, equations_over, scan. cbv zeta.
  set (n := length convolvedImageList).
  fold (locators_at imageToConvolve imageToNotConvolve varianceImage convolvedImageList
          (to_int (startCol w)) (to_int (startRow w))).
  rewrite row_loop. cbv zeta. cbn [snd]. rewrite visited_pixels_counts.
  pose proof (visit_entries (visited_pixels w) (gsl_matrix_zero (S n)) (gsl_vector_zero (S n))
                (square_zero (S n)) (length_replicate _ _)) as Hscan.
  cbv zeta in Hscan. fold n in Hscan.
  destruct (foldl _ (gsl_matrix_zero (S n), gsl_vector_zero (S n)) (visited_pixels w))
    as [M B] eqn:E.
  cbn [fst snd] in *. destruct Hscan as (Hsq & HB & Hent & Hvec).
  destruct (mirror_entries (S n) M Hsq) as [Hsq' Hent'].
  f_equal.
  - rewrite (square_tabulate (S n) (mirror (S n) M) Hsq') at 1.
    apply list_fmap_ext. intros ki i [-> Hi]%lookup_seq.
    apply list_fmap_ext. intros kj j [-> Hj]%lookup_seq. simpl.
    rewrite Hent' by lia. rewrite Hent. rewrite decide_True by lia.
    rewrite entry_zero. done.
  - rewrite (vector_tabulate (S n) B HB) at 1.
    apply list_fmap_ext. intros ki i [-> Hi]%lookup_seq. simpl.
    rewrite Hvec. rewrite decide_True by lia. rewrite vector_entry_zero. done.
Qed.

(** "Fill in rest of M" leaves a symmetric matrix. *)
Lemma equations_over_symmetric (positions : list (Z * Z)) (a b : nat) :
  let M := (equations_over positions imageToNotConvolve varianceImage convolvedImageList).1 in
  entry M a b = entry M b a.
Proof.
  unfold equations_over, entry. cbn [fst].
  generalize (S (length convolvedImageList)). intros p.
  rewrite !list_lookup_fmap.
  destruct (decide (a < p)%nat) as [Ha|Ha]; destruct (decide (b < p)%nat) as [Hb|Hb].
  - rewrite !lookup_seq_lt by done. simpl.
    rewrite !list_lookup_fmap, !lookup_seq_lt by done. simpl.
    rewrite Nat.min_comm, Nat.max_comm. done.
  - rewrite (lookup_seq_lt _ _ a), (lookup_seq_ge _ _ b) by lia. simpl.
    rewrite list_lookup_fmap, lookup_seq_ge by lia. done.
  - rewrite (lookup_seq_lt _ _ b), (lookup_seq_ge _ _ a) by lia. simpl.
    rewrite list_lookup_fmap, lookup_seq_ge by lia. done.
  - rewrite !lookup_seq_ge by lia. done.
Qed.

(** The locators are never taken back to [startCol]: the pixels they
    visit are those of the window when the window has one row at most. *)
Lemma one_row_visits_the_window (w : Window) :
  to_int (startCol w) = startCol w -> to_int (startRow w) = startRow w ->
  endRow w - startRow w <= 1 ->
  visited_pixels w = window_pixels w.
Proof.
  intros Hx Hy Hrows. unfold visited_pixels, window_pixels. rewrite Hx, Hy.
  destruct (decide (endRow w - startRow w <= 0)) as [Hr|Hr].
  - rewrite (seqZ_nil 0 (endRow w - startRow w)) by lia.
    rewrite (seqZ_nil (startRow w) (endRow w - startRow w)) by lia. done.
  - replace (endRow w - startRow w) with 1 by lia.
    change (seqZ 0 1) with [0]. change (seqZ (startRow w) 1) with [startRow w].
    rewrite !bind_cons. change (@nil Z ≫= _) with (@nil (Z * Z)). rewrite !app_nil_r.
    replace (seqZ (startCol w) (endCol w - startCol w))
      with (Z.add (startCol w) <$> seqZ 0 (endCol w - startCol w))
      by (rewrite fmap_add_seqZ; f_equal; lia).
    generalize (seqZ 0 (endCol w - startCol w)). intros l.
    induction l as [|col l IH]; [done|].
    rewrite fmap_cons, !bind_cons, IH. simpl. f_equal. f_equal; lia.
Qed.

Lemma one_row_normal_equations (w : Window) :
  to_int (startCol w) = startCol w -> to_int (startRow w) = startRow w ->
  endRow w - startRow w <= 1 ->
  normal_equations imageToConvolve imageToNotConvolve varianceImage convolvedImageList w
  = specified_normal_equations imageToNotConvolve varianceImage convolvedImageList w.
Proof.
  intros Hx Hy Hrows. rewrite normal_equations_visited.
  unfold specified_normal_equations. rewrite one_row_visits_the_window; done.
Qed.

End SumFacts.

(* ===================================================================== *)
(** * Difference operator: properties *)
(* ===================================================================== *)

Section DifferenceFacts.
  Context {D K : Type} `{Scalar D} `{Afw D K}.

(** One row of [addFunctionToImage]. *)
Lemma add_row_pixel (im : MaskedImage D) (row : Z) (F : nat -> D) (n : nat) x y :
  pixel_at (foldl (fun im (col : nat) => add_at im (Z.of_nat col) row (F col)) im (seq 0 n)) x y
  = if (y =? row) && (0 <=? x) && (x <? Z.of_nat n)
    then with_added (pixel_at im x y) (F (Z.to_nat x))
    else pixel_at im x y.
Proof.
  induction n as [|n IH].
  - simpl. case_compare.
  - rewrite seq_S, foldl_app. simpl. rewrite IH. clear IH.
    case_compare. subst. rewrite Nat2Z.id. done.
Qed.

Lemma add_row_dims (im : MaskedImage D) (row : Z) (F : nat -> D) (l : list nat) :
  getWidth (foldl (fun im (col : nat) => add_at im (Z.of_nat col) row (F col)) im l)
  = getWidth im.
Proof. revert im. induction l as [|c l IH]; intros im; [done|]. simpl. by rewrite IH. Qed.

(** [addFunctionToImage] adds the function's value at [(x,y)] to the
    intensity of every pixel [(x,y)] of the image, and nothing else. *)
Lemma addFunctionToImage_pixel (img : MaskedImage D) (function : D -> D -> D) x y :
  0 <= x < getWidth img -> getWidth img <= INT_MAX ->
  0 <= y < getHeight img -> getHeight img <= INT_MAX ->
  pixel_at (addFunctionToImage img function) x y
  = with_added (pixel_at img x y) (function (positionToIndex x) (positionToIndex y)).
Proof.
  intros Hx Hw Hy Hh. unfold addFunctionToImage.
  unfold INT_MAX in *.
  rewrite !to_unsigned_small by (unfold UINT_MODULUS; lia).
  set (nc := Z.to_nat (getWidth img)).
  assert (forall m im,
    pixel_at (foldl (fun im (row : nat) =>
                foldl (fun im (col : nat) =>
                         add_at im (Z.of_nat col) (Z.of_nat row)
                                (function (positionToIndex (Z.of_nat col))
                                          (positionToIndex (Z.of_nat row))))
                      im (seq 0 nc)) im (seq 0 m)) x y
    = if (y <? Z.of_nat m)
      then with_added (pixel_at im x y) (function (positionToIndex x) (positionToIndex y))
      else pixel_at im x y) as Hrows.
  { induction m as [|m IH]; intros im.
    - simpl. case_compare.
    - rewrite seq_S, foldl_app. simpl.
      rewrite (add_row_pixel _ (Z.of_nat m)
                 (fun col => function (positionToIndex (Z.of_nat col))
                                      (positionToIndex (Z.of_nat m)))).
      rewrite IH. case_compare. subst. rewrite Z2Nat.id by lia. done. }
  rewrite Hrows. case_compare.
Qed.

(** The intensity the four overloads compute at a pixel of the image:
    the convolution, plus the background, minus [imageToNotConvolve],
    times -1. *)
Lemma difference_as_computed (imageToConvolve imageToNotConvolve : MaskedImage D)
    (kernel : K) (linear : LinearCombinationKernel K D)
    (background : D) (backgroundFunction : D -> D -> D) (x y : Z) :
  0 <= x < getWidth imageToConvolve -> getWidth imageToConvolve <= INT_MAX ->
  0 <= y < getHeight imageToConvolve -> getHeight imageToConvolve <= INT_MAX ->
  let edgeMaskBit := getMaskPlane imageToConvolve "EDGE" in
  let toMatch := image (pixel_at imageToNotConvolve x y) in
  let convolution := image (convolve imageToConvolve kernel false edgeMaskBit x y) in
  let convolutionLinear := image (convolveLinear imageToConvolve linear edgeMaskBit x y) in
  let backgroundHere := backgroundFunction (positionToIndex x) (positionToIndex y) in
  image (pixel_at (convolveAndSubtract imageToConvolve imageToNotConvolve kernel background) x y)
  = fmul (fsub (fadd convolution background) toMatch) (of_Z (-1))
  /\ image (pixel_at (convolveAndSubtract_linear imageToConvolve imageToNotConvolve
                        linear background) x y)
     = fmul (fsub (fadd convolutionLinear background) toMatch) (of_Z (-1))
  /\ image (pixel_at (convolveAndSubtract_function imageToConvolve imageToNotConvolve
                        kernel backgroundFunction) x y)
     = fmul (fsub (fadd convolution backgroundHere) toMatch) (of_Z (-1))
  /\ image (pixel_at (convolveAndSubtract_linear_function imageToConvolve imageToNotConvolve
                        linear backgroundFunction) x y)
     = fmul (fsub (fadd convolutionLinear backgroundHere) toMatch) (of_Z (-1)).
Proof.
  intros Hx Hw Hy Hh. simpl.
  unfold convolveAndSubtract, convolveAndSubtract_linear,
    convolveAndSubtract_function, convolveAndSubtract_linear_function.
  split_and!; simpl; rewrite ?addFunctionToImage_pixel by done; simpl; done.
Qed.

(** In arithmetic where negating a difference swaps its operands. *)
Lemma difference_in_exact_arithmetic
    (imageToConvolve imageToNotConvolve : MaskedImage D) (kernel : K) (background : D)
    (x y : Z) :
  exact_negation D ->
  image (pixel_at (convolveAndSubtract imageToConvolve imageToNotConvolve kernel background) x y)
  = fsub (image (pixel_at imageToNotConvolve x y))
         (fadd (image (convolve imageToConvolve kernel false
                         (getMaskPlane imageToConvolve "EDGE") x y)) background).
Proof. intros Hneg. simpl. apply Hneg. Qed.

End DifferenceFacts.

Lemma real_exact_negation : exact_negation R.
Proof. intros a b. simpl. lra. Qed.

(** C5: for both kinds of kernel and both kinds of background, the
    intensity of every pixel of the image [convolveAndSubtract] returns
    is, in the arithmetic of doubles, the same number as that of
    [imageToNotConvolve] minus (the value [convolve] or [convolveLinear]
    gives for [imageToConvolve] at that pixel, plus the background at
    that pixel).  The code computes it as ((convolution + background) -
    imageToNotConvolve) * -1.0, which is that number: not-a-number when
    it is, and otherwise equal to it, a zero being returned as -0. *)
Theorem difference_is_match_minus_model {K : Type} `{Afw float K}
    (imageToConvolve imageToNotConvolve : MaskedImage float)
    (kernel : K) (linear : LinearCombinationKernel K float)
    (background : float) (backgroundFunction : float -> float -> float) (x y : Z) :
  0 <= x < getWidth imageToConvolve -> getWidth imageToConvolve <= INT_MAX ->
  0 <= y < getHeight imageToConvolve -> getHeight imageToConvolve <= INT_MAX ->
  let edgeMaskBit := getMaskPlane imageToConvolve "EDGE" in
  let toMatch := image (pixel_at imageToNotConvolve x y) in
  let convolution := image (convolve imageToConvolve kernel false edgeMaskBit x y) in
  let convolutionLinear := image (convolveLinear imageToConvolve linear edgeMaskBit x y) in
  let backgroundHere := backgroundFunction (positionToIndex x) (positionToIndex y) in
  same_number
    (image (pixel_at (convolveAndSubtract imageToConvolve imageToNotConvolve kernel
                        background) x y))
    (toMatch - (convolution + background))%float
  /\ same_number
       (image (pixel_at (convolveAndSubtract_linear imageToConvolve imageToNotConvolve
                           linear background) x y))
       (toMatch - (convolutionLinear + background))%float
  /\ same_number
       (image (pixel_at (convolveAndSubtract_function imageToConvolve imageToNotConvolve
                           kernel backgroundFunction) x y))
       (toMatch - (convolution + backgroundHere))%float
  /\ same_number
       (image (pixel_at (convolveAndSubtract_linear_function imageToConvolve
                           imageToNotConvolve linear backgroundFunction) x y))
       (toMatch - (convolutionLinear + backgroundHere))%float.
Proof.
  intros Hx Hw Hy Hh.
  destruct (difference_as_computed imageToConvolve imageToNotConvolve kernel linear
              background backgroundFunction x y Hx Hw Hy Hh) as (H1 & H2 & H3 & H4).
  cbv zeta in *. rewrite H1, H2, H3, H4.
  change (of_Z (-1)) with (-1)%float.
  split_and!; apply negated_difference.
Qed.

(** [six_template] and [six_science] with the kernel whose unit pixel is
    right of its centre, at the pixel (1,0): the convolution is the
    template at column 2, that is 1, and the science image holds 6.  With
    the background 5 the difference is 6 - (1 + 5), a zero; with the
    background function [col + row] it is 6 - (1 + 1) = 4. *)
Lemma difference_is_match_minus_model_witness :
  same_number
    (image (pixel_at (convolveAndSubtract six_template six_science right_stencil 5%float)
                     1 0))
    (6 - (1 + 5))%float
  /\ same_number
       (image (pixel_at (convolveAndSubtract_function six_template six_science
                           right_stencil PrimFloat.add) 1 0))
       (6 - (1 + (1 + 0)))%float.
Proof.
  assert (0 <= 1 < getWidth six_template) as Hx by (simpl; lia).
  assert (getWidth six_template <= INT_MAX) as Hw by (vm_compute; discriminate).
  assert (0 <= 0 < getHeight six_template) as Hy by (simpl; lia).
  assert (getHeight six_template <= INT_MAX) as Hh by (vm_compute; discriminate).
  destruct (difference_is_match_minus_model six_template six_science right_stencil
              (mkLinearCombinationKernel [right_stencil] [1%float]) 5%float PrimFloat.add
              1 0 Hx Hw Hy Hh) as (H1 & _ & H3 & _).
  split; [exact H1|exact H3].
Defined.

(* ===================================================================== *)
(** * Footprint selector: properties *)
(* ===================================================================== *)

Section SelectorFacts.
  Context {D Footprint : Type} `{Scalar D} `{Floating D} `{Detection D Footprint}.
  Variables (imageToConvolve imageToNotConvolve : MaskedImage D) (policy : Policy D).

(** The body of the pass never throws: the only calls that can are inside
    the [try] block, whose handler is [continue]. *)
Lemma examine_done (i : Footprint) :
  examine imageToConvolve imageToNotConvolve policy i
  = Done (if clean imageToConvolve imageToNotConvolve policy i
          then Some (growFootprint i (to_unsigned (footprintDiffimGrow policy))) else None).
Proof.
  unfold examine, clean, extractable.
  destruct (to_unsigned (getNpix i) <? _); [done|].
  destruct (0 <? findSetBits imageToConvolve _); [done|].
  destruct (0 <? findSetBits imageToNotConvolve _); [done|].
  simpl.
  destruct (subImage imageToConvolve _) as [e|a]; [done|].
  destruct (subImage imageToNotConvolve _) as [e|b]; done.
Qed.


Lemma counted_snoc n (l : list Footprint) x :
  counted n (l ++ [x]) = to_int (counted n l + 1).
Proof. unfold counted. rewrite foldl_app. done. Qed.

(** A pass returns, with the clean footprints grown, in detection order. *)
Lemma scan_footprints_done (footprintListIn : list Footprint) out n :
  scan_footprints imageToConvolve imageToNotConvolve policy footprintListIn (out, n)
  = Done (out ++ accepted imageToConvolve imageToNotConvolve policy footprintListIn,
          counted n (accepted imageToConvolve imageToNotConvolve policy footprintListIn)).
Proof.
  revert out n. induction footprintListIn as [|i rest IH]; intros out n.
  - simpl. unfold accepted. simpl. rewrite app_nil_r. done.
  - simpl. rewrite examine_done. simpl. unfold accepted in *.
    rewrite filter_cons.
    destruct (clean imageToConvolve imageToNotConvolve policy i) eqn:Ec.
    + rewrite decide_True by done. rewrite IH. simpl.
      rewrite <- app_assoc. done.
    + rewrite decide_False by done. apply IH.
Qed.

(** One turn of the [while] whose test holds. *)
Lemma selector_loop_step fuel (k : nat) :
  keep_searching policy (count_before imageToConvolve imageToNotConvolve policy k)
                 (threshold_after policy k) = true ->
  selector_loop imageToConvolve imageToNotConvolve policy (S fuel)
    (threshold_after policy k)
    (list_before imageToConvolve imageToNotConvolve policy k)
    (count_before imageToConvolve imageToNotConvolve policy k)
  = selector_loop imageToConvolve imageToNotConvolve policy fuel
      (threshold_after policy (S k))
      (list_before imageToConvolve imageToNotConvolve policy (S k))
      (count_before imageToConvolve imageToNotConvolve policy (S k)).
Proof.
  intros Hkeep. simpl. rewrite Hkeep, scan_footprints_done. done.
Qed.



(** A threshold that the scaling leaves as it is stays the same. *)
Lemma threshold_fixed (k : nat) :
  fmul (footprintDetectionThreshold policy) (detectionThresholdScaling policy)
  = footprintDetectionThreshold policy ->
  threshold_after policy k = footprintDetectionThreshold policy.
Proof.
  intros Hfix. induction k as [|k IH]; [done|].
  unfold threshold_after in *. simpl. rewrite IH. done.
Qed.

Lemma selector_loop_runs_on (fuel : nat) : forall j : nat,
  (forall i : nat,
     keep_searching policy (count_before imageToConvolve imageToNotConvolve policy i)
                    (threshold_after policy i) = true) ->
  selector_loop imageToConvolve imageToNotConvolve policy fuel
    (threshold_after policy j)
    (list_before imageToConvolve imageToNotConvolve policy j)
    (count_before imageToConvolve imageToNotConvolve policy j) = None.
Proof.
  induction fuel as [|fuel IH]; intros j Hkeep.
  - simpl. rewrite Hkeep. done.
  - rewrite selector_loop_step by apply Hkeep. apply IH. done.
Qed.

End SelectorFacts.




(* ===================================================================== *)
(** * Kernel solver: the accumulation window and the pixel scan *)
(* ===================================================================== *)

(** C3 (as amended): the window of the pixel loops is computed from the
    first basis kernel alone; on each axis its first index is that
    kernel's anchor and its last index is [size - (extent - anchor)], a
    border of [extent - anchor - 1] on the high side; at every index of
    the window the convolution with every basis kernel that has the first
    one's extent and anchor is defined. *)
Theorem window_of_first_kernel {D K : Type} `{KernelLike K}
    (kiter : K) (rest : list K) (citer : MaskedImage D) :
  0 <= getCtrX kiter < kernelWidth kiter -> kernelWidth kiter <= getWidth citer <= INT_MAX ->
  0 <= getCtrY kiter < kernelHeight kiter ->
  kernelHeight kiter <= getHeight citer <= INT_MAX ->
  let w := accumulation_window kiter citer in
  window_as_computed kiter citer w
  /\ forall k, k ∈ kiter :: rest -> same_shape kiter k ->
       forall col row, startCol w <= col < endCol w -> startRow w <= row < endRow w ->
         stencil_fits k citer col row.
Proof.
  intros Hx Hw Hy Hh w.
  assert (window_as_computed kiter citer w) as Hwin.
  { unfold window_as_computed, w, accumulation_window. simpl.
    unfold INT_MAX in *.
    rewrite !to_unsigned_small by (unfold UINT_MODULUS; lia). lia. }
  split; [done|].
  intros k _ (Hkw & Hkh & Hcx & Hcy) col row Hcol Hrow.
  destruct Hwin as (Hsc & Hsr & Hec & Her).
  unfold stencil_fits. rewrite Hkw, Hkh, Hcx, Hcy. lia.
Qed.

(** A 100 by 100 image and the 5 by 5 kernel centred at (2,2): the loops
    run over the indices 2 to 97. *)
Lemma window_of_first_kernel_witness :
  window_as_computed five_stencil wide (mkWindow 2 2 98 98)
  /\ stencil_fits five_stencil wide 97 97.
Proof.
  assert (0 <= getCtrX five_stencil < kernelWidth five_stencil) as Hx by (simpl; lia).
  assert (kernelWidth five_stencil <= getWidth wide <= INT_MAX) as Hw
    by (split; vm_compute; discriminate).
  assert (0 <= getCtrY five_stencil < kernelHeight five_stencil) as Hy by (simpl; lia).
  assert (kernelHeight five_stencil <= getHeight wide <= INT_MAX) as Hh
    by (split; vm_compute; discriminate).
  destruct (window_of_first_kernel five_stencil [] wide Hx Hw Hy Hh) as [Hwin Hfits].
  split; [exact Hwin|].
  apply Hfits.
  - constructor.
  - done.
  - vm_compute. split; [discriminate|reflexivity].
  - vm_compute. split; [discriminate|reflexivity].
Defined.

(** C3, as stated, fails on a 100 by 100 image and the 5 by 5 kernel
    centred at (2,2): the last index of the loops is 97 (the source's own
    example), not 100 - 1 - (5 - 2) = 96. *)
Lemma window_counterexample :
  accumulation_window five_stencil wide = mkWindow 2 2 98 98
  /\ ~ window_as_specified five_stencil wide (accumulation_window five_stencil wide).
Proof.
  split; [vm_compute; reflexivity|].
  intros (_ & _ & Hcol & _). vm_compute in Hcol. discriminate.
Qed.

(** C4: at the end of the scan and the mirroring step every entry of [M]
    and [B] is the sum of the products the claim names, and [M] is
    symmetric; the sums range over the pixels under the locators, which
    are stepped along the row and never brought back to [startCol], and
    not over the window.  At 6 by 6 images and the 5 by 5 kernel centred
    at (2,2) the window is columns 2..3 of rows 2..3 and the second row
    is read at columns 4..5: with the science image [10*y + x] the
    right-hand side is 22+23+34+35 = 114, where the sums over the window
    give 22+23+32+33 = 110. *)
Theorem scan_reads_past_the_window :
  (forall (D : Type) (HD : Scalar D)
          (imageToConvolve imageToNotConvolve varianceImage : MaskedImage D)
          (convolvedImageList : list (MaskedImage D)) (w : Window),
     let MB := normal_equations imageToConvolve imageToNotConvolve varianceImage
                                convolvedImageList w in
     MB = equations_over (visited_pixels w) imageToNotConvolve varianceImage
                         convolvedImageList
     /\ forall i j, entry MB.1 j i = entry MB.1 i j)
  /\ let convolvedImageList := [convolved ones6 five_stencil 4] in
     let w := accumulation_window five_stencil (convolved ones6 five_stencil 4) in
     w = mkWindow 2 2 4 4
     /\ window_pixels w = [(2, 2); (3, 2); (2, 3); (3, 3)]
     /\ visited_pixels w = [(2, 2); (3, 2); (4, 3); (5, 3)]
     /\ normal_equations ones6 ramp6 ones6 convolvedImageList w
        = ([[4; 4]; [4; 4]]%float, [114; 114]%float)
     /\ specified_normal_equations ramp6 ones6 convolvedImageList w
        = ([[4; 4]; [4; 4]]%float, [110; 110]%float)
     /\ normal_equations ones6 ramp6 ones6 convolvedImageList w
        <> specified_normal_equations ramp6 ones6 convolvedImageList w.
Proof.
  split.
  - intros D HD itc itnc var convs w MB. unfold MB.
    rewrite normal_equations_visited. split; [done|].
    intros i j. apply equations_over_symmetric.
  - split_and!; try (vm_compute; reflexivity).
    intros Heq.
    apply (f_equal (fun MB => PrimFloat.eqb (default 0%float (MB.2 !! 0%nat)) 110%float))
      in Heq.
    vm_compute in Heq. discriminate.
Qed.

(* ===================================================================== *)
(** * Kernel solver: the translation of the solution *)
(* ===================================================================== *)

Section TranslateFacts.
  Context {D K : Type} `{Scalar D} `{Floating D}.
  Variables (X : gsl_vector D) (Cov : gsl_matrix D).

Lemma translate_entry_inspect idx kv :
  translate_entry X Cov idx kv
  = match inspect X Cov idx with
    | Pass x c =>
        bind (store kv.1 idx x) (fun kValues =>
        bind (store kv.2 idx (fsqrt c)) (fun kErrValues =>
        Done (kValues, kErrValues)))
    | Reject e => Throw e
    | OutOfRange => Fault
    end.
Proof.
  unfold translate_entry, inspect.
  destruct (gsl_vector_get X idx) as [x|]; simpl; [|done].
  destruct (fisnan x); [done|].
  destruct (gsl_matrix_get Cov idx idx) as [c|]; simpl; [|done].
  destruct (fisnan c); [done|]. destruct (fltb c (of_Z 0)); done.
Qed.

Lemma lookupZ_Some {A} (l : list A) i a :
  lookupZ l i = Some a -> 0 <= i < Z.of_nat (length l).
Proof.
  unfold lookupZ. destruct (Z.leb_spec 0 i); [|done].
  intros Hl. apply lookup_lt_Some in Hl. lia.
Qed.

Lemma lookupZ_in_range {A} (l : list A) i :
  0 <= i < Z.of_nat (length l) -> is_Some (lookupZ l i).
Proof.
  intros Hi. unfold lookupZ. destruct (Z.leb_spec 0 i); [|lia].
  apply lookup_lt_is_Some. lia.
Qed.

Lemma inspect_in_range idx :
  inspect X Cov idx <> OutOfRange -> 0 <= idx < Z.of_nat (length X).
Proof.
  unfold inspect, gsl_vector_get. intros Hi.
  destruct (lookupZ X idx) as [x|] eqn:Ex; [|done].
  by apply lookupZ_Some in Ex.
Qed.

(** With [X] and a square [Cov] of the same size, an index below that size
    is never out of range. *)
Lemma diagonal_in_range (n : nat) idx :
  square n Cov -> 0 <= idx < Z.of_nat n -> is_Some (gsl_matrix_get Cov idx idx).
Proof.
  intros [HC Hrows] Hidx. unfold gsl_matrix_get.
  destruct (lookupZ_in_range Cov idx) as [row Hrow]; [lia|]. rewrite Hrow. simpl.
  assert (length row = n) as Hlen.
  { unfold lookupZ in Hrow. destruct (0 <=? idx); [|done].
    eapply Forall_lookup_1 in Hrows; [|exact Hrow]. done. }
  apply lookupZ_in_range. lia.
Qed.

Lemma inspect_square (n : nat) idx :
  length X = n -> square n Cov -> 0 <= idx < Z.of_nat n -> inspect X Cov idx <> OutOfRange.
Proof.
  intros HX Hsq Hidx. unfold inspect, gsl_vector_get.
  destruct (lookupZ_in_range X idx) as [x ->]; [lia|].
  destruct (fisnan x); [done|].
  destruct (diagonal_in_range n idx Hsq Hidx) as [c ->].
  destruct (fisnan c); [done|]. destruct (fltb c (of_Z 0)); done.
Qed.

Lemma store_Done (v : list D) idx (a : D) (v' : list D) :
  store v idx a = Done v' ->
  0 <= idx < Z.of_nat (length v) /\ v' = <[Z.to_nat idx := a]> v.
Proof.
  unfold store. destruct (Z.leb_spec 0 idx), (Z.ltb_spec idx (Z.of_nat (length v)));
    simpl; intros Hs; try done.
  injection Hs as <-. split; [lia|done].
Qed.

Lemma store_cases (v : list D) idx (a : D) :
  (0 <= idx < Z.of_nat (length v) /\ store v idx a = Done (<[Z.to_nat idx := a]> v))
  \/ (~ 0 <= idx < Z.of_nat (length v) /\ store v idx a = Fault).
Proof.
  unfold store.
  destruct (Z.leb_spec 0 idx), (Z.ltb_spec idx (Z.of_nat (length v))); simpl;
    [left|right..]; split; try done; lia.
Qed.

Lemma store_in_range (v : list D) idx (a : D) :
  0 <= idx < Z.of_nat (length v) -> store v idx a = Done (<[Z.to_nat idx := a]> v).
Proof.
  intros Hi. unfold store.
  destruct (Z.leb_spec 0 idx), (Z.ltb_spec idx (Z.of_nat (length v))); simpl; try lia.
  done.
Qed.

(** The rows of the double loop laid end to end. *)
Lemma translate_cols_add (a b : nat) st :
  translate_cols (a + b) X Cov st
  = bind (translate_cols a X Cov st) (translate_cols b X Cov).
Proof.
  revert st. induction a as [|a IH]; intros st; simpl; [done|].
  destruct (translate_entry X Cov st.1 st.2) as [kv|e|]; simpl; [|done..].
  apply IH.
Qed.

Lemma translate_rows_flat (rows cols : nat) st :
  translate_rows rows cols X Cov st = translate_cols (rows * cols) X Cov st.
Proof.
  revert st. induction rows as [|rows IH]; intros st; simpl; [done|].
  rewrite translate_cols_add.
  destruct (translate_cols cols X Cov st) as [st'|e|]; simpl; [|done..].
  apply IH.
Qed.

(** What [n] turns of the loop from index [idx] come to. *)
Lemma translate_cols_cases (n : nat) : forall idx (kv ke : list D),
  0 <= idx <= Z.of_nat (length X) -> Z.of_nat (length X) < UINT_MODULUS ->
  match translate_cols n X Cov (idx, (kv, ke)) with
  | Done (idx', (kv', ke')) =>
      idx' = idx + Z.of_nat n
      /\ idx + Z.of_nat n <= Z.of_nat (length X)
      /\ length kv' = length kv /\ length ke' = length ke
      /\ ((0 < n)%nat ->
          idx + Z.of_nat n <= Z.of_nat (length kv)
          /\ idx + Z.of_nat n <= Z.of_nat (length ke))
      /\ (forall i, idx <= i < idx + Z.of_nat n ->
            exists x c, inspect X Cov i = Pass x c
              /\ kv' !! Z.to_nat i = Some x /\ ke' !! Z.to_nat i = Some (fsqrt c))
      /\ (forall i : nat, ~ (idx <= Z.of_nat i < idx + Z.of_nat n) ->
            kv' !! i = kv !! i /\ ke' !! i = ke !! i)
  | Throw e =>
      exists i, idx <= i < idx + Z.of_nat n /\ passes_from X Cov idx i /\ inspect X Cov i = Reject e
  | Fault =>
      exists i, idx <= i < idx + Z.of_nat n /\ passes_from X Cov idx i
        /\ (inspect X Cov i = OutOfRange
            \/ Z.of_nat (length kv) <= i \/ Z.of_nat (length ke) <= i)
  end.
Proof.
  induction n as [|n IH]; intros idx kv ke Hidx HX.
  - simpl. split_and!; try done; try lia.
  - simpl. rewrite translate_entry_inspect. simpl.
    destruct (inspect X Cov idx) as [x c|e|] eqn:Ei; cycle 1.
    { exists idx. split; [lia|]. split; [intros j Hj; lia|done]. }
    { exists idx. split; [lia|]. split; [intros j Hj; lia|by left]. }
    assert (0 <= idx < Z.of_nat (length X)) as Hin
      by (apply inspect_in_range; rewrite Ei; done).
    destruct (store_cases kv idx x) as [[Hkv ->]|[Hkv ->]]; simpl; cycle 1.
    { exists idx. split; [lia|]. split; [intros j Hj; lia|]. right. left. lia. }
    destruct (store_cases ke idx (fsqrt c)) as [[Hke ->]|[Hke ->]]; simpl; cycle 1.
    { exists idx. split; [lia|]. split; [intros j Hj; lia|]. right. right. lia. }
    rewrite to_unsigned_small by lia.
    specialize (IH (idx + 1) (<[Z.to_nat idx := x]> kv)
                   (<[Z.to_nat idx := fsqrt c]> ke) ltac:(lia) HX).
    destruct (translate_cols n X Cov _) as [[idx' [kv' ke']]|e|].
    + destruct IH as (-> & Hn & Hlkv & Hlke & Hroom & Hnew & Hold).
      rewrite length_insert in Hlkv, Hlke.
      split_and!; try lia.
      * intros _. destruct n as [|n]; [lia|].
        destruct Hroom as [Hr1 Hr2]; [lia|]. rewrite length_insert in Hr1, Hr2. lia.
      * intros i Hi. destruct (decide (i = idx)) as [->|Hne].
        -- exists x, c. split; [done|].
           destruct (Hold (Z.to_nat idx)) as [-> ->]; [lia|].
           rewrite !list_lookup_insert_eq by lia. done.
        -- apply Hnew. lia.
      * intros i Hi. destruct (Hold i) as [-> ->]; [lia|].
        rewrite !list_lookup_insert_ne by lia. done.
    + destruct IH as (i & Hi & Hpass & Hrej). exists i.
      split; [lia|]. split; [|done].
      intros j Hj. destruct (decide (j = idx)) as [->|Hne]; [eauto|].
      apply Hpass. lia.
    + destruct IH as (i & Hi & Hpass & Hbad). exists i.
      split; [lia|]. split.
      * intros j Hj. destruct (decide (j = idx)) as [->|Hne]; [eauto|].
        apply Hpass. lia.
      * rewrite !length_insert in Hbad. done.
Qed.

Lemma inspect_Pass idx x c :
  inspect X Cov idx = Pass x c ->
  gsl_vector_get X idx = Some x /\ gsl_matrix_get Cov idx idx = Some c
  /\ fisnan x = false /\ fisnan c = false /\ fltb c (of_Z 0) = false.
Proof.
  unfold inspect. destruct (gsl_vector_get X idx) as [x'|]; [|done].
  destruct (fisnan x') eqn:Ex; [done|].
  destruct (gsl_matrix_get Cov idx idx) as [c'|]; [|done].
  destruct (fisnan c') eqn:Ec; [done|]. destruct (fltb c' (of_Z 0)) eqn:El; [done|].
  intros [= <- <-]. done.
Qed.

Lemma inspect_Reject idx e :
  inspect X Cov idx = Reject e ->
  e = nan_solution
  \/ exists c, gsl_matrix_get Cov idx idx = Some c
        /\ fisnan c || fltb c (of_Z 0) = true /\ e = uncertainty_error c.
Proof.
  unfold inspect, uncertainty_error.
  destruct (gsl_vector_get X idx) as [x'|]; [|done].
  destruct (fisnan x') eqn:Ex; [intros [= <-]; by left|].
  destruct (gsl_matrix_get Cov idx idx) as [c'|]; [|done].
  destruct (fisnan c') eqn:Ec.
  { intros [= <-]. right. exists c'. rewrite Ec. done. }
  destruct (fltb c' (of_Z 0)) eqn:El; [|done].
  intros [= <-]. right. exists c'. rewrite Ec, El. done.
Qed.

Lemma inspect_passes idx x c :
  gsl_vector_get X idx = Some x -> gsl_matrix_get Cov idx idx = Some c ->
  fisnan x = false -> fisnan c = false -> fltb c (of_Z 0) = false ->
  inspect X Cov idx = Pass x c.
Proof. unfold inspect. intros -> -> -> -> ->. done. Qed.

End TranslateFacts.

Section TranslateOutcomes.
  Context {D K : Type} `{Scalar D} `{Floating D}.
  Variables (policy : Policy D) (kernelInBasisList : list K).
  Variables (X : gsl_vector D) (Cov : gsl_matrix D) (nParameters : Z).

Lemma turns_count :
  (Z.to_nat (to_unsigned (kernelRows policy)) * Z.to_nat (to_unsigned (kernelCols policy)))%nat
  = Z.to_nat (coefficient_count policy).
Proof.
  unfold coefficient_count.
  pose proof (to_unsigned_range (kernelCols policy)).
  pose proof (to_unsigned_range (kernelRows policy)). nia.
Qed.

Lemma coefficient_count_nonneg : 0 <= coefficient_count policy.
Proof.
  unfold coefficient_count.
  pose proof (to_unsigned_range (kernelCols policy)).
  pose proof (to_unsigned_range (kernelRows policy)). nia.
Qed.

(** A call of [translate] that returns. *)
Lemma translate_Done r :
  Z.of_nat (length X) < UINT_MODULUS ->
  translate policy kernelInBasisList nParameters X Cov = Done r ->
  coefficient_count policy <= Z.of_nat (length X)
  /\ getKernelList (kernelPtr r) = kernelInBasisList
  /\ getKernelList (kernelErrorPtr r) = kernelInBasisList
  /\ Z.of_nat (length (getKernelParameters (kernelPtr r))) = coefficient_count policy
  /\ Z.of_nat (length (getKernelParameters (kernelErrorPtr r))) = coefficient_count policy
  /\ (forall i, 0 <= i < coefficient_count policy ->
        exists x c, inspect X Cov i = Pass x c
          /\ getKernelParameters (kernelPtr r) !! Z.to_nat i = Some x
          /\ getKernelParameters (kernelErrorPtr r) !! Z.to_nat i = Some (fsqrt c))
  /\ exists x c,
       gsl_vector_get X (nParameters - 1) = Some x
       /\ gsl_matrix_get Cov (nParameters - 1) (nParameters - 1) = Some c
       /\ fisnan c = false /\ fltb c (of_Z 0) = false
       /\ background r = x /\ backgroundError r = fsqrt c.
Proof.
  intros HX. unfold translate. rewrite translate_rows_flat, turns_count.
  pose proof coefficient_count_nonneg as HP.
  fold (coefficient_count policy).
  set (size := Z.to_nat (to_unsigned (coefficient_count policy))).
  pose proof (translate_cols_cases X Cov (Z.to_nat (coefficient_count policy)) 0
                (replicate size (of_Z 0)) (replicate size (of_Z 0))
                ltac:(lia) HX) as Hloop.
  destruct (translate_cols _ X Cov _) as [[idx' [kv' ke']]|e|]; simpl; [|done..].
  destruct Hloop as (-> & Hfit & Hlkv & Hlke & _ & Hnew & _).
  rewrite length_replicate in Hlkv, Hlke.
  destruct (gsl_matrix_get Cov (nParameters - 1) (nParameters - 1)) as [c|] eqn:Ec;
    simpl; [|done].
  destruct (fisnan c) eqn:Enan; [done|]. destruct (fltb c (of_Z 0)) eqn:Eneg; [done|].
  destruct (gsl_vector_get X (nParameters - 1)) as [x|] eqn:Ex; simpl; [|done].
  intros [= <-]. simpl.
  assert (Z.of_nat size = coefficient_count policy) as Hsize.
  { unfold size. rewrite to_unsigned_small by lia. lia. }
  split_and!; try done; try lia.
  - intros i Hi. apply Hnew. lia.
  - exists x, c. done.
Qed.

(** A call of [translate] that throws. *)
Lemma translate_Throw e :
  Z.of_nat (length X) < UINT_MODULUS ->
  translate policy kernelInBasisList nParameters X Cov = Throw e ->
  e = nan_solution
  \/ exists idx c,
       (0 <= idx < coefficient_count policy \/ idx = nParameters - 1)
       /\ gsl_matrix_get Cov idx idx = Some c
       /\ fisnan c || fltb c (of_Z 0) = true
       /\ e = uncertainty_error c.
Proof.
  intros HX. unfold translate. rewrite translate_rows_flat, turns_count.
  pose proof coefficient_count_nonneg as HP.
  fold (coefficient_count policy).
  set (size := Z.to_nat (to_unsigned (coefficient_count policy))).
  pose proof (translate_cols_cases X Cov (Z.to_nat (coefficient_count policy)) 0
                (replicate size (of_Z 0)) (replicate size (of_Z 0))
                ltac:(lia) HX) as Hloop.
  destruct (translate_cols _ X Cov _) as [[idx' [kv' ke']]|e'|]; simpl; [| |done].
  - destruct (gsl_matrix_get Cov (nParameters - 1) (nParameters - 1)) as [c|] eqn:Ec;
      simpl; [|done].
    unfold uncertainty_error.
    destruct (fisnan c) eqn:Enan.
    { intros [= <-]. right. exists (nParameters - 1), c. rewrite Enan. split_and!; auto. }
    destruct (fltb c (of_Z 0)) eqn:Eneg.
    { intros [= <-]. right. exists (nParameters - 1), c. rewrite Enan, Eneg.
      split_and!; auto. }
    destruct (gsl_vector_get X (nParameters - 1)); done.
  - intros [= <-]. destruct Hloop as (i & Hi & _ & Hrej).
    apply inspect_Reject in Hrej as [->|(c & Hc & Hbad & ->)]; [by left|].
    right. exists i, c. split_and!; auto. left. lia.
Qed.

(** A call of [translate] whose reads are in range and whose checks pass
    returns. *)
Lemma translate_returns :
  Z.of_nat (length X) < UINT_MODULUS ->
  coefficient_count policy <= Z.of_nat (length X) ->
  (forall i, 0 <= i < coefficient_count policy -> exists x c, inspect X Cov i = Pass x c) ->
  (exists x c, inspect X Cov (nParameters - 1) = Pass x c) ->
  exists r, translate policy kernelInBasisList nParameters X Cov = Done r.
Proof.
  intros HX Hfit Hpass (x & c & Hlast).
  apply inspect_Pass in Hlast as (Hx & Hc & _ & Hnan & Hneg).
  unfold translate. rewrite translate_rows_flat, turns_count.
  pose proof coefficient_count_nonneg as HP.
  fold (coefficient_count policy).
  set (size := Z.to_nat (to_unsigned (coefficient_count policy))).
  assert (Z.of_nat size = coefficient_count policy) as Hsize.
  { unfold size. rewrite to_unsigned_small by lia. lia. }
  pose proof (translate_cols_cases X Cov (Z.to_nat (coefficient_count policy)) 0
                (replicate size (of_Z 0)) (replicate size (of_Z 0))
                ltac:(lia) HX) as Hloop.
  destruct (translate_cols _ X Cov _) as [[idx' [kv' ke']]|e'|]; simpl.
  - rewrite Hc. simpl. rewrite Hnan, Hneg, Hx. simpl. eauto.
  - destruct Hloop as (i & Hi & _ & Hrej).
    destruct (Hpass i) as (x' & c' & Hp); [lia|]. congruence.
  - destruct Hloop as (i & Hi & _ & Hbad). rewrite !length_replicate in Hbad.
    destruct (Hpass i) as (x' & c' & Hp); [lia|].
    destruct Hbad as [Hbad|Hbad]; [congruence|lia].
Qed.

(** A call of [translate] whose loop runs past the end of [X] while every
    entry of [X] passes the checks reads out of range. *)
Lemma translate_overruns :
  Z.of_nat (length X) < UINT_MODULUS ->
  Z.of_nat (length X) < coefficient_count policy ->
  (forall i, 0 <= i < Z.of_nat (length X) -> exists x c, inspect X Cov i = Pass x c) ->
  translate policy kernelInBasisList nParameters X Cov = Fault.
Proof.
  intros HX Hover Hpass.
  unfold translate. rewrite translate_rows_flat, turns_count.
  pose proof coefficient_count_nonneg as HP.
  fold (coefficient_count policy).
  set (size := Z.to_nat (to_unsigned (coefficient_count policy))).
  pose proof (translate_cols_cases X Cov (Z.to_nat (coefficient_count policy)) 0
                (replicate size (of_Z 0)) (replicate size (of_Z 0))
                ltac:(lia) HX) as Hloop.
  assert (forall i, passes_from X Cov 0 i -> i <= Z.of_nat (length X)) as Hstop.
  { intros i Hi. destruct (decide (i <= Z.of_nat (length X))) as [|Hgt]; [done|].
    destruct (Hi (Z.of_nat (length X))) as (x & c & Hp); [lia|].
    assert (inspect X Cov (Z.of_nat (length X)) <> OutOfRange) as Hin by congruence.
    apply inspect_in_range in Hin. lia. }
  destruct (translate_cols _ X Cov _) as [[idx' [kv' ke']]|e'|]; simpl.
  - destruct Hloop as (_ & Hfit & _). lia.
  - destruct Hloop as (i & Hi & Hfrom & Hrej). apply Hstop in Hfrom.
    destruct (decide (i = Z.of_nat (length X))) as [->|Hne].
    + assert (inspect X Cov (Z.of_nat (length X)) <> OutOfRange) as Hin by congruence.
      apply inspect_in_range in Hin. lia.
    + destruct (Hpass i) as (x & c & Hp); [lia|]. congruence.
  - done.
Qed.

(** With [X] and [Cov] of [n] entries a side, a loop of at most [n] turns
    stays inside them. *)
Lemma translate_in_bounds (n : nat) :
  length X = n -> square n Cov -> nParameters = Z.of_nat n -> (0 < n)%nat ->
  Z.of_nat n < UINT_MODULUS -> coefficient_count policy <= Z.of_nat n ->
  translate policy kernelInBasisList nParameters X Cov <> Fault.
Proof.
  intros HlenX Hsq -> Hpos HX Hfit.
  unfold translate. rewrite translate_rows_flat, turns_count.
  pose proof coefficient_count_nonneg as HP.
  fold (coefficient_count policy).
  set (size := Z.to_nat (to_unsigned (coefficient_count policy))).
  assert (Z.of_nat size = coefficient_count policy) as Hsize.
  { unfold size. rewrite to_unsigned_small by lia. lia. }
  pose proof (translate_cols_cases X Cov (Z.to_nat (coefficient_count policy)) 0
                (replicate size (of_Z 0)) (replicate size (of_Z 0))
                ltac:(lia) ltac:(lia)) as Hloop.
  destruct (translate_cols _ X Cov _) as [[idx' [kv' ke']]|e'|]; simpl.
  - destruct (diagonal_in_range Cov n (Z.of_nat n - 1) Hsq ltac:(lia)) as [c ->]. simpl.
    destruct (fisnan c); [done|]. destruct (fltb c (of_Z 0)); [done|].
    destruct (lookupZ_in_range X (Z.of_nat n - 1) ltac:(lia)) as [x Hx].
    unfold gsl_vector_get. rewrite Hx. done.
  - done.
  - destruct Hloop as (i & Hi & _ & Hbad). rewrite !length_replicate in Hbad.
    destruct Hbad as [Hbad|Hbad]; [|lia].
    exfalso. revert Hbad. apply (inspect_square X Cov n); [done..|lia].
Qed.

End TranslateOutcomes.

(* ===================================================================== *)
(** * Kernel solver: the solution and what is made of it *)
(* ===================================================================== *)

Section SolverFacts.
  Context {D K : Type} `{Scalar D} `{Floating D} `{KernelLike K} `{Afw D K} `{Gsl D}.

Lemma written_into_length (v result : gsl_vector D) :
  length (written_into v result) = length v.
Proof.
  unfold written_into. rewrite length_take, length_app, length_drop. lia.
Qed.

(** The solution has as many entries as were allocated for it. *)
Lemma solve_length (nParameters : nat) (M : gsl_matrix D) (B : gsl_vector D) :
  length (solve nParameters M B) = nParameters.
Proof.
  unfold solve.
  destruct (gsl_linalg_balance_columns M) as [A Dv].
  destruct (gsl_linalg_SV_decomp_mod A) as [[[A' Q] Sv] xt].
  destruct (scale_by_singular_values nParameters Sv Q) as [QSI rank].
  unfold gsl_vector_div. rewrite !written_into_length.
  unfold gsl_vector_zero. apply length_replicate.
Qed.

Lemma solver_translates (imageToConvolve imageToNotConvolve varianceImage : MaskedImage D)
    (kernelInBasisList : list K) (policy : Policy D) (Cov : gsl_matrix D) :
  kernelInBasisList <> [] ->
  computePsfMatchingKernelForFootprint imageToConvolve imageToNotConvolve varianceImage
    kernelInBasisList policy Cov
  = translate policy kernelInBasisList (Z.of_nat (S (length kernelInBasisList)))
      (solution_of imageToConvolve imageToNotConvolve varianceImage kernelInBasisList) Cov
  /\ length (solution_of imageToConvolve imageToNotConvolve varianceImage kernelInBasisList)
     = S (length kernelInBasisList).
Proof.
  intros Hne. unfold computePsfMatchingKernelForFootprint, solution_of.
  destruct kernelInBasisList as [|kiter rest]; [done|]. simpl.
  split; [done|]. apply solve_length.
Qed.

Lemma solver_empty_basis (imageToConvolve imageToNotConvolve varianceImage : MaskedImage D)
    (policy : Policy D) (Cov : gsl_matrix D) :
  computePsfMatchingKernelForFootprint imageToConvolve imageToNotConvolve varianceImage
    [] policy Cov = Fault.
Proof. done. Qed.

(** The error outputs of a call that returns are the square roots of the
    diagonal of the block passed as [Cov], whatever the images. *)
Lemma error_outputs_from_block
    (imageToConvolve imageToNotConvolve varianceImage : MaskedImage D)
    (kernelInBasisList : list K) (policy : Policy D) (Cov : gsl_matrix D) r :
  Z.of_nat (length kernelInBasisList) < INT_MAX ->
  computePsfMatchingKernelForFootprint imageToConvolve imageToNotConvolve varianceImage
    kernelInBasisList policy Cov = Done r ->
  (forall i, 0 <= i < coefficient_count policy ->
     exists c, gsl_matrix_get Cov i i = Some c
       /\ getKernelParameters (kernelErrorPtr r) !! Z.to_nat i = Some (fsqrt c))
  /\ Z.of_nat (length (getKernelParameters (kernelErrorPtr r))) = coefficient_count policy
  /\ exists c,
       gsl_matrix_get Cov (Z.of_nat (length kernelInBasisList))
                      (Z.of_nat (length kernelInBasisList)) = Some c
       /\ backgroundError r = fsqrt c.
Proof.
  intros Hint Hrun.
  destruct kernelInBasisList as [|kiter rest] eqn:Ebasis; [done|].
  rewrite <- Ebasis in *.
  destruct (solver_translates imageToConvolve imageToNotConvolve varianceImage
              kernelInBasisList policy Cov) as [Heq Hlen]; [by rewrite Ebasis|].
  rewrite Heq in Hrun. apply translate_Done in Hrun.
  2:{ rewrite Hlen. unfold INT_MAX, UINT_MODULUS in *. lia. }
  destruct Hrun as (_ & _ & _ & _ & Hcount & Hentries & (x & c & _ & Hc & _ & _ & _ & Hbg)).
  split_and!.
  - intros i Hi. destruct (Hentries i Hi) as (x' & c' & Hp & _ & He).
    apply inspect_Pass in Hp as (_ & Hc' & _). eauto.
  - done.
  - exists c. split; [|done]. rewrite <- Hc. f_equal; lia.
Qed.

End SolverFacts.

(** C9: the translation reads the solution and the covariance at the
    indices [0 .. kernelCols*kernelRows - 1], taken from the policy, while
    both have [|basis|+1] entries.  When [kernelCols*kernelRows = |basis|]
    every access is in range and both kernels built have one coefficient
    per basis element; when it is not, no call returns such kernels, a
    call whose loop runs past the entries reads out of range, and no check
    of the shape stands in the way: a call whose entries pass the
    not-a-number and sign checks returns all the same. *)
Theorem translation_needs_matching_shape {D K : Type} `{Scalar D} `{Floating D}
    (policy : Policy D) (kernelInBasisList : list K)
    (X : gsl_vector D) (Cov : gsl_matrix D) :
  let nParameters := S (length kernelInBasisList) in
  let count := coefficient_count policy in
  let run := translate policy kernelInBasisList (Z.of_nat nParameters) X Cov in
  Z.of_nat (length kernelInBasisList) < INT_MAX ->
  length X = nParameters -> square nParameters Cov ->
  (forall r, run = Done r ->
     count <= Z.of_nat nParameters
     /\ Z.of_nat (length (getKernelParameters (kernelPtr r))) = count
     /\ Z.of_nat (length (getKernelParameters (kernelErrorPtr r))) = count
     /\ forall i, 0 <= i < count ->
          getKernelParameters (kernelPtr r) !! Z.to_nat i = gsl_vector_get X i
          /\ getKernelParameters (kernelErrorPtr r) !! Z.to_nat i
             = fsqrt <$> gsl_matrix_get Cov i i)
  /\ (count = Z.of_nat (length kernelInBasisList) ->
      run <> Fault
      /\ forall r, run = Done r ->
           lck_well_formed (kernelPtr r) /\ lck_well_formed (kernelErrorPtr r))
  /\ (count <> Z.of_nat (length kernelInBasisList) ->
      forall r, run = Done r ->
        ~ lck_well_formed (kernelPtr r) /\ ~ lck_well_formed (kernelErrorPtr r))
  /\ (Z.of_nat nParameters < count ->
      (forall i, 0 <= i < Z.of_nat nParameters -> exists x c, inspect X Cov i = Pass x c) ->
      run = Fault)
  /\ (count <= Z.of_nat nParameters ->
      (forall i, 0 <= i < Z.of_nat nParameters -> exists x c, inspect X Cov i = Pass x c) ->
      exists r, run = Done r).
Proof.
  intros nParameters count run Hint HlenX Hsq.
  assert (Z.of_nat (length X) < UINT_MODULUS) as HX.
  { rewrite HlenX. unfold nParameters, INT_MAX, UINT_MODULUS in *. lia. }
  assert (forall r, run = Done r ->
            count <= Z.of_nat nParameters
            /\ getKernelList (kernelPtr r) = kernelInBasisList
            /\ getKernelList (kernelErrorPtr r) = kernelInBasisList
            /\ Z.of_nat (length (getKernelParameters (kernelPtr r))) = count
            /\ Z.of_nat (length (getKernelParameters (kernelErrorPtr r))) = count) as Hshape.
  { intros r Hr. apply translate_Done in Hr; [|done].
    destruct Hr as (Hfit & Hk & Hke & Hl & Hle & _). rewrite HlenX in Hfit. done. }
  split_and!.
  - intros r Hr. destruct (Hshape r Hr) as (Hfit & _ & _ & Hl & Hle).
    split_and!; try done.
    intros i Hi. apply translate_Done in Hr; [|done].
    destruct Hr as (_ & _ & _ & _ & _ & Hentries & _).
    destruct (Hentries i Hi) as (x & c & Hp & -> & ->).
    apply inspect_Pass in Hp as (-> & -> & _). done.
  - intros Hcount. split.
    + apply (translate_in_bounds policy kernelInBasisList X Cov _ nParameters);
        try done; unfold nParameters, INT_MAX, UINT_MODULUS in *; fold count; lia.
    + intros r Hr. destruct (Hshape r Hr) as (_ & Hk & Hke & Hl & Hle).
      unfold lck_well_formed. rewrite Hk, Hke. lia.
  - intros Hcount r Hr. destruct (Hshape r Hr) as (_ & Hk & Hke & Hl & Hle).
    unfold lck_well_formed. rewrite Hk, Hke. lia.
  - intros Hover Hpass. apply translate_overruns; [done|fold count; lia|].
    intros i Hi. apply Hpass. lia.
  - intros Hfit Hpass. apply translate_returns; [done|fold count; lia| |].
    + intros i Hi. apply Hpass. fold count in Hi. lia.
    + apply Hpass. unfold nParameters. lia.
Qed.

(** With one basis kernel and a 1 by 1 policy the shapes match and the
    call returns well-formed kernels; with two basis kernels and the same
    policy it returns kernels of one coefficient over two basis elements. *)
Lemma translation_needs_matching_shape_witness :
  (forall r, translate unit_policy [unit_stencil] 2 solution block_a = Done r ->
     lck_well_formed (kernelPtr r) /\ lck_well_formed (kernelErrorPtr r))
  /\ (forall r,
        translate unit_policy [unit_stencil; unit_stencil] 3 solution3 block3 = Done r ->
        ~ lck_well_formed (kernelPtr r) /\ ~ lck_well_formed (kernelErrorPtr r))
  /\ exists r, translate unit_policy [unit_stencil; unit_stencil] 3 solution3 block3 = Done r.
Proof.
  assert (forall n (m : list (list float)),
            length m = n -> forallb (fun row => Nat.eqb (length row) n) m = true ->
            square n m) as Hsquare.
  { intros n m Hn Hrows. split; [done|]. apply Forall_forall. intros row Hrow.
    apply Nat.eqb_eq. eapply forallb_forall in Hrows; [done|].
    by apply list_elem_of_In. }
  split_and!.
  - apply (translation_needs_matching_shape unit_policy [unit_stencil] solution block_a).
    + vm_compute. reflexivity.
    + reflexivity.
    + apply Hsquare; reflexivity.
    + reflexivity.
  - apply (translation_needs_matching_shape unit_policy [unit_stencil; unit_stencil]
             solution3 block3).
    + vm_compute. reflexivity.
    + reflexivity.
    + apply Hsquare; reflexivity.
    + vm_compute. discriminate.
  - apply (translation_needs_matching_shape unit_policy [unit_stencil; unit_stencil]
             solution3 block3).
    + vm_compute. reflexivity.
    + reflexivity.
    + apply Hsquare; reflexivity.
    + vm_compute. discriminate.
    + intros i Hi. simpl in Hi.
      assert (i = 0 \/ i = 1 \/ i = 2) as [-> | [-> | ->]] by lia;
        vm_compute; eauto.
Defined.

(** C7 (as amended): a fit error the solver raises over a checked diagonal
    covariance entry (one of the kernel entries or the background entry)
    tells whether the entry is not-a-number or negative, and carries the
    entry's value when it is negative; over a kernel entry it is the same
    error whichever kernel parameter the entry belongs to. *)
Theorem fit_error_tells_the_value {D K : Type}
    `{Scalar D} `{Floating D} `{KernelLike K} `{Afw D K} `{Gsl D}
    (imageToConvolve imageToNotConvolve varianceImage : MaskedImage D)
    (kernelInBasisList : list K) (policy : Policy D) (Cov : gsl_matrix D)
    (e : Exception D) :
  Z.of_nat (length kernelInBasisList) < INT_MAX ->
  computePsfMatchingKernelForFootprint imageToConvolve imageToNotConvolve varianceImage
    kernelInBasisList policy Cov = Throw e ->
  e <> nan_solution ->
  exists idx c,
    (0 <= idx < coefficient_count policy \/ idx = Z.of_nat (length kernelInBasisList))
    /\ gsl_matrix_get Cov idx idx = Some c
    /\ fisnan c || fltb c (of_Z 0) = true
    /\ format_arg e = (if fisnan c then None else Some c)
    /\ (0 <= idx < coefficient_count policy ->
        e = (if fisnan c then nan_uncertainty else negative_variance c)).
Proof.
  intros Hint Hrun Hsol.
  destruct kernelInBasisList as [|kiter rest] eqn:Ebasis; [done|].
  rewrite <- Ebasis in *.
  destruct (solver_translates imageToConvolve imageToNotConvolve varianceImage
              kernelInBasisList policy Cov) as [Heq Hlen]; [by rewrite Ebasis|].
  rewrite Heq in Hrun. apply translate_Throw in Hrun.
  2:{ rewrite Hlen. unfold INT_MAX, UINT_MODULUS in *. lia. }
  destruct Hrun as [->|(idx & c & Hidx & Hc & Hbad & ->)]; [done|].
  exists idx, c.
  split; [destruct Hidx as [Hidx| ->]; [by left|right; lia]|].
  split; [exact Hc|]. split; [exact Hbad|].
  unfold uncertainty_error. split; [destruct (fisnan c); reflexivity|reflexivity].
Qed.

(** [six_template] with a block whose entry of kernel parameter 1 is -1:
    the error carries -1. *)
Lemma fit_error_tells_the_value_witness :
  exists idx c,
    (0 <= idx < coefficient_count two_policy \/ idx = 2)
    /\ gsl_matrix_get negative_kernel1 idx idx = Some c
    /\ fisnan c || fltb c (of_Z 0) = true
    /\ format_arg (negative_variance (-1)%float) = (if fisnan c then None else Some c)
    /\ (0 <= idx < coefficient_count two_policy ->
        negative_variance (-1)%float
        = (if fisnan c then nan_uncertainty else negative_variance c)).
Proof.
  apply (fit_error_tells_the_value six_template six_science six_variance
           [left_stencil; right_stencil] two_policy negative_kernel1
           (negative_variance (-1)%float)).
  - vm_compute. reflexivity.
  - vm_compute. reflexivity.
  - discriminate.
Defined.

(** C7, as stated, fails on [six_template] with two basis kernels: the
    same error is raised when the entry of kernel parameter 0 is
    not-a-number as when that of kernel parameter 1 is, and likewise for
    negative entries, so no reading of the error tells which parameter
    failed. *)
Lemma fit_error_counterexample :
  (computePsfMatchingKernelForFootprint six_template six_science six_variance
     [left_stencil; right_stencil] two_policy nan_kernel0 = Throw nan_uncertainty
   /\ failing_parameter two_policy 3 nan_kernel0 = Some 0)
  /\ (computePsfMatchingKernelForFootprint six_template six_science six_variance
        [left_stencil; right_stencil] two_policy nan_kernel1 = Throw nan_uncertainty
      /\ failing_parameter two_policy 3 nan_kernel1 = Some 1)
  /\ (computePsfMatchingKernelForFootprint six_template six_science six_variance
        [left_stencil; right_stencil] two_policy negative_kernel0
      = Throw (negative_variance (-1)%float)
      /\ failing_parameter two_policy 3 negative_kernel0 = Some 0)
  /\ (computePsfMatchingKernelForFootprint six_template six_science six_variance
        [left_stencil; right_stencil] two_policy negative_kernel1
      = Throw (negative_variance (-1)%float)
      /\ failing_parameter two_policy 3 negative_kernel1 = Some 1)
  /\ ~ exists parameter_of : Exception float -> Z,
         forall (Cov : gsl_matrix float) (e : Exception float) (idx : Z),
           computePsfMatchingKernelForFootprint six_template six_science six_variance
             [left_stencil; right_stencil] two_policy Cov = Throw e ->
           failing_parameter two_policy 3 Cov = Some idx ->
           parameter_of e = idx.
Proof.
  split_and!; try (vm_compute; reflexivity).
  intros [parameter_of Hnames].
  assert (parameter_of nan_uncertainty = 0) as H0
    by (apply (Hnames nan_kernel0); vm_compute; reflexivity).
  assert (parameter_of nan_uncertainty = 1) as H1
    by (apply (Hnames nan_kernel1); vm_compute; reflexivity).
  congruence.
Qed.

(** C1 at the pair of images: the normal equations are [2 0; 0 2] with
    right-hand side [2; 4] and the solution is coefficient 1, background
    2; the error outputs are the square roots of the diagonal of whatever
    the block allocated for [Cov] holds (2 and 3 for [block_a], 4 and 5
    for [block_b]), which the solve never writes. *)
Theorem error_outputs_are_the_allocated_block :
  normal_equations pair_template pair_science pair_variance
    [convolved pair_template unit_stencil 4]
    (accumulation_window unit_stencil (convolved pair_template unit_stencil 4))
  = ([[2; 0]; [0; 2]]%float, [2; 4]%float)
  /\ computePsfMatchingKernelForFootprint pair_template pair_science pair_variance
       [unit_stencil] unit_policy block_a
     = Done (mkFitResult (mkLinearCombinationKernel [unit_stencil] [1%float])
                         (mkLinearCombinationKernel [unit_stencil] [2%float])
                         2%float 3%float)
  /\ computePsfMatchingKernelForFootprint pair_template pair_science pair_variance
       [unit_stencil] unit_policy block_b
     = Done (mkFitResult (mkLinearCombinationKernel [unit_stencil] [1%float])
                         (mkLinearCombinationKernel [unit_stencil] [4%float])
                         2%float 5%float).
Proof. split_and!; vm_compute; reflexivity. Qed.

(* ===================================================================== *)
(** * Statistics engine: properties *)
(* ===================================================================== *)

Lemma foldl_join {A B} (f : A -> B -> A) (a : A) (ls : list (list B)) :
  foldl f a (mjoin ls) = foldl (fun a l => foldl f a l) a ls.
Proof.
  revert a. induction ls as [|l ls IH]; intros a; [done|].
  simpl. rewrite foldl_app. apply IH.
Qed.

Lemma foldl_ext_in {A B} (f g : A -> B -> A) (a : A) (l : list B) :
  (forall a b, b ∈ l -> f a b = g a b) -> foldl f a l = foldl g a l.
Proof.
  revert a. induction l as [|b l IH]; intros a Hfg; [done|].
  simpl. rewrite Hfg by constructor. apply IH.
  intros a' b' Hb'. apply Hfg. by constructor.
Qed.

(** For [n >= 3] the integer quotient [n / (n - 1)] is 1. *)
Lemma integer_scale_factor n : 3 <= n -> Z.quot n (n - 1) = 1.
Proof.
  intros Hn. rewrite Z.quot_div_nonneg by lia.
  symmetry. apply (Z.div_unique n (n - 1) 1 1); lia.
Qed.

Section StatisticsFacts.
  Context {D : Type} `{Scalar D} `{Floating D}.

(** The row-by-row scan is one pass over the pixels in scan order. *)
Lemma scan_image_pixels unmasked (inputImage : MaskedImage D) :
  scan_image unmasked inputImage
  = foldl (accumulate unmasked) (mkSums (of_Z 0) (of_Z 0) 0) (pixels inputImage).
Proof.
  unfold scan_image, pixels. rewrite foldl_join, foldl_fmap.
  apply foldl_ext_in. intros s y _. unfold scan_row. rewrite foldl_fmap. done.
Qed.

Lemma pixels_length (inputImage : MaskedImage D) :
  0 <= getWidth inputImage -> 0 <= getHeight inputImage ->
  Z.of_nat (length (pixels inputImage)) = getWidth inputImage * getHeight inputImage.
Proof.
  intros Hw Hh. unfold pixels. rewrite length_join, <- list_fmap_compose.
  rewrite (sum_list_fmap_same (Z.to_nat (getWidth inputImage))).
  - rewrite length_seq. nia.
  - apply Forall_forall. intros y _. simpl. rewrite length_fmap, length_seq. done.
Qed.

Lemma pixels_elem (inputImage : MaskedImage D) x y :
  0 <= x < getWidth inputImage -> 0 <= y < getHeight inputImage ->
  pixel_at inputImage x y ∈ pixels inputImage.
Proof.
  intros Hx Hy. unfold pixels. apply list_elem_of_join.
  eexists. split; [|apply (list_elem_of_fmap_2 _ _ (Z.to_nat y)), elem_of_seq; lia].
  simpl. rewrite Z2Nat.id by lia.
  replace x with (Z.of_nat (Z.to_nat x)) at 1 by lia.
  apply (list_elem_of_fmap_2 (fun x0 : nat => pixel_at inputImage (Z.of_nat x0) y)).
  apply elem_of_seq. lia.
Qed.

Lemma accumulate_nGood unmasked (s : Sums) (p : Pixel D) :
  nGood (accumulate unmasked s p)
  = if unmasked (mask p) then to_int (nGood s + 1) else nGood s.
Proof. unfold accumulate. by destruct (unmasked (mask p)). Qed.

(** The counter counts the pixels the test selects, as long as it stays
    below [INT_MAX]. *)
Lemma accumulate_count unmasked (l : list (Pixel D)) (s : Sums) :
  0 <= nGood s -> nGood s + Z.of_nat (length l) <= INT_MAX ->
  nGood (foldl (accumulate unmasked) s l)
  = nGood s + Z.of_nat (length (filter (fun p => unmasked (mask p) = true) l)).
Proof.
  revert s. induction l as [|p l IH]; intros s Hs Hbound; simpl in *; [lia|].
  rewrite filter_cons.
  pose proof (accumulate_nGood unmasked s p) as Hstep.
  destruct (unmasked (mask p)) eqn:Eu.
  - rewrite to_int_small in Hstep by lia.
    rewrite decide_True by done. rewrite IH; simpl; lia.
  - rewrite decide_False by done. rewrite IH; lia.
Qed.

Lemma count_selected unmasked (inputImage : MaskedImage D) :
  0 <= getWidth inputImage -> 0 <= getHeight inputImage ->
  getWidth inputImage * getHeight inputImage <= INT_MAX ->
  nGood (scan_image unmasked inputImage)
  = Z.of_nat (length (selected unmasked inputImage)).
Proof.
  intros Hw Hh Hfit. rewrite scan_image_pixels, accumulate_count; simpl.
  - done.
  - done.
  - rewrite pixels_length by done. done.
Qed.

(** With [badPixelMask = 0] every pixel passes the test. *)
Lemma selected_zero_mask (inputImage : MaskedImage D) :
  selected (fun m => Z.land m 0 =? 0) inputImage = pixels inputImage.
Proof.
  unfold selected. induction (pixels inputImage) as [|p l IH]; [done|].
  rewrite filter_cons, decide_True by (rewrite Z.land_0_r; done). by f_equal.
Qed.

(** The sums are those of the selected pixels, in scan order. *)
Lemma accumulate_sums unmasked (l : list (Pixel D)) (s : Sums) :
  xSum (foldl (accumulate unmasked) s l)
  = foldl (fun acc (p : Pixel D) => fadd acc (fdiv (image p) (fsqrt (variance p))))
          (xSum s) (filter (fun p => unmasked (mask p) = true) l)
  /\ x2Sum (foldl (accumulate unmasked) s l)
     = foldl (fun acc (p : Pixel D) =>
                fadd acc (fdiv (fmul (image p) (image p)) (variance p)))
             (x2Sum s) (filter (fun p => unmasked (mask p) = true) l).
Proof.
  revert s. induction l as [|p l IH]; intros s; [done|].
  simpl. rewrite filter_cons. unfold accumulate at 2 4.
  destruct (unmasked (mask p)) eqn:Eu.
  - rewrite decide_True by done. apply IH.
  - rewrite decide_False by done. apply IH.
Qed.

Lemma integer_quotient n : 2 <= n -> Z.quot n (n - 1) = if n =? 2 then 2 else 1.
Proof.
  intros Hn. destruct (Z.eqb_spec n 2) as [->|Hne]; [done|].
  apply integer_scale_factor. lia.
Qed.

Lemma finish_scan unmasked (inputImage : MaskedImage D) :
  0 <= getWidth inputImage -> 0 <= getHeight inputImage ->
  getWidth inputImage * getHeight inputImage <= INT_MAX ->
  finish (scan_image unmasked inputImage)
  = statistics_over (selected unmasked inputImage).
Proof.
  intros Hw Hh Hfit. unfold finish, statistics_over.
  rewrite count_selected by done.
  rewrite scan_image_pixels.
  destruct (accumulate_sums unmasked (pixels inputImage) (mkSums (of_Z 0) (of_Z 0) 0))
    as [-> ->].
  simpl. fold (selected unmasked inputImage).
  set (n := Z.of_nat (length (selected unmasked inputImage))).
  destruct (Z.ltb_spec 1 n) as [Hn|Hn]; [|done].
  rewrite integer_quotient by lia.
  destruct (Z.ltb_spec 0 n); [done|lia].
Qed.

End StatisticsFacts.

(** C10: with an explicit [badPixelMask] of 0 every pixel of the image is
    in the statistics: the count is that of all the pixels and the mean
    and the variance are computed from the sums over all of them, fully
    flagged pixels included; the overload without a mask computes them
    from the pixels whose mask is exactly 0; and the two counts differ on
    any image that holds a pixel with a nonzero mask (for images whose
    pixel count fits the [int] counter). *)
Theorem zero_mask_counts_every_pixel {D : Type} `{Scalar D} `{Floating D}
    (inputImage : MaskedImage D) :
  0 <= getWidth inputImage -> 0 <= getHeight inputImage ->
  getWidth inputImage * getHeight inputImage <= INT_MAX ->
  selected (fun m => Z.land m 0 =? 0) inputImage = pixels inputImage
  /\ calculateMaskedImageStatistics_badPixelMask inputImage 0
     = statistics_over (pixels inputImage)
  /\ calculateMaskedImageStatistics inputImage
     = statistics_over (filter (fun p => mask p = 0) (pixels inputImage))
  /\ nGoodPixels (calculateMaskedImageStatistics_badPixelMask inputImage 0)
     = getWidth inputImage * getHeight inputImage
  /\ nGoodPixels (calculateMaskedImageStatistics inputImage)
     = Z.of_nat (length (filter (fun p => mask p = 0) (pixels inputImage)))
  /\ ((exists x y, 0 <= x < getWidth inputImage /\ 0 <= y < getHeight inputImage
                   /\ mask (pixel_at inputImage x y) <> 0) ->
      nGoodPixels (calculateMaskedImageStatistics_badPixelMask inputImage 0)
      <> nGoodPixels (calculateMaskedImageStatistics inputImage)).
Proof.
  intros Hw Hh Hfit.
  assert (calculateMaskedImageStatistics_badPixelMask inputImage 0
          = statistics_over (pixels inputImage)) as Hall.
  { unfold calculateMaskedImageStatistics_badPixelMask.
    rewrite finish_scan, selected_zero_mask by done. done. }
  assert (calculateMaskedImageStatistics inputImage
          = statistics_over (filter (fun p => mask p = 0) (pixels inputImage))) as Hzero.
  { unfold calculateMaskedImageStatistics. rewrite finish_scan by done.
    unfold selected. f_equal. apply list_filter_iff. intros p. rewrite Z.eqb_eq. done. }
  split; [apply selected_zero_mask|]. split; [exact Hall|]. split; [exact Hzero|].
  rewrite Hall, Hzero. unfold statistics_over. cbn [nGoodPixels].
  split; [apply pixels_length; done|]. split; [done|].
  intros (x & y & Hx & Hy & Hmask).
  rewrite (pixels_length inputImage) by done.
  rewrite <- (pixels_length inputImage) by done.
  pose proof (length_filter_lt (fun p => mask p = 0) (pixels inputImage)
                (pixel_at inputImage x y) (pixels_elem inputImage x y Hx Hy) Hmask).
  lia.
Qed.

(** On [one_flagged], intensities 1 and 5 with the second pixel flagged:
    with the mask 0 both are counted, the mean is 3 and the variance
    ((1 + 25)/2 - 9) * 2 = 8; without a mask the first alone is counted,
    the mean is 1 and the variance not-a-number. *)
Lemma zero_mask_counts_every_pixel_witness :
  calculateMaskedImageStatistics_badPixelMask one_flagged 0
  = mkStatistics 2 3%float 8%float
  /\ calculateMaskedImageStatistics one_flagged = mkStatistics 1 1%float PrimFloat.nan
  /\ nGoodPixels (calculateMaskedImageStatistics_badPixelMask one_flagged 0)
     <> nGoodPixels (calculateMaskedImageStatistics one_flagged).
Proof.
  assert (0 <= getWidth one_flagged) as Hw by (simpl; lia).
  assert (0 <= getHeight one_flagged) as Hh by (simpl; lia).
  assert (getWidth one_flagged * getHeight one_flagged <= INT_MAX) as Hfit
    by (vm_compute; discriminate).
  destruct (zero_mask_counts_every_pixel one_flagged Hw Hh Hfit)
    as (_ & Hall & Hzero & _ & _ & Hne).
  split_and!.
  - rewrite Hall. vm_compute. reflexivity.
  - rewrite Hzero. vm_compute. reflexivity.
  - apply Hne. exists 1, 0. split_and!; simpl; try lia.
Defined.

(** C2 at [three_pixels] (three unmasked pixels, intensities 0, 0, 3,
    unit variances): the sums are 3 and 9 and the mean is 1, as the claim
    says, but the variance returned is 2, the sample variance scaled by
    the integer quotient 3/2 = 1, where the claim's count/(count-1)
    scaling gives 3. *)
Theorem variance_scaled_by_integer_quotient :
  scan_image (fun m => m =? 0) three_pixels = mkSums 3%float 9%float 3
  /\ calculateMaskedImageStatistics three_pixels = mkStatistics 3 1%float 2%float
  /\ calculateMaskedImageStatistics_badPixelMask three_pixels 0
     = mkStatistics 3 1%float 2%float
  /\ unbiased_variance 9%float 3 1%float = 3%float
  /\ residualVariance (calculateMaskedImageStatistics three_pixels)
     <> unbiased_variance 9%float 3 1%float.
Proof.
  split_and!; try (vm_compute; reflexivity).
  intros Heq. apply (f_equal (fun x => PrimFloat.eqb x 3%float)) in Heq.
  vm_compute in Heq. discriminate.
Qed.

(* ===================================================================== *)
(** * Statistics engine: the values returned *)
(* ===================================================================== *)

Section StatisticsValues.
  Context {D : Type} `{Scalar D} `{Floating D}.

(** Every pixel of the scan is a pixel of the image. *)
Lemma pixels_elem_inv (inputImage : MaskedImage D) (p : Pixel D) :
  p ∈ pixels inputImage ->
  exists x y, 0 <= x < getWidth inputImage /\ 0 <= y < getHeight inputImage
              /\ p = pixel_at inputImage x y.
Proof.
  unfold pixels. intros (row & Hp & Hrow)%list_elem_of_join.
  apply list_elem_of_fmap in Hrow as (y & -> & Hy%elem_of_seq).
  apply list_elem_of_fmap in Hp as (x & -> & Hx%elem_of_seq).
  exists (Z.of_nat x), (Z.of_nat y). split_and!; try done; lia.
Qed.

(** Two tests that agree on the masks of the image give the same scan. *)
Lemma scan_image_ext unmasked unmasked' (inputImage : MaskedImage D) :
  (forall x y, 0 <= x < getWidth inputImage -> 0 <= y < getHeight inputImage ->
     unmasked (mask (pixel_at inputImage x y)) = unmasked' (mask (pixel_at inputImage x y))) ->
  scan_image unmasked inputImage = scan_image unmasked' inputImage.
Proof.
  intros Hsame. rewrite !scan_image_pixels. apply foldl_ext_in.
  intros s p (x & y & Hx & Hy & ->)%pixels_elem_inv.
  unfold accumulate. rewrite Hsame by done. done.
Qed.

End StatisticsValues.

(** X1: what the two overloads of [calculateMaskedImageStatistics] return
    on an image whose pixel count fits the [int] counter: the count of
    the pixels their test selects, the mean of [v/sqrt(var)] over them
    (not-a-number when there is none), and the variance
    [(sum of v*v/var)/count - mean*mean] multiplied by the integer
    quotient [count/(count-1)], that is by 2 for two pixels and by 1 for
    more (not-a-number below two pixels).  Pixels the test rejects have no
    part in the result. *)
Theorem statistics_of_selected_pixels {D : Type} `{Scalar D} `{Floating D}
    (inputImage : MaskedImage D) (badPixelMask : Z) :
  0 <= getWidth inputImage -> 0 <= getHeight inputImage ->
  getWidth inputImage * getHeight inputImage <= INT_MAX ->
  calculateMaskedImageStatistics_badPixelMask inputImage badPixelMask
  = statistics_over (selected (fun m => Z.land m badPixelMask =? 0) inputImage)
  /\ calculateMaskedImageStatistics inputImage
     = statistics_over (selected (fun m => m =? 0) inputImage).
Proof.
  intros Hw Hh Hfit. split; apply finish_scan; done.
Qed.

(** On [one_flagged] with the bad bit 1: the pixel of intensity 1 alone
    is selected, the mean is 1 and the variance not-a-number. *)
Lemma statistics_of_selected_pixels_witness :
  calculateMaskedImageStatistics_badPixelMask one_flagged 1
  = statistics_over [px 1 0]
  /\ calculateMaskedImageStatistics one_flagged = statistics_over [px 1 0].
Proof.
  apply (statistics_of_selected_pixels one_flagged 1).
  - simpl. lia.
  - simpl. lia.
  - vm_compute. discriminate.
Defined.

(** X2: with a [badPixelMask] that holds every bit the masks of the image
    can have ([2^bits - 1] for masks below [2^bits]), the overload with a
    mask returns what the overload without one returns. *)
Theorem full_mask_is_the_zero_test {D : Type} `{Scalar D} `{Floating D}
    (inputImage : MaskedImage D) (bits : Z) :
  0 <= bits ->
  (forall x y, 0 <= x < getWidth inputImage -> 0 <= y < getHeight inputImage ->
     0 <= mask (pixel_at inputImage x y) < 2 ^ bits) ->
  calculateMaskedImageStatistics_badPixelMask inputImage (2 ^ bits - 1)
  = calculateMaskedImageStatistics inputImage.
Proof.
  intros Hbits Hmask.
  unfold calculateMaskedImageStatistics_badPixelMask, calculateMaskedImageStatistics.
  f_equal. apply scan_image_ext. intros x y Hx Hy.
  replace (2 ^ bits - 1) with (Z.ones bits) by (rewrite Z.ones_equiv; lia).
  rewrite Z.land_ones by done.
  rewrite Z.mod_small by (apply Hmask; done). done.
Qed.

(** [one_flagged] has masks 0 and 1, below [2^16]. *)
Lemma full_mask_is_the_zero_test_witness :
  calculateMaskedImageStatistics_badPixelMask one_flagged (2 ^ 16 - 1)
  = calculateMaskedImageStatistics one_flagged.
Proof.
  apply (full_mask_is_the_zero_test one_flagged 16); [lia|].
  intros x y Hx Hy. simpl in Hx, Hy.
  assert (y = 0) as -> by lia.
  assert (x = 0 \/ x = 1) as [-> | ->] by lia; vm_compute; split; congruence.
Defined.

(* ===================================================================== *)
(** * Statistics engine: the quality test *)
(* ===================================================================== *)

(** No number is below not-a-number. *)
Lemma ltb_nan_r (x : float) : PrimFloat.ltb x PrimFloat.nan = false.
Proof.
  rewrite FloatAxioms.ltb_spec. change (Prim2SF PrimFloat.nan) with S754_nan.
  unfold SFltb, SFcompare. destruct (Prim2SF x) as [[]|[]| |[] m e]; done.
Qed.

(** X3: [DifferenceImageStatistics] built from an image with fewer than
    two pixels of mask 0 holds a standard deviation that is not-a-number,
    and [evaluateQuality] then tests the mean alone; built from an image
    with no pixel of mask 0 it holds not-a-number twice and
    [evaluateQuality] returns true whatever the thresholds: both tests
    are written [fabs(x) > max], which not-a-number never satisfies. *)
Theorem quality_test_passes_not_a_number
    (differenceMaskedImage : MaskedImage float) (policy : QualityPolicy float) :
  0 <= getWidth differenceMaskedImage -> 0 <= getHeight differenceMaskedImage ->
  getWidth differenceMaskedImage * getHeight differenceMaskedImage <= INT_MAX ->
  Z.of_nat (length (selected (fun m => m =? 0) differenceMaskedImage)) < 2 ->
  let this := DifferenceImageStatistics_of differenceMaskedImage in
  PrimFloat.is_nan (getResidualStd this) = true
  /\ evaluateQuality this policy
     = negb (PrimFloat.ltb (maximumFootprintResidualMean policy)
                           (PrimFloat.abs (getResidualMean this)))
  /\ (selected (fun m => m =? 0) differenceMaskedImage = [] ->
      PrimFloat.is_nan (getResidualMean this) = true
      /\ evaluateQuality this policy = true).
Proof.
  intros Hw Hh Hfit Hfew this.
  assert (this = mkDifferenceImageStatistics
                   (residualMean (statistics_over
                      (selected (fun m => m =? 0) differenceMaskedImage)))
                   PrimFloat.nan) as Hthis.
  { unfold this, DifferenceImageStatistics_of.
    unfold calculateMaskedImageStatistics. rewrite finish_scan by done.
    unfold statistics_over. cbn [residualMean residualVariance].
    destruct (Z.ltb_spec 1 (Z.of_nat (length (selected (fun m => m =? 0)
                                                       differenceMaskedImage))));
      [lia|done]. }
  rewrite Hthis. unfold evaluateQuality, getResidualMean, getResidualStd. cbn.
  change (PrimFloat.abs PrimFloat.nan) with PrimFloat.nan.
  rewrite ltb_nan_r. split_and!.
  - done.
  - destruct (PrimFloat.ltb _ _); done.
  - intros ->. cbn. rewrite ltb_nan_r. done.
Qed.

(** [all_flagged] has no pixel of mask 0: its statistics pass. *)
Lemma quality_test_passes_not_a_number_witness :
  evaluateQuality (DifferenceImageStatistics_of all_flagged) quality_policy = true.
Proof.
  apply (quality_test_passes_not_a_number all_flagged quality_policy).
  - simpl. lia.
  - simpl. lia.
  - vm_compute. discriminate.
  - vm_compute. reflexivity.
  - vm_compute. reflexivity.
Defined.

(* ===================================================================== *)
(** * Kernel basis: the edges *)
(* ===================================================================== *)

(** X4: [generateAlardLuptonKernelSet] never returns a basis: whatever
    its arguments it throws, with the message of the size check when
    [nCols] or [nRows] is below 1 and with "Not implemented" otherwise. *)
Theorem alard_lupton_always_throws {D K : Type}
    (nRows nCols : Z) (sigGauss degGauss : list D) :
  generateAlardLuptonKernelSet (K := K) nRows nCols sigGauss degGauss
  = Throw (LSST_EXCEPT pex_Exception (if (nCols <? 1) || (nRows <? 1)
                        then "nRows and nCols must be positive"
                        else "Not implemented") None)
  /\ forall kernelBasisList : list K,
       generateAlardLuptonKernelSet nRows nCols sigGauss degGauss <> Done kernelBasisList.
Proof.
  unfold generateAlardLuptonKernelSet.
  destruct ((nCols <? 1) || (nRows <? 1)); simpl; split; congruence.
Qed.

(** X5: a width or a height with the top bit set (from [2^31] to
    [2^32 - 1]) passes the size check of [generateDeltaFunctionKernelSet]
    and is negative once cast to [int]: the loops do not run, and the
    empty list is returned without an error. *)
Theorem delta_basis_empty_beyond_int {D : Type} (width height : Z) :
  (2 ^ 31 <= width < UINT_MODULUS /\ 1 <= height)
  \/ (1 <= width /\ 2 ^ 31 <= height < UINT_MODULUS) ->
  generateDeltaFunctionKernelSet (D := D) width height = Done [].
Proof.
  intros Hsize. unfold generateDeltaFunctionKernelSet.
  assert ((width <? 1) || (height <? 1) = false) as ->.
  { apply orb_false_iff. split; apply Z.ltb_ge; lia. }
  f_equal. destruct Hsize as [[Hw Hh]|[Hw Hh]].
  - apply join_of_empty_rows. intros row. unfold delta_row.
    rewrite seqZ_nil; [done|]. rewrite to_int_high by done. lia.
  - rewrite (seqZ_nil 0 (to_int height)); [done|].
    rewrite to_int_high by done. lia.
Qed.

(** A width of [2^32 - 1]. *)
Lemma delta_basis_empty_beyond_int_witness :
  generateDeltaFunctionKernelSet (D := float) (2 ^ 32 - 1) 3 = Done [].
Proof.
  apply (delta_basis_empty_beyond_int (2 ^ 32 - 1) 3).
  left. vm_compute. split_and!; congruence.
Defined.

(* ===================================================================== *)
(** * Difference operator: the background function *)
(* ===================================================================== *)

Section BackgroundFacts.
  Context {D K : Type} `{Scalar D} `{Afw D K}.

Lemma add_row_height (im : MaskedImage D) (row : Z) (F : nat -> D) (l : list nat) :
  getHeight (foldl (fun im (col : nat) => add_at im (Z.of_nat col) row (F col)) im l)
  = getHeight im.
Proof. revert im. induction l as [|c l IH]; intros im; [done|]. simpl. by rewrite IH. Qed.

Lemma add_rows_dims (im : MaskedImage D) (function : D -> D -> D) (rows cols : list nat) :
  let out := foldl (fun im (row : nat) =>
                      foldl (fun im (col : nat) =>
                               add_at im (Z.of_nat col) (Z.of_nat row)
                                      (function (positionToIndex (Z.of_nat col))
                                                (positionToIndex (Z.of_nat row))))
                            im cols) im rows in
  getWidth out = getWidth im /\ getHeight out = getHeight im.
Proof.
  revert im. induction rows as [|r rows IH]; intros im; [done|].
  simpl. destruct (IH (foldl (fun im0 (col : nat) =>
                       add_at im0 (Z.of_nat col) (Z.of_nat r)
                         (function (positionToIndex (Z.of_nat col))
                                   (positionToIndex (Z.of_nat r)))) im cols)) as [-> ->].
  rewrite (add_row_dims _ (Z.of_nat r)
             (fun col => function (positionToIndex (Z.of_nat col))
                                  (positionToIndex (Z.of_nat r)))).
  rewrite (add_row_height _ (Z.of_nat r)
             (fun col => function (positionToIndex (Z.of_nat col))
                                  (positionToIndex (Z.of_nat r)))).
  done.
Qed.

(** The loops of [addFunctionToImage] over [m] rows of [nc] columns. *)
Lemma add_rows_pixel (im : MaskedImage D) (function : D -> D -> D) (nc m : nat) x y :
  pixel_at (foldl (fun im (row : nat) =>
              foldl (fun im (col : nat) =>
                       add_at im (Z.of_nat col) (Z.of_nat row)
                              (function (positionToIndex (Z.of_nat col))
                                        (positionToIndex (Z.of_nat row))))
                    im (seq 0 nc)) im (seq 0 m)) x y
  = if (0 <=? x) && (x <? Z.of_nat nc) && (0 <=? y) && (y <? Z.of_nat m)
    then with_added (pixel_at im x y) (function (positionToIndex x) (positionToIndex y))
    else pixel_at im x y.
Proof.
  induction m as [|m IH].
  - simpl. case_compare.
  - rewrite seq_S, foldl_app. simpl.
    rewrite (add_row_pixel _ (Z.of_nat m)
               (fun col => function (positionToIndex (Z.of_nat col))
                                    (positionToIndex (Z.of_nat m)))).
    rewrite IH. case_compare. subst. rewrite Z2Nat.id by lia. done.
Qed.

Lemma addFunctionToImage_pixels (img : MaskedImage D) (function : D -> D -> D) x y :
  0 <= getWidth img < UINT_MODULUS -> 0 <= getHeight img < UINT_MODULUS ->
  pixel_at (addFunctionToImage img function) x y
  = if (0 <=? x) && (x <? getWidth img) && (0 <=? y) && (y <? getHeight img)
    then with_added (pixel_at img x y) (function (positionToIndex x) (positionToIndex y))
    else pixel_at img x y.
Proof.
  intros Hw Hh. unfold addFunctionToImage.
  rewrite !to_unsigned_small by done.
  rewrite add_rows_pixel. rewrite !Z2Nat.id by lia. done.
Qed.

End BackgroundFacts.

(** X6: [addFunctionToImage] adds to the intensity of every pixel of the
    image, once, the value of the function at the position indices of its
    column and row; it changes nothing else: not the dimensions, not the
    other planes, and no pixel outside the image. *)
Theorem addFunctionToImage_every_pixel {D K : Type} `{Scalar D} `{Afw D K}
    (img : MaskedImage D) (function : D -> D -> D) :
  0 <= getWidth img < UINT_MODULUS -> 0 <= getHeight img < UINT_MODULUS ->
  let out := addFunctionToImage img function in
  getWidth out = getWidth img /\ getHeight out = getHeight img
  /\ forall x y,
       pixel_at out x y
       = if (0 <=? x) && (x <? getWidth img) && (0 <=? y) && (y <? getHeight img)
         then with_added (pixel_at img x y)
                         (function (positionToIndex x) (positionToIndex y))
         else pixel_at img x y.
Proof.
  intros Hw Hh out.
  destruct (add_rows_dims img function
              (seq 0 (Z.to_nat (to_unsigned (getHeight img))))
              (seq 0 (Z.to_nat (to_unsigned (getWidth img))))) as [Hwidth Hheight].
  split; [exact Hwidth|]. split; [exact Hheight|].
  intros x y. apply addFunctionToImage_pixels; done.
Qed.

(** On [ramp 0] with the function [col + 2*row]: the pixel (1,1) gets 3,
    the position (2,1), outside, is left alone. *)
Lemma addFunctionToImage_every_pixel_witness :
  let out := addFunctionToImage (K := Stencil) (ramp 0)
               (fun colPos rowPos => colPos + 2 * rowPos)%R in
  pixel_at out 1 1
  = with_added (pixel_at (ramp 0) 1 1) (IZR 1 + 2 * IZR 1)%R
  /\ pixel_at out 2 1 = pixel_at (ramp 0) 2 1.
Proof.
  destruct (addFunctionToImage_every_pixel (K := Stencil) (ramp 0)
              (fun colPos rowPos => colPos + 2 * rowPos)%R) as (_ & _ & Hpix).
  - unfold ramp, UINT_MODULUS. simpl. lia.
  - unfold ramp, UINT_MODULUS. simpl. lia.
  - intros out. split.
    + unfold out. rewrite Hpix.
      change ((0 <=? 1) && (1 <? getWidth (ramp 0)) && (0 <=? 1) && (1 <? getHeight (ramp 0)))
        with true.
      cbv iota. reflexivity.
    + unfold out. rewrite Hpix.
      change ((0 <=? 2) && (2 <? getWidth (ramp 0)) && (0 <=? 1) && (1 <? getHeight (ramp 0)))
        with false.
      cbv iota. reflexivity.
Defined.

(** X7: with a background function that is constant, the overloads of
    [convolveAndSubtract] that take a function return, at every pixel of
    the image, the intensity that the overloads with that constant as the
    scalar background return. *)
Theorem constant_function_is_scalar_background {D K : Type} `{Scalar D} `{Afw D K}
    (imageToConvolve imageToNotConvolve : MaskedImage D)
    (kernel : K) (linear : LinearCombinationKernel K D) (background : D) (x y : Z) :
  0 <= x < getWidth imageToConvolve -> getWidth imageToConvolve < UINT_MODULUS ->
  0 <= y < getHeight imageToConvolve -> getHeight imageToConvolve < UINT_MODULUS ->
  image (pixel_at (convolveAndSubtract_function imageToConvolve imageToNotConvolve kernel
                     (fun _ _ => background)) x y)
  = image (pixel_at (convolveAndSubtract imageToConvolve imageToNotConvolve kernel
                       background) x y)
  /\ image (pixel_at (convolveAndSubtract_linear_function imageToConvolve
                        imageToNotConvolve linear (fun _ _ => background)) x y)
     = image (pixel_at (convolveAndSubtract_linear imageToConvolve imageToNotConvolve
                          linear background) x y).
Proof.
  intros Hx Hw Hy Hh.
  unfold convolveAndSubtract_function, convolveAndSubtract,
    convolveAndSubtract_linear_function, convolveAndSubtract_linear.
  cbv zeta. unfold times_scalar, minus_image, plus_scalar. cbn [pixel_at image].
  assert ((0 <=? x) && (x <? getWidth imageToConvolve)
          && (0 <=? y) && (y <? getHeight imageToConvolve) = true) as Hin.
  { repeat (apply andb_true_iff; split); try apply Z.leb_le; try apply Z.ltb_lt; lia. }
  split; rewrite addFunctionToImage_pixels by (simpl; lia); simpl; rewrite Hin; done.
Qed.

(** Two ramps and the unit kernel: the constant function 5 and the
    scalar 5, at pixel (1,1). *)
Lemma constant_function_is_scalar_background_witness :
  image (pixel_at (convolveAndSubtract_function (ramp 0) (ramp 100) unit_stencil
                     (fun _ _ => 5%R)) 1 1)
  = image (pixel_at (convolveAndSubtract (ramp 0) (ramp 100) unit_stencil 5%R) 1 1).
Proof.
  destruct (constant_function_is_scalar_background (ramp 0) (ramp 100) unit_stencil
              (mkLinearCombinationKernel [unit_stencil] [1%R]) 5%R 1 1) as [Hsame _].
  - unfold ramp. simpl. lia.
  - unfold ramp, UINT_MODULUS. simpl. lia.
  - unfold ramp. simpl. lia.
  - unfold ramp, UINT_MODULUS. simpl. lia.
  - exact Hsame.
Defined.

(* ===================================================================== *)
(** * Footprint selector: what is returned, and when *)
(* ===================================================================== *)

Section SelectorReturns.
  Context {D Footprint : Type} `{Scalar D} `{Floating D} `{Detection D Footprint}.
  Variables (imageToConvolve imageToNotConvolve : MaskedImage D) (policy : Policy D).

(** A loop that returns has seen its test hold some [k] times, then fail. *)
Lemma selector_loop_returns (fuel : nat) : forall (j : nat) l,
  selector_loop imageToConvolve imageToNotConvolve policy fuel
    (threshold_after policy j)
    (list_before imageToConvolve imageToNotConvolve policy j)
    (count_before imageToConvolve imageToNotConvolve policy j) = Some (Done l) ->
  exists k : nat,
    (j <= k <= j + fuel)%nat
    /\ l = list_before imageToConvolve imageToNotConvolve policy k
    /\ (forall i, (j <= i < k)%nat ->
          keep_searching policy (count_before imageToConvolve imageToNotConvolve policy i)
                         (threshold_after policy i) = true)
    /\ keep_searching policy (count_before imageToConvolve imageToNotConvolve policy k)
                      (threshold_after policy k) = false.
Proof.
  induction fuel as [|fuel IH]; intros j l Hrun.
  - simpl in Hrun.
    destruct (keep_searching policy _ (threshold_after policy j)) eqn:Ekeep; [done|].
    injection Hrun as <-. exists j. split_and!; try done; try lia; intros i Hi; lia.
  - destruct (keep_searching policy
                (count_before imageToConvolve imageToNotConvolve policy j)
                (threshold_after policy j)) eqn:Ekeep.
    + rewrite selector_loop_step in Hrun by done.
      destruct (IH (S j) l Hrun) as (k & Hk & Hl & Hkeep & Hstop).
      exists k. split_and!; try done; try lia.
      intros i Hi. destruct (decide (i = j)) as [->|Hne]; [done|].
      apply Hkeep. lia.
    + simpl in Hrun. rewrite Ekeep in Hrun. injection Hrun as <-.
      exists j. split_and!; try done; try lia; intros i Hi; lia.
Qed.

(** What a pass accepts. *)
Lemma accepted_clean (footprintListIn : list Footprint) (f : Footprint) :
  f ∈ accepted imageToConvolve imageToNotConvolve policy footprintListIn ->
  exists i, i ∈ footprintListIn
    /\ grown_from_clean imageToConvolve imageToNotConvolve policy f i.
Proof.
  unfold accepted. intros (i & -> & Hi)%list_elem_of_fmap.
  apply list_elem_of_filter in Hi as [Hclean Hi].
  exists i. split; [done|]. unfold grown_from_clean.
  unfold clean, extractable in Hclean.
  repeat (apply andb_true_iff in Hclean as [Hclean ?]).
  apply negb_true_iff in Hclean.
  repeat match goal with
         | H : negb _ = true |- _ => apply negb_true_iff in H
         end.
  split_and!.
  - done.
  - apply Z.ltb_ge. done.
  - apply Z.ltb_ge. done.
  - apply Z.ltb_ge. done.
  - destruct (subImage imageToConvolve _) as [e|a]; [done|]. eauto.
  - destruct (subImage imageToConvolve _) as [e|a]; [done|].
    destruct (subImage imageToNotConvolve _) as [e|b]; [done|]. eauto.
Qed.

(** Every detection that goes through the tests of the pass is accepted. *)
Lemma clean_accepted (footprintListIn : list Footprint) (f i : Footprint) :
  i ∈ footprintListIn ->
  grown_from_clean imageToConvolve imageToNotConvolve policy f i ->
  f ∈ accepted imageToConvolve imageToNotConvolve policy footprintListIn.
Proof.
  intros Hi (-> & Hnpix & Hitc & Hitnc & [a Ha] & [b Hb]).
  unfold accepted. apply list_elem_of_fmap. exists i. split; [done|].
  apply list_elem_of_filter. split; [|done].
  unfold clean, extractable. rewrite Ha, Hb.
  repeat (apply andb_true_iff; split); try done;
    apply negb_true_iff, Z.ltb_ge; done.
Qed.

(** The counter is the length of the list while it fits an [int]. *)
Lemma counted_length (l : list Footprint) :
  Z.of_nat (length l) <= INT_MAX -> counted 0 l = Z.of_nat (length l).
Proof.
  induction l as [|x l IH] using rev_ind; intros Hlen; [done|].
  rewrite length_app in *. simpl in *.
  rewrite counted_snoc, IH by lia. rewrite to_int_small by lia. lia.
Qed.

End SelectorReturns.

(** X8: a list that [getCollectionOfFootprintsForPsfMatching] returns is
    the one of its last pass alone.  The call has made some [k] passes:
    before each of them fewer than [minimumCleanFootprints] footprints
    were held and the threshold was above [minimumDetectionThreshold],
    and after the last one this is no longer so.  The list is empty when
    no pass ran; otherwise it holds, in detection order, exactly the
    grown versions of the footprints detected in [imageToConvolve] at the
    threshold of the last pass that have at least
    [footprintDiffimNpixMin] pixels, no mask bit set under their grown
    version in either image, and a grown bounding box that could be cut
    from both images. *)
Theorem selector_returns_clean_footprints {D Footprint : Type}
    `{Scalar D} `{Floating D} `{Detection D Footprint}
    (imageToConvolve imageToNotConvolve : MaskedImage D) (policy : Policy D)
    (fuel : nat) (footprintListOut : list Footprint) :
  getCollectionOfFootprintsForPsfMatching imageToConvolve imageToNotConvolve policy fuel
  = Some (Done footprintListOut) ->
  exists k : nat,
    (k <= fuel)%nat
    /\ (forall i, (i < k)%nat ->
          count_before imageToConvolve imageToNotConvolve policy i
          < minimumCleanFootprints policy
          /\ fltb (minimumDetectionThreshold policy) (threshold_after policy i) = true)
    /\ (minimumCleanFootprints policy
        <= count_before imageToConvolve imageToNotConvolve policy k
        \/ fltb (minimumDetectionThreshold policy) (threshold_after policy k) = false)
    /\ (k = 0%nat -> footprintListOut = [])
    /\ forall j : nat, k = S j ->
         footprintListOut
         = (fun i => growFootprint i (to_unsigned (footprintDiffimGrow policy)))
             <$> filter (fun i => clean imageToConvolve imageToNotConvolve policy i = true)
                        (getFootprints imageToConvolve (threshold_after policy j))
         /\ forall f,
              f ∈ footprintListOut <->
              exists i,
                i ∈ getFootprints imageToConvolve (threshold_after policy j)
                /\ grown_from_clean imageToConvolve imageToNotConvolve policy f i.
Proof.
  intros Hrun.
  destruct (selector_loop_returns imageToConvolve imageToNotConvolve policy fuel 0
              footprintListOut Hrun) as (k & Hk & -> & Hkeep & Hstop).
  exists k. split; [lia|]. split.
  { intros i Hi. specialize (Hkeep i ltac:(lia)). unfold keep_searching in Hkeep.
    apply andb_true_iff in Hkeep as [Hcount Hfloor]. apply Z.ltb_lt in Hcount. done. }
  split.
  { unfold keep_searching in Hstop. apply andb_false_iff in Hstop as [Hcount|Hfloor].
    - left. apply Z.ltb_ge. done.
    - right. done. }
  split; [intros ->; done|].
  intros j ->. split; [done|].
  intros f. simpl. split.
  - apply accepted_clean.
  - intros (i & Hi & Hclean).
    by apply (clean_accepted imageToConvolve imageToNotConvolve policy _ f i).
Qed.

(** The search over [sky] returns after two passes, with the two clean
    footprints of the second. *)
Lemma selector_returns_clean_footprints_witness :
  getCollectionOfFootprintsForPsfMatching
    (H1 := listed_Detection sky) field field search_policy 2
  = Some (Done [mkSource 9 (mkBBox (mkPointI 7 7) (mkPointI 11 11)) 0 100;
                mkSource 9 (mkBBox (mkPointI 13 3) (mkPointI 17 7)) 0 5])
  /\ exists k : nat,
       (k <= 2)%nat
       /\ (minimumCleanFootprints search_policy
           <= count_before (H1 := listed_Detection sky) field field search_policy k
           \/ fltb (minimumDetectionThreshold search_policy)
                   (threshold_after search_policy k) = false)
       /\ forall j : nat, k = S j ->
            forall f,
              f ∈ [mkSource 9 (mkBBox (mkPointI 7 7) (mkPointI 11 11)) 0 100;
                   mkSource 9 (mkBBox (mkPointI 13 3) (mkPointI 17 7)) 0 5] <->
              exists i,
                i ∈ getFootprints (Detection := listed_Detection sky) field
                      (threshold_after search_policy j)
                /\ grown_from_clean (H1 := listed_Detection sky) field field
                      search_policy f i.
Proof.
  assert (getCollectionOfFootprintsForPsfMatching
            (H1 := listed_Detection sky) field field search_policy 2
          = Some (Done [mkSource 9 (mkBBox (mkPointI 7 7) (mkPointI 11 11)) 0 100;
                        mkSource 9 (mkBBox (mkPointI 13 3) (mkPointI 17 7)) 0 5])) as Hrun
    by (vm_compute; reflexivity).
  split; [exact Hrun|].
  destruct (selector_returns_clean_footprints (H1 := listed_Detection sky)
              field field search_policy 2 _ Hrun) as (k & Hk & _ & Hstop & _ & Hlist).
  exists k. split; [exact Hk|]. split; [exact Hstop|].
  intros j Hj. apply (Hlist j Hj).
Defined.

(** X9: when the list returned is shorter than [minimumCleanFootprints]
    the search has stopped on the threshold: the threshold it had reached
    is not above [minimumDetectionThreshold].  (For lists whose length
    fits the [int] counter.) *)
Theorem short_list_means_floor_reached {D Footprint : Type}
    `{Scalar D} `{Floating D} `{Detection D Footprint}
    (imageToConvolve imageToNotConvolve : MaskedImage D) (policy : Policy D)
    (fuel : nat) (footprintListOut : list Footprint) :
  getCollectionOfFootprintsForPsfMatching imageToConvolve imageToNotConvolve policy fuel
  = Some (Done footprintListOut) ->
  Z.of_nat (length footprintListOut) <= INT_MAX ->
  Z.of_nat (length footprintListOut) < minimumCleanFootprints policy ->
  exists k : nat,
    (k <= fuel)%nat
    /\ footprintListOut = list_before imageToConvolve imageToNotConvolve policy k
    /\ fltb (minimumDetectionThreshold policy) (threshold_after policy k) = false.
Proof.
  intros Hrun Hfit Hshort.
  destruct (selector_loop_returns imageToConvolve imageToNotConvolve policy fuel 0
              footprintListOut Hrun) as (k & Hk & -> & _ & Hstop).
  exists k. split_and!; try done; try lia.
  unfold keep_searching, count_before in Hstop.
  rewrite counted_length in Hstop by done.
  apply andb_false_iff in Hstop as [Hcount|Hfloor]; [|done].
  apply Z.ltb_ge in Hcount. lia.
Qed.

(** The search over [sky] returns two footprints where three were asked
    for: the threshold went 8, 4, 2, and 2 is not above the floor 3. *)
Lemma short_list_means_floor_reached_witness :
  exists k : nat,
    (k <= 2)%nat
    /\ [mkSource 9 (mkBBox (mkPointI 7 7) (mkPointI 11 11)) 0 100;
        mkSource 9 (mkBBox (mkPointI 13 3) (mkPointI 17 7)) 0 5]
       = list_before (H1 := listed_Detection sky) field field search_policy k
    /\ fltb (minimumDetectionThreshold search_policy) (threshold_after search_policy k)
       = false.
Proof.
  apply (short_list_means_floor_reached (H1 := listed_Detection sky)
           field field search_policy 2).
  - vm_compute. reflexivity.
  - vm_compute. discriminate.
  - vm_compute. reflexivity.
Defined.

(** X10: the loop of [getCollectionOfFootprintsForPsfMatching] has no
    bound of its own.  When multiplying the threshold by
    [detectionThresholdScaling] leaves it as it is (a scaling of 1), the
    threshold is above [minimumDetectionThreshold] and the pass at that
    threshold accepts fewer than [minimumCleanFootprints] footprints, the
    call does not return, however many passes it is given. *)
Theorem selector_does_not_end {D Footprint : Type}
    `{Scalar D} `{Floating D} `{Detection D Footprint}
    (imageToConvolve imageToNotConvolve : MaskedImage D) (policy : Policy D) :
  fmul (footprintDetectionThreshold policy) (detectionThresholdScaling policy)
  = footprintDetectionThreshold policy ->
  fltb (minimumDetectionThreshold policy) (footprintDetectionThreshold policy) = true ->
  0 < minimumCleanFootprints policy ->
  counted 0 (accepted imageToConvolve imageToNotConvolve policy
               (getFootprints imageToConvolve (footprintDetectionThreshold policy)))
  < minimumCleanFootprints policy ->
  forall fuel,
    getCollectionOfFootprintsForPsfMatching imageToConvolve imageToNotConvolve policy fuel
    = None.
Proof.
  intros Hfix Habove Hwanted Hshort fuel.
  apply (selector_loop_runs_on imageToConvolve imageToNotConvolve policy fuel 0).
  intros i. unfold keep_searching.
  rewrite threshold_fixed by done. rewrite Habove, andb_true_r.
  apply Z.ltb_lt. destruct i as [|i]; [done|].
  unfold count_before, list_before. rewrite threshold_fixed by done. done.
Qed.

(** The search over [sky] with a scaling of 1: every pass accepts the one
    clean bright source, three are asked for, and the threshold stays at
    8. *)
Lemma selector_does_not_end_witness :
  getCollectionOfFootprintsForPsfMatching
    (H1 := listed_Detection sky) field field still_policy 1000 = None.
Proof.
  apply (selector_does_not_end (H1 := listed_Detection sky) field field still_policy).
  - vm_compute. reflexivity.
  - vm_compute. reflexivity.
  - vm_compute. reflexivity.
  - vm_compute. reflexivity.
Defined.

(* ===================================================================== *)
(** * Kernel solver: the window at the edges, and what the scan reads *)
(* ===================================================================== *)

Lemma tabulate_constant {A} (c : A) (p : nat) :
  (fun _ : nat => c) <$> seq 0 p = replicate p c.
Proof.
  generalize 0%nat. induction p as [|p IH]; intros s; [done|].
  simpl. f_equal. apply IH.
Qed.

Lemma bind_of_empty {A B} (l : list A) (f : A -> list B) :
  (forall a, f a = []) -> l ≫= f = [].
Proof.
  intros Hf. induction l as [|a l IH]; [done|].
  rewrite bind_cons, Hf, IH. done.
Qed.

Section WindowEdges.
  Context {D K : Type} `{Scalar D} `{KernelLike K}.

(** A window without rows or without columns: nothing is visited. *)
Lemma empty_window_visits_nothing (w : Window) :
  endRow w <= startRow w \/ endCol w <= startCol w -> visited_pixels w = [].
Proof.
  intros [Hrows|Hcols]; unfold visited_pixels.
  - rewrite (seqZ_nil 0 (endRow w - startRow w)) by lia. done.
  - apply bind_of_empty. intros row.
    rewrite (seqZ_nil 0 (endCol w - startCol w)) by lia. done.
Qed.

Lemma equations_over_nothing (imageToNotConvolve varianceImage : MaskedImage D)
    (convolvedImageList : list (MaskedImage D)) :
  equations_over [] imageToNotConvolve varianceImage convolvedImageList
  = (gsl_matrix_zero (S (length convolvedImageList)),
     gsl_vector_zero (S (length convolvedImageList))).
Proof.
  unfold equations_over, sum_over, gsl_matrix_zero, gsl_vector_zero. cbn [foldl].
  rewrite !tabulate_constant. done.
Qed.

(** The sums over the same pixels of terms that agree. *)
Lemma sum_over_ext (positions : list (Z * Z)) (f g : Z -> Z -> D) :
  (forall x y, f x y = g x y) -> sum_over positions f = sum_over positions g.
Proof.
  intros Hfg. unfold sum_over. apply foldl_ext_in. intros acc p _. rewrite Hfg. done.
Qed.

Lemma convolved_intensity_agrees (convs convs' : list (MaskedImage D)) (i : nat) x y :
  Forall2 same_intensity convs convs' ->
  match convs !! i with
  | Some citer => image (pixel_at citer x y)
  | None => of_Z 0
  end
  = match convs' !! i with
    | Some citer => image (pixel_at citer x y)
    | None => of_Z 0
    end.
Proof.
  intros Hsame.
  destruct (convs !! i) as [c|] eqn:Ec.
  - destruct (Forall2_lookup_l _ _ _ _ _ Hsame Ec) as (c' & -> & Hcc'). apply Hcc'.
  - apply lookup_ge_None in Ec. rewrite (Forall2_length _ _ _ Hsame) in Ec.
    apply lookup_ge_None in Ec. rewrite Ec. done.
Qed.

End WindowEdges.

(** X11: when the convolved image is narrower than the first basis
    kernel but at least [kernel width - centre - 1] wide (or the same in
    height), the window of the pixel loops is empty: the scan visits no
    pixel, and the normal equations handed to the solve are the zero
    matrix and the zero vector.  No error is raised for it. *)
Theorem narrow_image_gives_zero_system {D K : Type} `{Scalar D} `{KernelLike K}
    (imageToConvolve imageToNotConvolve varianceImage : MaskedImage D)
    (convolvedImageList : list (MaskedImage D)) (kiter : K) (citer : MaskedImage D) :
  (0 <= getCtrX kiter <= INT_MAX /\ getWidth citer <= INT_MAX
   /\ kernelWidth kiter - getCtrX kiter - 1 <= getWidth citer < kernelWidth kiter)
  \/ (0 <= getCtrY kiter <= INT_MAX /\ getHeight citer <= INT_MAX
      /\ kernelHeight kiter - getCtrY kiter - 1 <= getHeight citer < kernelHeight kiter) ->
  let w := accumulation_window kiter citer in
  visited_pixels w = []
  /\ normal_equations imageToConvolve imageToNotConvolve varianceImage convolvedImageList w
     = (gsl_matrix_zero (S (length convolvedImageList)),
        gsl_vector_zero (S (length convolvedImageList))).
Proof.
  intros Hnarrow w.
  assert (visited_pixels w = []) as Hnone.
  { apply empty_window_visits_nothing. unfold w, accumulation_window. simpl.
    unfold INT_MAX in *.
    destruct Hnarrow as [(Hc & Hw & Hk)|(Hc & Hh & Hk)]; [right|left];
      rewrite !to_unsigned_small by (unfold UINT_MODULUS; lia); lia. }
  split; [done|].
  rewrite normal_equations_visited, Hnone. apply equations_over_nothing.
Qed.

(** A 3 by 3 image and the 5 by 5 kernel centred at (2,2). *)
Lemma narrow_image_gives_zero_system_witness :
  normal_equations ones3 ones3 ones3 [ones3] (accumulation_window five_stencil ones3)
  = ([[0; 0]; [0; 0]]%float, [0; 0]%float).
Proof.
  destruct (narrow_image_gives_zero_system ones3 ones3 ones3 [ones3] five_stencil ones3)
    as [_ Hzero].
  - left. vm_compute. split_and!; congruence.
  - exact Hzero.
Defined.

(** X12: when the width of the convolved image is below
    [kernel width - centre - 1] of the first basis kernel, the unsigned
    [endCol] wraps around: the window starts at the centre column and
    ends beyond [2^31], the column loop makes more than [2^31] turns,
    and, when the window has a row, the scan reads at columns that are
    not in the image.  Nothing checks that the kernel fits the image. *)
Theorem window_wraps_on_small_image {D K : Type} `{KernelLike K}
    (kiter : K) (citer : MaskedImage D) :
  0 <= getCtrX kiter -> kernelWidth kiter <= INT_MAX ->
  0 <= getWidth citer < kernelWidth kiter - getCtrX kiter - 1 ->
  let w := accumulation_window kiter citer in
  startCol w = getCtrX kiter
  /\ endCol w = UINT_MODULUS + getWidth citer - (kernelWidth kiter - getCtrX kiter) + 1
  /\ 2 ^ 31 < endCol w - startCol w
  /\ (startRow w < endRow w ->
      exists x y, (x, y) ∈ visited_pixels w /\ getWidth citer <= x).
Proof.
  intros Hc Hk Hw w. unfold INT_MAX in *.
  assert (startCol w = getCtrX kiter) as Hstart.
  { unfold w, accumulation_window. simpl.
    apply to_unsigned_small. unfold UINT_MODULUS. lia. }
  assert (endCol w
          = UINT_MODULUS + getWidth citer - (kernelWidth kiter - getCtrX kiter) + 1) as Hend.
  { unfold w, accumulation_window, to_unsigned, UINT_MODULUS. simpl.
    symmetry. apply (Z.mod_unique _ _ (-1)); lia. }
  split_and!; [done|done|unfold UINT_MODULUS in *; lia|].
  intros Hrows.
  exists (to_int (startCol w) + 0 * (endCol w - startCol w) + getWidth citer),
         (to_int (startRow w) + 0).
  split.
  - unfold visited_pixels. apply list_elem_of_bind. exists 0. split.
    + apply list_elem_of_bind. exists (getWidth citer). split; [apply list_elem_of_singleton; done|].
      apply elem_of_seqZ. unfold UINT_MODULUS in *. lia.
    + apply elem_of_seqZ. lia.
  - rewrite Hstart, to_int_small by (unfold INT_MAX; lia). lia.
Qed.

(** A 1 by 3 image and the 5 by 5 kernel centred at (2,2): [endCol] is
    [2^32 - 1]. *)
Lemma window_wraps_on_small_image_witness :
  endCol (accumulation_window five_stencil thin) = UINT_MODULUS + 1 - (5 - 2) + 1.
Proof.
  destruct (window_wraps_on_small_image five_stencil thin) as (_ & Hend & _).
  - simpl. lia.
  - vm_compute. discriminate.
  - simpl. lia.
  - exact Hend.
Defined.

(** X13: the pixel scan reads the intensity of [imageToNotConvolve] and
    of the convolved images and the variance of [varianceImage], and
    nothing else: the normal equations are the same for inputs that agree
    on these, whatever their masks, the variance planes of
    [imageToNotConvolve] and of the convolved images, and
    [imageToConvolve] itself.  A pixel flagged in a mask is summed like
    any other. *)
Theorem scan_reads_no_mask {D : Type} `{Scalar D}
    (imageToConvolve imageToNotConvolve varianceImage : MaskedImage D)
    (imageToConvolve' imageToNotConvolve' varianceImage' : MaskedImage D)
    (convolvedImageList convolvedImageList' : list (MaskedImage D)) (w : Window) :
  same_intensity imageToNotConvolve imageToNotConvolve' ->
  same_variance varianceImage varianceImage' ->
  Forall2 same_intensity convolvedImageList convolvedImageList' ->
  normal_equations imageToConvolve imageToNotConvolve varianceImage convolvedImageList w
  = normal_equations imageToConvolve' imageToNotConvolve' varianceImage'
                     convolvedImageList' w.
Proof.
  intros Hnc Hvar Hconv. rewrite !normal_equations_visited.
  unfold equations_over. rewrite <- (Forall2_length _ _ _ Hconv).
  f_equal.
  - apply list_fmap_ext. intros ki i _. apply list_fmap_ext. intros kj j _.
    apply sum_over_ext. intros x y. unfold matrix_term.
    rewrite <- (Forall2_length _ _ _ Hconv), <- Hvar.
    rewrite !(convolved_intensity_agrees convolvedImageList convolvedImageList') by done.
    done.
  - apply list_fmap_ext. intros ki i _.
    apply sum_over_ext. intros x y. unfold vector_term.
    rewrite <- (Forall2_length _ _ _ Hconv), <- Hvar, <- Hnc.
    rewrite !(convolved_intensity_agrees convolvedImageList convolvedImageList') by done.
    done.
Qed.

(** [flagged6] has the intensities of [ones6], every mask bit set and
    another variance: as template and as convolved image it gives the
    normal equations of [ones6]. *)
Lemma scan_reads_no_mask_witness :
  normal_equations ones6 ramp6 ones6 [ones6] (mkWindow 2 2 4 4)
  = normal_equations flagged6 ramp6 ones6 [flagged6] (mkWindow 2 2 4 4).
Proof.
  apply (scan_reads_no_mask ones6 ramp6 ones6 flagged6 ramp6 ones6 [ones6] [flagged6]).
  - intros x y. reflexivity.
  - intros x y. reflexivity.
  - constructor; [|constructor]. intros x y. reflexivity.
Defined.

(** X16: for a window of one row (and a start column and row that fit
    an [int]) the locators stand on the pixels of the window, and the
    normal equations are the sums over the window of the products of the
    intensities and the inverse variance, mirrored. *)
Theorem one_row_window_is_summed {D : Type} `{Scalar D}
    (imageToConvolve imageToNotConvolve varianceImage : MaskedImage D)
    (convolvedImageList : list (MaskedImage D)) (w : Window) :
  0 <= startCol w <= INT_MAX -> 0 <= startRow w <= INT_MAX ->
  endRow w - startRow w <= 1 ->
  visited_pixels w = window_pixels w
  /\ normal_equations imageToConvolve imageToNotConvolve varianceImage convolvedImageList w
     = specified_normal_equations imageToNotConvolve varianceImage convolvedImageList w.
Proof.
  intros Hcol Hrow Hone. split.
  - apply one_row_visits_the_window; [apply to_int_small..|]; done.
  - apply one_row_normal_equations; [apply to_int_small..|]; done.
Qed.

(** The pair of images: one row of two pixels, both in the window of the
    1 by 1 kernel. *)
Lemma one_row_window_is_summed_witness :
  normal_equations pair_template pair_science pair_variance [pair_template]
                   (mkWindow 0 0 2 1)
  = specified_normal_equations pair_science pair_variance [pair_template]
                               (mkWindow 0 0 2 1).
Proof.
  destruct (one_row_window_is_summed pair_template pair_science pair_variance
              [pair_template] (mkWindow 0 0 2 1)) as [_ Hsame].
  - vm_compute. split; congruence.
  - vm_compute. split; congruence.
  - simpl. lia.
  - exact Hsame.
Defined.

(* ===================================================================== *)
(** * Kernel solver: what a call returns *)
(* ===================================================================== *)

(** X14: a call of [computePsfMatchingKernelForFootprint] with an empty
    basis dereferences the [begin()] of an empty list.  A call that
    returns had a basis, and returns it in both kernels, with the first
    [kernelCols*kernelRows] entries of the solution as the coefficients
    of the kernel, none of them not-a-number, and the entry of index
    [|basis|] as the background. *)
Theorem solver_returns_the_solution {D K : Type}
    `{Scalar D} `{Floating D} `{KernelLike K} `{Afw D K} `{Gsl D}
    (imageToConvolve imageToNotConvolve varianceImage : MaskedImage D)
    (kernelInBasisList : list K) (policy : Policy D) (Cov : gsl_matrix D) :
  computePsfMatchingKernelForFootprint imageToConvolve imageToNotConvolve varianceImage
    [] policy Cov = Fault
  /\ forall r,
       Z.of_nat (length kernelInBasisList) < INT_MAX ->
       computePsfMatchingKernelForFootprint imageToConvolve imageToNotConvolve
         varianceImage kernelInBasisList policy Cov = Done r ->
       let X := solution_of imageToConvolve imageToNotConvolve varianceImage
                            kernelInBasisList in
       kernelInBasisList <> []
       /\ getKernelList (kernelPtr r) = kernelInBasisList
       /\ getKernelList (kernelErrorPtr r) = kernelInBasisList
       /\ Z.of_nat (length (getKernelParameters (kernelPtr r))) = coefficient_count policy
       /\ (forall i, 0 <= i < coefficient_count policy ->
             exists x, gsl_vector_get X i = Some x /\ fisnan x = false
               /\ getKernelParameters (kernelPtr r) !! Z.to_nat i = Some x)
       /\ gsl_vector_get X (Z.of_nat (length kernelInBasisList)) = Some (background r).
Proof.
  split; [done|]. intros r Hint Hrun.
  destruct kernelInBasisList as [|kiter rest] eqn:Ebasis; [done|].
  rewrite <- Ebasis in *. intros X.
  destruct (solver_translates imageToConvolve imageToNotConvolve varianceImage
              kernelInBasisList policy Cov) as [Heq Hlen]; [by rewrite Ebasis|].
  rewrite Heq in Hrun. apply translate_Done in Hrun.
  2:{ rewrite Hlen. unfold INT_MAX, UINT_MODULUS in *. lia. }
  destruct Hrun as (_ & Hk & Hke & Hcount & _ & Hentries & (x & c & Hx & _ & _ & _ & Hbg & _)).
  split; [by rewrite Ebasis|]. split; [done|]. split; [done|]. split; [done|].
  split.
  - intros i Hi. destruct (Hentries i Hi) as (x' & c' & Hp & Hcoef & _).
    apply inspect_Pass in Hp as (Hx' & _ & Hnan & _). exists x'.
    unfold X. split; [exact Hx'|]. split; [exact Hnan|exact Hcoef].
  - rewrite Hbg, <- Hx. unfold X. f_equal. lia.
Qed.

(** The pair of images with [block_a]: the coefficient is 1 and the
    background 2. *)
Lemma solver_returns_the_solution_witness :
  gsl_vector_get (solution_of pair_template pair_science pair_variance [unit_stencil]) 1
  = Some 2%float.
Proof.
  destruct (solver_returns_the_solution pair_template pair_science pair_variance
              [unit_stencil] unit_policy block_a) as [_ Hreturned].
  destruct (Hreturned (mkFitResult (mkLinearCombinationKernel [unit_stencil] [1%float])
                                   (mkLinearCombinationKernel [unit_stencil] [2%float])
                                   2%float 3%float)) as (_ & _ & _ & _ & _ & Hbg).
  - vm_compute. reflexivity.
  - vm_compute. reflexivity.
  - exact Hbg.
Defined.

Section BackgroundEntry.
  Context {D K : Type} `{Scalar D} `{Floating D}.
  Variables (policy : Policy D) (kernelInBasisList : list K).
  Variables (X : gsl_vector D) (Cov : gsl_matrix D) (nParameters : Z).

Lemma translate_background x c :
  Z.of_nat (length X) < UINT_MODULUS ->
  coefficient_count policy <= Z.of_nat (length X) ->
  (forall i, 0 <= i < coefficient_count policy -> exists x c, inspect X Cov i = Pass x c) ->
  gsl_vector_get X (nParameters - 1) = Some x ->
  gsl_matrix_get Cov (nParameters - 1) (nParameters - 1) = Some c ->
  fisnan c = false -> fltb c (of_Z 0) = false ->
  exists r, translate policy kernelInBasisList nParameters X Cov = Done r
            /\ background r = x /\ backgroundError r = fsqrt c.
Proof.
  intros HX Hfit Hpass Hx Hc Hnan Hneg.
  unfold translate. rewrite translate_rows_flat, turns_count.
  pose proof (coefficient_count_nonneg policy) as HP.
  fold (coefficient_count policy).
  set (size := Z.to_nat (to_unsigned (coefficient_count policy))).
  assert (Z.of_nat size = coefficient_count policy) as Hsize.
  { unfold size. rewrite to_unsigned_small by lia. lia. }
  pose proof (translate_cols_cases X Cov (Z.to_nat (coefficient_count policy)) 0
                (replicate size (of_Z 0)) (replicate size (of_Z 0))
                ltac:(lia) HX) as Hloop.
  destruct (translate_cols _ X Cov _) as [[idx' [kv' ke']]|e'|]; simpl.
  - rewrite Hc. simpl. rewrite Hnan, Hneg, Hx. simpl. eauto.
  - destruct Hloop as (i & Hi & _ & Hrej).
    destruct (Hpass i) as (x' & c' & Hp); [lia|]. congruence.
  - destruct Hloop as (i & Hi & _ & Hbad). rewrite !length_replicate in Hbad.
    destruct (Hpass i) as (x' & c' & Hp); [lia|].
    destruct Hbad as [Hbad|Hbad]; [congruence|lia].
Qed.

End BackgroundEntry.

(** X15: the translation checks the solution for not-a-number at the
    kernel indices only.  When the kernel entries pass their checks and
    the covariance entry of the background passes its own, the call
    returns the background entry of the solution as it is,
    not-a-number included. *)
Theorem background_solution_is_not_checked {D K : Type} `{Scalar D} `{Floating D}
    (policy : Policy D) (kernelInBasisList : list K)
    (X : gsl_vector D) (Cov : gsl_matrix D) (nParameters : Z) (x c : D) :
  Z.of_nat (length X) < UINT_MODULUS ->
  coefficient_count policy <= Z.of_nat (length X) ->
  (forall i, 0 <= i < coefficient_count policy -> exists x c, inspect X Cov i = Pass x c) ->
  gsl_vector_get X (nParameters - 1) = Some x ->
  gsl_matrix_get Cov (nParameters - 1) (nParameters - 1) = Some c ->
  fisnan c = false -> fltb c (of_Z 0) = false ->
  exists r, translate policy kernelInBasisList nParameters X Cov = Done r
            /\ background r = x /\ backgroundError r = fsqrt c.
Proof. apply translate_background. Qed.

(** One basis kernel, the solution [1; not-a-number] and [block_b]: the
    call returns, with a background that is not-a-number. *)
Lemma background_solution_is_not_checked_witness :
  exists r, translate unit_policy [unit_stencil] 2 nan_background block_b = Done r
            /\ background r = PrimFloat.nan /\ backgroundError r = fsqrt 25%float.
Proof.
  apply (background_solution_is_not_checked unit_policy [unit_stencil]
           nan_background block_b 2 PrimFloat.nan 25%float).
  - vm_compute. reflexivity.
  - vm_compute. discriminate.
  - intros i Hi. change (coefficient_count unit_policy) with 1 in Hi.
    assert (i = 0) as -> by lia.
    vm_compute. eauto.
  - reflexivity.
  - reflexivity.
  - reflexivity.
  - reflexivity.
Defined.
